(** * Arbitrage detection for Nobitex: a shallow embedding of [src/triangles.ts]

    The TypeScript module is pure: every function maps its arguments to a
    fresh result.  The embedding follows it function by function.

    - A number is an IEEE-754 binary64 value, Rocq's primitive [float];
      [Number(s)] on a string is a parameter of the parser.
    - A string is a [string]; only its length and its ASCII suffixes are
      inspected, which read the same on bytes and on UTF-16 code units.
    - The [Map] keyed by the template string [`${asset}:${quote}`] is a
      [gmap string]; a later [set] of a key replaces the earlier one.
    - An array is a list; a [for ... of] loop that pushes onto an array is a
      left fold that appends, a [continue] leaving the array as it is.
    - [maxResults] is a count, a [nat]. *)

From Stdlib Require Import Floats ZArith Lia Sorted Permutation.
From stdpp Require Import gmap strings list.

Set Warnings "-inexact-float".

(** ** ECMAScript primitives used by the module *)

Module JS.

(** [x > y] on numbers. *)
Definition gt (x y : float) : bool := (y <? x)%float.

(** The global [isFinite] on a number. *)
Definition isFinite (x : float) : bool := is_finite x.

(** [Math.min(...)], as ECMA-262 words it: start from +Infinity, return NaN
    as soon as an argument is NaN, prefer -0 over +0, otherwise keep the
    smaller value. *)
Fixpoint min_from (lowest : float) (l : list float) : float :=
  match l with
  | [] => lowest
  | n :: l' =>
      if is_nan n then nan
      else if Leibniz.eqb n neg_zero && Leibniz.eqb lowest zero
           then min_from n l'
      else if (n <? lowest)%float then min_from n l'
      else min_from lowest l'
  end.

Definition Math_min (l : list float) : float := min_from infinity l.

(** [Array.prototype.sort(cmp)].  ECMA-262 requires a stable sort and reads
    a NaN returned by the comparator as +0.  For a consistent comparator the
    result is unique; it is computed here by stable insertion, [x] moving
    behind [y] exactly when [cmp x y > 0]. *)
Fixpoint sort_insert {A} (cmp : A -> A -> float) (x : A) (l : list A) : list A :=
  match l with
  | [] => [x]
  | y :: l' => if gt (cmp x y) 0 then y :: sort_insert cmp x l' else x :: l
  end.

Definition Array_sort {A} (cmp : A -> A -> float) (l : list A) : list A :=
  foldr (sort_insert cmp) [] l.

(** [arr.slice(0, n)] for a non-negative integer [n]. *)
Definition slice0 {A} (n : nat) (l : list A) : list A := take n l.

(** [s.endsWith(suffix)]. *)
Definition endsWith (s suffix : string) : bool :=
  let n := String.length s in
  let k := String.length suffix in
  (k <=? n)%nat && String.eqb (String.substring (n - k) k s) suffix.

(** [s.slice(0, -k)]: the string without its last [k] characters. *)
Definition dropEnd (k : nat) (s : string) : string :=
  String.substring 0 (String.length s - k) s.

End JS.

(** ** Types *)

Module MarketPair.
Record t := mk {
  symbol : string;
  asset : string;
  quote : string;
  bestBid : float;
  bestBidQty : float;
  bestAsk : float;
  bestAskQty : float
}.
End MarketPair.

Inductive Side := buy | sell.

Module Leg.
Record t := mk {
  pair : string;
  side : Side;
  price : float;
  availableQty : float;
  qtyUnit : string
}.
End Leg.

Inductive StrategyType := triangle | cross.
Inductive Direction := cw | ccw | cross_direction.

Module Opportunity.
Record t := mk {
  type : StrategyType;
  assets : list string;
  base : string;
  direction : Direction;
  legs : list Leg.t;
  rate : float;
  grossPct : float;
  feePct : float;
  netPct : float;
  maxVolumeIRT : float;
  expectedProfitIRT : float;
  bottleneckLeg : nat
}.
End Opportunity.

(** The raw snapshot.  A value of the [Record<string, unknown>] is nullish, a
    non-object, or an object whose [bids] and [asks] properties are either
    absent or arrays of rows of strings. *)
Record OrderBook := {
  bids : option (list (list string));
  asks : option (list (list string))
}.

Inductive JSValue :=
  | JSNullish
  | JSPrimitive
  | JSObject (m : OrderBook).

(** ** Parsing *)

Definition parseSymbol (symbol : string) : option (string * string) :=
  if (4 <? String.length symbol)%nat && JS.endsWith symbol "USDT"
  then Some (JS.dropEnd 4 symbol, "USDT")
  else if (3 <? String.length symbol)%nat && JS.endsWith symbol "IRT"
  then Some (JS.dropEnd 3 symbol, "IRT")
  else None.

Section Parsing.

(** [Number(s)] on a string is left abstract: every result below holds for
    any conversion. *)
Variable Number : string -> float.

(** [Number(row[i])]; a missing cell is [undefined], whose number is NaN. *)
Definition cell (row : list string) (i : nat) : float :=
  match row !! i with
  | Some s => Number s
  | None => nan
  end.

(** [isFinite(q) && q > 0 ? q : 0] *)
Definition clampQty (q : float) : float :=
  if JS.isFinite q && JS.gt q 0 then q else 0%float.

(** One iteration of the loop of [parseAllPairs]: [None] is [continue]. *)
Definition parseEntry (key : string) (value : JSValue) : option MarketPair.t :=
  if String.eqb key "status" then None else
  match value with
  | JSNullish | JSPrimitive => None
  | JSObject m =>
      match parseSymbol key with
      | None => None
      | Some parsed =>
          match bids m, asks m with
          | Some (bid0 :: _), Some (ask0 :: _) =>
              let bestBid := cell bid0 0 in
              let bestBidQty := cell bid0 1 in
              let bestAsk := cell ask0 0 in
              let bestAskQty := cell ask0 1 in
              if negb (JS.gt bestBid 0) || negb (JS.gt bestAsk 0) then None
              else if negb (JS.isFinite bestBid) || negb (JS.isFinite bestAsk) then None
              else Some {|
                MarketPair.symbol := key;
                MarketPair.asset := parsed.1;
                MarketPair.quote := parsed.2;
                MarketPair.bestBid := bestBid;
                MarketPair.bestBidQty := clampQty bestBidQty;
                MarketPair.bestAsk := bestAsk;
                MarketPair.bestAskQty := clampQty bestAskQty
              |}
          | _, _ => None
          end
      end
  end.

(** [data] is [Object.entries] of the snapshot, in enumeration order. *)
Definition parseAllPairs (data : list (string * JSValue)) : list MarketPair.t :=
  fold_left
    (fun pairs entry =>
       match parseEntry entry.1 entry.2 with
       | Some p => pairs ++ [p]
       | None => pairs
       end)
    data [].

End Parsing.

(** ** Per-asset precomputed info *)

Module AssetEntry.
Record t := mk {
  asset : string;
  irt : MarketPair.t;
  base : MarketPair.t
}.
End AssetEntry.

(** The template string [`${asset}:${quote}`]. *)
Definition indexKey (asset quote : string) : string := asset +:+ ":" +:+ quote.

(** [for (const p of pairs) idx.set(`${p.asset}:${p.quote}`, p)] *)
Definition indexPairs (pairs : list MarketPair.t) : gmap string MarketPair.t :=
  fold_left
    (fun idx p => <[indexKey (MarketPair.asset p) (MarketPair.quote p) := p]> idx)
    pairs ∅.

Definition buildAssetEntries (pairs : list MarketPair.t) (baseCurrency : string)
  : list AssetEntry.t :=
  let idx := indexPairs pairs in
  fold_left
    (fun entries p =>
       if negb (String.eqb (MarketPair.quote p) "IRT")
          || String.eqb (MarketPair.asset p) baseCurrency
       then entries
       else match idx !! indexKey (MarketPair.asset p) baseCurrency with
            | None => entries
            | Some bp =>
                entries ++ [ {| AssetEntry.asset := MarketPair.asset p;
                                AssetEntry.irt := p;
                                AssetEntry.base := bp |} ]
            end)
    pairs [].

(** ** Strategy 1: triangle (3 legs) *)

Section Triangles.

Variables (bridge : MarketPair.t) (baseCurrency : string) (totalFee : float).

(** CW: IRT -> X -> BASE -> IRT.  The three capacities [l1], [l2], [l3], all
    in units of the asset. *)
Definition cwCaps (e : AssetEntry.t) : float * float * float :=
  let xIrt := AssetEntry.irt e in
  let xBase := AssetEntry.base e in
  let l1 := MarketPair.bestAskQty xIrt in
  let l2 := MarketPair.bestBidQty xBase in
  let l3 := if JS.gt (MarketPair.bestBid xBase) 0
            then (MarketPair.bestBidQty bridge / MarketPair.bestBid xBase)%float
            else 0%float in
  (l1, l2, l3).

(** [Math.min(l1, l2, l3)] *)
Definition min3 (caps : float * float * float) : float :=
  let '(l1, l2, l3) := caps in JS.Math_min [l1; l2; l3].

Definition cwRate (e : AssetEntry.t) : float :=
  ((MarketPair.bestBid (AssetEntry.base e) * MarketPair.bestBid bridge)
   / MarketPair.bestAsk (AssetEntry.irt e))%float.

Definition cwVol (e : AssetEntry.t) : float :=
  (min3 (cwCaps e) * MarketPair.bestAsk (AssetEntry.irt e))%float.

(** [maxX === l1 ? 0 : maxX === l2 ? 1 : 2] *)
Definition bottleneck3 (maxX : float) (caps : float * float * float) : nat :=
  let '(l1, l2, _) := caps in
  if (maxX =? l1)%float then 0 else if (maxX =? l2)%float then 1 else 2.

Definition cwOpportunity (e : AssetEntry.t) : Opportunity.t :=
  let asset := AssetEntry.asset e in
  let xIrt := AssetEntry.irt e in
  let xBase := AssetEntry.base e in
  let rate := cwRate e in
  let grossPct := ((rate - 1) * 100)%float in
  let netPct := (grossPct - totalFee)%float in
  let maxX := min3 (cwCaps e) in
  let vol := cwVol e in
  let profit := ((netPct / 100) * vol)%float in
  let bn := bottleneck3 maxX (cwCaps e) in
  {| Opportunity.type := triangle;
     Opportunity.assets := [asset];
     Opportunity.base := baseCurrency;
     Opportunity.direction := cw;
     Opportunity.legs :=
       [ Leg.mk (MarketPair.symbol xIrt) buy (MarketPair.bestAsk xIrt)
           (MarketPair.bestAskQty xIrt) asset;
         Leg.mk (MarketPair.symbol xBase) sell (MarketPair.bestBid xBase)
           (MarketPair.bestBidQty xBase) asset;
         Leg.mk (MarketPair.symbol bridge) sell (MarketPair.bestBid bridge)
           (MarketPair.bestBidQty bridge) baseCurrency ];
     Opportunity.rate := rate;
     Opportunity.grossPct := grossPct;
     Opportunity.feePct := totalFee;
     Opportunity.netPct := netPct;
     Opportunity.maxVolumeIRT := vol;
     Opportunity.expectedProfitIRT := profit;
     Opportunity.bottleneckLeg := bn |}.

(** CCW: IRT -> BASE -> X -> IRT. *)
Definition ccwCaps (e : AssetEntry.t) : float * float * float :=
  let xIrt := AssetEntry.irt e in
  let xBase := AssetEntry.base e in
  let l1 := if JS.gt (MarketPair.bestAsk xBase) 0
            then (MarketPair.bestAskQty bridge / MarketPair.bestAsk xBase)%float
            else 0%float in
  let l2 := MarketPair.bestAskQty xBase in
  let l3 := MarketPair.bestBidQty xIrt in
  (l1, l2, l3).

Definition ccwRate (e : AssetEntry.t) : float :=
  (MarketPair.bestBid (AssetEntry.irt e)
   / (MarketPair.bestAsk (AssetEntry.base e) * MarketPair.bestAsk bridge))%float.

Definition ccwVol (e : AssetEntry.t) : float :=
  (min3 (ccwCaps e) * MarketPair.bestAsk (AssetEntry.base e)
   * MarketPair.bestAsk bridge)%float.

Definition ccwOpportunity (e : AssetEntry.t) : Opportunity.t :=
  let asset := AssetEntry.asset e in
  let xIrt := AssetEntry.irt e in
  let xBase := AssetEntry.base e in
  let rate := ccwRate e in
  let grossPct := ((rate - 1) * 100)%float in
  let netPct := (grossPct - totalFee)%float in
  let maxX := min3 (ccwCaps e) in
  let vol := ccwVol e in
  let profit := ((netPct / 100) * vol)%float in
  let bn := bottleneck3 maxX (ccwCaps e) in
  {| Opportunity.type := triangle;
     Opportunity.assets := [asset];
     Opportunity.base := baseCurrency;
     Opportunity.direction := ccw;
     Opportunity.legs :=
       [ Leg.mk (MarketPair.symbol bridge) buy (MarketPair.bestAsk bridge)
           (MarketPair.bestAskQty bridge) baseCurrency;
         Leg.mk (MarketPair.symbol xBase) buy (MarketPair.bestAsk xBase)
           (MarketPair.bestAskQty xBase) asset;
         Leg.mk (MarketPair.symbol xIrt) sell (MarketPair.bestBid xIrt)
           (MarketPair.bestBidQty xIrt) asset ];
     Opportunity.rate := rate;
     Opportunity.grossPct := grossPct;
     Opportunity.feePct := totalFee;
     Opportunity.netPct := netPct;
     Opportunity.maxVolumeIRT := vol;
     Opportunity.expectedProfitIRT := profit;
     Opportunity.bottleneckLeg := bn |}.

(** The body of the loop over the entries: the CW block, then the CCW block,
    each pushing when [isFinite(rate) && vol > 0]. *)
Definition triangleStep (results : list Opportunity.t) (e : AssetEntry.t)
  : list Opportunity.t :=
  let results :=
    if JS.isFinite (cwRate e) && JS.gt (cwVol e) 0
    then results ++ [cwOpportunity e] else results in
  if JS.isFinite (ccwRate e) && JS.gt (ccwVol e) 0
  then results ++ [ccwOpportunity e] else results.

End Triangles.

Definition findTriangles (pairs : list MarketPair.t) (baseCurrency : string)
  (feeRatePct : float) : list Opportunity.t :=
  let idx := indexPairs pairs in
  match idx !! indexKey baseCurrency "IRT" with
  | None => []
  | Some bridge =>
      let entries := buildAssetEntries pairs baseCurrency in
      let totalFee := (3 * feeRatePct)%float in
      fold_left (triangleStep bridge baseCurrency totalFee) entries []
  end.

(** ** Strategy 2: cross-pair (4 legs)

    IRT -> buy X -> sell X for BASE -> buy Y with BASE -> sell Y for IRT. *)

Module WithRatios.
(** [{ ...e, sellRatio, buyRatio }] *)
Record t := mk {
  entry : AssetEntry.t;
  sellRatio : float;
  buyRatio : float
}.
Definition asset (w : t) : string := AssetEntry.asset (entry w).
Definition irt (w : t) : MarketPair.t := AssetEntry.irt (entry w).
Definition base (w : t) : MarketPair.t := AssetEntry.base (entry w).
End WithRatios.

Definition withRatio (e : AssetEntry.t) : WithRatios.t :=
  {| WithRatios.entry := e;
     WithRatios.sellRatio :=
       (MarketPair.bestBid (AssetEntry.base e) / MarketPair.bestAsk (AssetEntry.irt e))%float;
     WithRatios.buyRatio :=
       (MarketPair.bestBid (AssetEntry.irt e) / MarketPair.bestAsk (AssetEntry.base e))%float |}.

Section CrossPairs.

Variables (baseCurrency : string) (totalFee : float).

Definition crossRate (seller buyer : WithRatios.t) : float :=
  (WithRatios.sellRatio seller * WithRatios.buyRatio buyer)%float.

Definition crossNetPct (seller buyer : WithRatios.t) : float :=
  ((crossRate seller buyer - 1) * 100 - totalFee)%float.

(** The four capacities [l1] .. [l4], in units of the seller's asset. *)
Definition crossCaps (seller buyer : WithRatios.t) : float * float * float * float :=
  let l1 := MarketPair.bestAskQty (WithRatios.irt seller) in
  let l2 := MarketPair.bestBidQty (WithRatios.base seller) in
  let l3 := if JS.gt (MarketPair.bestBid (WithRatios.base seller)) 0
            then (MarketPair.bestAskQty (WithRatios.base buyer)
                  * MarketPair.bestAsk (WithRatios.base buyer)
                  / MarketPair.bestBid (WithRatios.base seller))%float
            else 0%float in
  let l4 := if JS.gt (MarketPair.bestBid (WithRatios.base seller)) 0
            then (MarketPair.bestBidQty (WithRatios.irt buyer)
                  * MarketPair.bestAsk (WithRatios.base buyer)
                  / MarketPair.bestBid (WithRatios.base seller))%float
            else 0%float in
  (l1, l2, l3, l4).

(** [Math.min(l1, l2, l3, l4)] *)
Definition min4 (caps : float * float * float * float) : float :=
  let '(l1, l2, l3, l4) := caps in JS.Math_min [l1; l2; l3; l4].

Definition crossVol (seller buyer : WithRatios.t) : float :=
  (min4 (crossCaps seller buyer) * MarketPair.bestAsk (WithRatios.irt seller))%float.

(** [maxX === l1 ? 0 : maxX === l2 ? 1 : maxX === l3 ? 2 : 3] *)
Definition bottleneck4 (maxX : float) (caps : float * float * float * float) : nat :=
  let '(l1, l2, l3, _) := caps in
  if (maxX =? l1)%float then 0
  else if (maxX =? l2)%float then 1
  else if (maxX =? l3)%float then 2
  else 3.

Definition crossOpportunity (seller buyer : WithRatios.t) : Opportunity.t :=
  let rate := crossRate seller buyer in
  let grossPct := ((rate - 1) * 100)%float in
  let netPct := (grossPct - totalFee)%float in
  let maxX := min4 (crossCaps seller buyer) in
  let vol := crossVol seller buyer in
  let profit := ((netPct / 100) * vol)%float in
  let bn := bottleneck4 maxX (crossCaps seller buyer) in
  let sIrt := WithRatios.irt seller in
  let sBase := WithRatios.base seller in
  let bIrt := WithRatios.irt buyer in
  let bBase := WithRatios.base buyer in
  {| Opportunity.type := cross;
     Opportunity.assets := [WithRatios.asset seller; WithRatios.asset buyer];
     Opportunity.base := baseCurrency;
     Opportunity.direction := cross_direction;
     Opportunity.legs :=
       [ Leg.mk (MarketPair.symbol sIrt) buy (MarketPair.bestAsk sIrt)
           (MarketPair.bestAskQty sIrt) (WithRatios.asset seller);
         Leg.mk (MarketPair.symbol sBase) sell (MarketPair.bestBid sBase)
           (MarketPair.bestBidQty sBase) (WithRatios.asset seller);
         Leg.mk (MarketPair.symbol bBase) buy (MarketPair.bestAsk bBase)
           (MarketPair.bestAskQty bBase) (WithRatios.asset buyer);
         Leg.mk (MarketPair.symbol bIrt) sell (MarketPair.bestBid bIrt)
           (MarketPair.bestBidQty bIrt) (WithRatios.asset buyer) ];
     Opportunity.rate := rate;
     Opportunity.grossPct := grossPct;
     Opportunity.feePct := totalFee;
     Opportunity.netPct := netPct;
     Opportunity.maxVolumeIRT := vol;
     Opportunity.expectedProfitIRT := profit;
     Opportunity.bottleneckLeg := bn |}.

(** The body of the inner loop; each [continue] leaves [results] as it is. *)
Definition crossStep (seller : WithRatios.t) (results : list Opportunity.t)
  (buyer : WithRatios.t) : list Opportunity.t :=
  if String.eqb (WithRatios.asset seller) (WithRatios.asset buyer) then results
  else if (crossNetPct seller buyer <? -5)%float then results
  else if negb (JS.isFinite (crossRate seller buyer))
          || (crossVol seller buyer <=? 0)%float then results
  else results ++ [crossOpportunity seller buyer].

End CrossPairs.

(** [(a, b) => b.netPct - a.netPct] *)
Definition byNetPctDesc (a b : Opportunity.t) : float :=
  (Opportunity.netPct b - Opportunity.netPct a)%float.

Definition findCrossPairs (pairs : list MarketPair.t) (baseCurrency : string)
  (feeRatePct : float) (maxResults : nat) : list Opportunity.t :=
  let entries := buildAssetEntries pairs baseCurrency in
  let totalFee := (4 * feeRatePct)%float in
  let withRatios := map withRatio entries in
  let K := Nat.min (length withRatios) 60 in
  let bySell :=
    JS.slice0 K (JS.Array_sort
      (fun a b => (WithRatios.sellRatio b - WithRatios.sellRatio a)%float) withRatios) in
  let byBuy :=
    JS.slice0 K (JS.Array_sort
      (fun a b => (WithRatios.buyRatio b - WithRatios.buyRatio a)%float) withRatios) in
  let results :=
    fold_left
      (fun results seller => fold_left (crossStep baseCurrency totalFee seller) byBuy results)
      bySell [] in
  JS.slice0 maxResults (JS.Array_sort byNetPctDesc results).

(** The default value of the parameter [maxResults]. *)
Definition defaultMaxResults : nat := 200.

(** ** Combined finder *)

Definition findAllOpportunities (pairs : list MarketPair.t) (baseCurrency : string)
  (feeRatePct : float) : list Opportunity.t :=
  let triangles := findTriangles pairs baseCurrency feeRatePct in
  let crosses := findCrossPairs pairs baseCurrency feeRatePct defaultMaxResults in
  let all := triangles ++ crosses in
  JS.Array_sort byNetPctDesc all.

(** ** Notions used in the statements *)

(** A rounded result carries the sign [s] (and is a number). *)
Definition signed (s : bool) (r : spec_float) : Prop :=
  match r with
  | S754_zero s' | S754_infinity s' | S754_finite s' _ _ => s' = s
  | S754_nan => False
  end.

(** The invariant of a [MarketPair]: positive finite best prices,
    non-negative finite quantities. *)
Definition validPair (p : MarketPair.t) : Prop :=
  JS.gt (MarketPair.bestBid p) 0 = true /\ JS.isFinite (MarketPair.bestBid p) = true /\
  JS.gt (MarketPair.bestAsk p) 0 = true /\ JS.isFinite (MarketPair.bestAsk p) = true /\
  (0 <=? MarketPair.bestBidQty p)%float = true /\
  JS.isFinite (MarketPair.bestBidQty p) = true /\
  (0 <=? MarketPair.bestAskQty p)%float = true /\
  JS.isFinite (MarketPair.bestAskQty p) = true.

(** The available quantity of every leg of an opportunity, converted into the
    common unit of its cycle, read off the legs the way the finders compute
    [l1], [l2], ... from the pairs behind them. *)
Definition legCapacities (o : Opportunity.t) : list float :=
  match Opportunity.direction o, Opportunity.legs o with
  | cw, [leg1; leg2; leg3] =>
      [ Leg.availableQty leg1;
        Leg.availableQty leg2;
        if JS.gt (Leg.price leg2) 0
        then (Leg.availableQty leg3 / Leg.price leg2)%float else 0%float ]
  | ccw, [leg1; leg2; leg3] =>
      [ if JS.gt (Leg.price leg2) 0
        then (Leg.availableQty leg1 / Leg.price leg2)%float else 0%float;
        Leg.availableQty leg2;
        Leg.availableQty leg3 ]
  | cross_direction, [leg1; leg2; leg3; leg4] =>
      [ Leg.availableQty leg1;
        Leg.availableQty leg2;
        if JS.gt (Leg.price leg2) 0
        then (Leg.availableQty leg3 * Leg.price leg3 / Leg.price leg2)%float else 0%float;
        if JS.gt (Leg.price leg2) 0
        then (Leg.availableQty leg4 * Leg.price leg3 / Leg.price leg2)%float else 0%float ]
  | _, _ => []
  end.

(** The notional in local currency of [maxX] units of the common unit,
    through the price of the entry leg (and of the leg after it when the
    cycle enters through the bridge). *)
Definition notional (o : Opportunity.t) (maxX : float) : float :=
  match Opportunity.direction o, Opportunity.legs o with
  | cw, leg1 :: _ => (maxX * Leg.price leg1)%float
  | ccw, leg1 :: leg2 :: _ => (maxX * Leg.price leg2 * Leg.price leg1)%float
  | cross_direction, leg1 :: _ => (maxX * Leg.price leg1)%float
  | _, _ => nan
  end.

(** [i] is the first position of [caps] that holds its minimum [m]: the
    capacity there equals [m], no capacity is below it, and every earlier one
    is strictly above it. *)
Definition firstArgmin (caps : list float) (m : float) (i : nat) : Prop :=
  exists c,
    caps !! i = Some c /\ (m =? c)%float = true /\
    (forall x, x ∈ caps -> (c <=? x)%float = true) /\
    (forall j x, j < i -> caps !! j = Some x -> (c <? x)%float = true).

(** An asset is bridgeable when the pairs hold it quoted in the local currency
    and quoted in the bridge currency. *)
Definition bridgeable (pairs : list MarketPair.t) (baseCurrency asset : string) : Prop :=
  (exists p, p ∈ pairs /\ MarketPair.asset p = asset /\ MarketPair.quote p = "IRT")
  /\ (exists p, p ∈ pairs /\ MarketPair.asset p = asset /\ MarketPair.quote p = baseCurrency).

(** The loop bodies, as the list each iteration contributes. *)

Definition assetEntryOf (idx : gmap string MarketPair.t) (baseCurrency : string)
  (p : MarketPair.t) : option AssetEntry.t :=
  if negb (String.eqb (MarketPair.quote p) "IRT")
     || String.eqb (MarketPair.asset p) baseCurrency
  then None
  else match idx !! indexKey (MarketPair.asset p) baseCurrency with
       | None => None
       | Some bp => Some {| AssetEntry.asset := MarketPair.asset p;
                            AssetEntry.irt := p;
                            AssetEntry.base := bp |}
       end.

Definition triangleEmit (bridge : MarketPair.t) (baseCurrency : string)
  (totalFee : float) (e : AssetEntry.t) : list Opportunity.t :=
  (if JS.isFinite (cwRate bridge e) && JS.gt (cwVol bridge e) 0
   then [cwOpportunity bridge baseCurrency totalFee e] else [])
  ++ (if JS.isFinite (ccwRate bridge e) && JS.gt (ccwVol bridge e) 0
      then [ccwOpportunity bridge baseCurrency totalFee e] else []).

Definition crossEmit (baseCurrency : string) (totalFee : float)
  (seller buyer : WithRatios.t) : list Opportunity.t :=
  if String.eqb (WithRatios.asset seller) (WithRatios.asset buyer) then []
  else if (crossNetPct totalFee seller buyer <? -5)%float then []
  else if negb (JS.isFinite (crossRate seller buyer))
          || (crossVol seller buyer <=? 0)%float then []
  else [crossOpportunity baseCurrency totalFee seller buyer].

(** The sellers and the buyers the cross-pair search ranges over. *)
Definition bySell (entries : list AssetEntry.t) : list WithRatios.t :=
  let withRatios := map withRatio entries in
  JS.slice0 (Nat.min (length withRatios) 60)
    (JS.Array_sort
       (fun a b => (WithRatios.sellRatio b - WithRatios.sellRatio a)%float) withRatios).

Definition byBuy (entries : list AssetEntry.t) : list WithRatios.t :=
  let withRatios := map withRatio entries in
  JS.slice0 (Nat.min (length withRatios) 60)
    (JS.Array_sort
       (fun a b => (WithRatios.buyRatio b - WithRatios.buyRatio a)%float) withRatios).

(** [a] may stand before [b] in a list sorted with the comparator [cmp]. *)
Definition inOrder {A} (cmp : A -> A -> float) (a b : A) : Prop :=
  JS.gt (cmp a b) 0 = false.

(** [a] may stand before [b] in a list that descends by [netPct]: the value
    of [a] is not below that of [b]. *)
Definition netPctDescending (a b : Opportunity.t) : Prop :=
  (Opportunity.netPct a <? Opportunity.netPct b)%float = false.

(** The value of [a] is at least that of [b]. *)
Definition netPctAtLeast (a b : Opportunity.t) : Prop :=
  (Opportunity.netPct b <=? Opportunity.netPct a)%float = true.

(** The character [:] that separates asset and quote in an index key. *)
Definition colon : Ascii.ascii :=
  Eval cbv in match ":"%string with String c _ => c | EmptyString => Ascii.zero end.

(** A ticker without that separator. *)
Fixpoint colonFree (s : string) : bool :=
  match s with
  | EmptyString => true
  | String c s' => negb (Ascii.eqb c colon) && colonFree s'
  end.

(** ** Concrete snapshots *)

(** The end-to-end example: X/IRT, X/USDT and the bridge pair USDT/IRT with
    the given quantities on its two sides. *)
Definition examplePairs (bridgeBidQty bridgeAskQty : float) : list MarketPair.t :=
  [ MarketPair.mk "XIRT" "X" "IRT" 990 10 1000 10;
    MarketPair.mk "XUSDT" "X" "USDT" 1.05 10 1.06 10;
    MarketPair.mk "USDTIRT" "USDT" "IRT" 990 bridgeBidQty 1000 bridgeAskQty ].

(** Two assets quoted in IRT and in USDT, and no USDT/IRT pair. *)
Definition pairsWithoutBridge : list MarketPair.t :=
  [ MarketPair.mk "XIRT" "X" "IRT" 990 10 1000 10;
    MarketPair.mk "XUSDT" "X" "USDT" 1.05 10 1.06 10;
    MarketPair.mk "YIRT" "Y" "IRT" 2000 10 2010 10;
    MarketPair.mk "YUSDT" "Y" "USDT" 2 10 2.01 10 ].

(** [Number] on the decimal strings of the examples; any other string is not
    needed and maps to NaN. *)
Definition exampleNumber (s : string) : float :=
  if String.eqb s "990" then 990
  else if String.eqb s "1000" then 1000
  else if String.eqb s "10" then 10
  else if String.eqb s "1.05" then 1.05
  else if String.eqb s "1.06" then 1.06
  else nan.

(** An order book with one bid and one ask, each a row [[price, quantity]]. *)
Definition book (bid bidQty ask askQty : string) : JSValue :=
  JSObject {| bids := Some [[bid; bidQty]]; asks := Some [[ask; askQty]] |}.

(** A snapshot whose symbols contain the separator [:] of the index keys:
    the assets X and Z quoted in IRT, the assets [X:Y] and [Z:Y] quoted in
    USDT, and the asset [Y:USDT] quoted in IRT. *)
Definition colonSnapshot : list (string * JSValue) :=
  [ ("XIRT", book "990" "10" "1000" "10");
    ("X:YUSDT", book "1.05" "10" "1.06" "10");
    ("ZIRT", book "990" "10" "1000" "10");
    ("Z:YUSDT", book "1.05" "10" "1.06" "10");
    ("Y:USDTIRT", book "990" "1000" "1000" "1000") ].

(** The suffix rule as the specification words it, the bridge ticker being a
    parameter: IRT if the symbol ends in IRT, the bridge if it ends in the
    bridge ticker, otherwise nothing. *)
Definition suffixRule (bridge symbol : string) : option (string * string) :=
  if JS.endsWith symbol "IRT"
  then Some (JS.dropEnd 3 symbol, "IRT")
  else if JS.endsWith symbol bridge
  then Some (JS.dropEnd (String.length bridge) symbol, bridge)
  else None.

(** ** Further ECMAScript primitives *)

Module ES.

(** A [Set<string>] iterates in insertion order: [add] appends a value that
    is not yet a member, [delete] removes it. *)
Definition Set_add (x : string) (s : list string) : list string :=
  if bool_decide (x ∈ s) then s else s ++ [x].

Definition Set_delete (x : string) (s : list string) : list string :=
  filter (fun y => y <> x) s.

(** [map.has(k)] *)
Definition Map_has {V} (k : string) (m : gmap string V) : bool :=
  bool_decide (is_Some (m !! k)).

(** The comparison [Array.prototype.sort] applies when it is called without
    a comparator: -1 when [x] is the smaller string, 1 when [y] is, else +0.
    Strings are compared code unit by code unit; a character of [string]
    stands for one code unit. *)
Definition SortCompare (x y : string) : float :=
  match String.compare x y with
  | Lt => (-1)%float
  | Gt => 1%float
  | Eq => 0%float
  end.

(** [arr.indexOf(x)]: the first position that holds [x]; [None] is -1. *)
Fixpoint indexOf (x : string) (l : list string) : option nat :=
  match l with
  | [] => None
  | y :: l' => if String.eqb y x then Some 0 else S <$> indexOf x l'
  end.

(** [arr.splice(start, count)] for a position [start] inside the array: the
    array that is left. *)
Definition splice {A} (start count : nat) (l : list A) : list A :=
  take start l ++ drop (start + count) l.

(** [s.split(sep)] for a separator of one character: the first piece and
    the pieces after it. *)
Fixpoint split (sep : Ascii.ascii) (s : string) : string * list string :=
  match s with
  | EmptyString => (EmptyString, [])
  | String c s' =>
      let '(piece, pieces) := split sep s' in
      if Ascii.eqb c sep then (EmptyString, piece :: pieces)
      else (String c piece, pieces)
  end.

(** A [Map] that is iterated: its entries in insertion order; [set] on a
    key that is present replaces the value where the key stands. *)
Fixpoint OrderedMap_get {V} (k : string) (m : list (string * V)) : option V :=
  match m with
  | [] => None
  | (k', v) :: m' => if String.eqb k' k then Some v else OrderedMap_get k m'
  end.

Fixpoint OrderedMap_set {V} (k : string) (v : V) (m : list (string * V))
  : list (string * V) :=
  match m with
  | [] => [(k, v)]
  | (k', v') :: m' =>
      if String.eqb k' k then (k', v) :: m' else (k', v') :: OrderedMap_set k v m'
  end.

(** [Math.max(...)], as ECMA-262 words it: start from -Infinity, return NaN
    as soon as an argument is NaN, prefer +0 over -0, otherwise keep the
    larger value. *)
Fixpoint max_from (highest : float) (l : list float) : float :=
  match l with
  | [] => highest
  | n :: l' =>
      if is_nan n then nan
      else if Leibniz.eqb n zero && Leibniz.eqb highest neg_zero
           then max_from n l'
      else if (highest <? n)%float then max_from n l'
      else max_from highest l'
  end.

Definition Math_max (l : list float) : float := max_from neg_infinity l.

(** The number of an array length; a length is below 2^32, so the
    conversion is exact. *)
Definition Number_of_length (n : nat) : float :=
  PrimFloat.of_uint63 (Uint63.of_Z (Z.of_nat n)).

End ES.

(** ** Base currency detection *)

(** The inner loop of [getAvailableBases]: [ok] becomes true, and the loop
    breaks, at the first pair quoted in IRT whose asset is not [q] and is
    also quoted in [q]. *)
Definition hasBridgedAsset (idx : gmap string MarketPair.t) (pairs : list MarketPair.t)
  (q : string) : bool :=
  existsb
    (fun p => String.eqb (MarketPair.quote p) "IRT"
              && negb (String.eqb (MarketPair.asset p) q)
              && ES.Map_has (indexKey (MarketPair.asset p) q) idx)
    pairs.

Definition getAvailableBases (pairs : list MarketPair.t) : list string :=
  let '(idx, quotes) :=
    fold_left
      (fun '(idx, quotes) p =>
         (<[indexKey (MarketPair.asset p) (MarketPair.quote p) := p]> idx,
          ES.Set_add (MarketPair.quote p) quotes))
      pairs (∅, []) in
  let quotes := ES.Set_delete "IRT" quotes in
  let bases :=
    fold_left
      (fun bases q =>
         if negb (ES.Map_has (indexKey q "IRT") idx) then bases
         else if hasBridgedAsset idx pairs q then bases ++ [q]
         else bases)
      quotes [] in
  JS.Array_sort ES.SortCompare bases.

(** ** The scanner

    [scan] fetches the snapshot, runs the detection below on it, and writes
    what it found to the timeline, to a snapshot file and to the console.
    The detection is the pure part, a function of the snapshot and of the
    configuration [BASE] and [FEE_PCT]. *)

#[global] Instance StrategyType_eq_dec : EqDecision StrategyType.
Proof. solve_decision. Defined.

Module Scanner.

Section scan.

Variable Number : string -> float.
Variables (BASE : string) (FEE_PCT : float) (rawData : list (string * JSValue)).

Definition pairs : list MarketPair.t := parseAllPairs Number rawData.

Definition allOpps : list Opportunity.t := findAllOpportunities pairs BASE FEE_PCT.

(** [allOpps.filter((o) => o.netPct > 0)] *)
Definition profitable : list Opportunity.t :=
  filter (fun o => JS.gt (Opportunity.netPct o) 0 = true) allOpps.

(** [allOpps.filter((o) => o.type === 'triangle')] *)
Definition triangles : list Opportunity.t :=
  filter (fun o => Opportunity.type o = triangle) allOpps.

(** [allOpps.filter((o) => o.type === 'cross')] *)
Definition crosses : list Opportunity.t :=
  filter (fun o => Opportunity.type o = cross) allOpps.

(** [allOpps[0] ?? null] *)
Definition best : option Opportunity.t := head allOpps.

(** The [opportunities] of the snapshot file:
    [[...profitable, ...allOpps.filter((o) => o.netPct <= 0).slice(0, 50)]] *)
Definition opportunities : list Opportunity.t :=
  profitable
  ++ JS.slice0 50 (filter (fun o => (Opportunity.netPct o <=? 0)%float = true) allOpps).

End scan.

End Scanner.

(** ** Command line options

    Both scripts keep the arguments in a module-level array [args] that
    [opt] and [flag] search and shorten; the array is threaded through here,
    each function returning its result and the array it leaves. *)

Module CLI.

(** [opt(name, fallback)] *)
Definition opt (name fallback : string) (args : list string) : string * list string :=
  match ES.indexOf ("--" +:+ name) args with
  | None => (fallback, args)
  | Some i =>
      if (length args <=? i + 1)%nat then (fallback, args)
      else match args !! (i + 1) with
           | Some val => (val, ES.splice i 2 args)
           | None => (fallback, args) (* not reached: [i + 1 < args.length] *)
           end
  end.

(** [flag(name)] *)
Definition flag (name : string) (args : list string) : bool * list string :=
  match ES.indexOf ("--" +:+ name) args with
  | None => (false, args)
  | Some i => (true, ES.splice i 1 args)
  end.

End CLI.

(** ** The analyzer: the timeline and its buckets *)

Module CompactOpp.
Inductive kind := tri | cross.
Record t := mk {
  type : kind;
  dir : string;
  assets : list string;
  net : float;
  gross : float;
  vol : float;
  profit : float
}.
End CompactOpp.

Module TimelineEntry.
Record t := mk {
  ts : string;
  tehranTime : string;
  base : string;
  feePct : float;
  pairCount : float;
  totalOpps : float;
  triangleCount : float;
  crossCount : float;
  profitableCount : float;
  bestNet : option float;
  bestAsset : option string;
  bestType : option string;
  avgNet : float;
  totalEstProfit : float;
  top : list CompactOpp.t
}.
End TimelineEntry.

Module BucketStats.
Record t := mk {
  scans : nat;
  avgBestNet : float;
  maxBestNet : float;
  avgProfitableCount : float;
  maxProfitableCount : float;
  avgTotalEstProfit : float;
  totalEstProfit : float;
  topAssets : list (string * float)
}.
End BucketStats.

(** The characters the analyzer splits [tehranTime] at. *)
Definition space : Ascii.ascii :=
  Eval cbv in match " "%string with String c _ => c | EmptyString => Ascii.zero end.

Module Analyze.

Section analyze.

Variable Number : string -> float.

(** [MIN_NET], read from the command line when the script starts. *)
Variable MIN_NET : float.

(** [Number(entry.tehranTime.split(' ')[1].split(':')[0])]; [None] is the
    [TypeError] raised when there is no second piece to split. *)
Definition tehranHour (entry : TimelineEntry.t) : option float :=
  match (ES.split space (TimelineEntry.tehranTime entry)).2 with
  | [] => None
  | time :: _ => Some (Number (ES.split colon time).1)
  end.

(** [entry.tehranTime.split(' ')[0]] *)
Definition tehranDate (entry : TimelineEntry.t) : string :=
  (ES.split space (TimelineEntry.tehranTime entry)).1.

(** [arr.reduce((s, v) => s + v, 0)] *)
Definition sum (l : list float) : float := fold_left (fun s v => (s + v)%float) l 0%float.

(** The first loop of [bucketize]: the entries under their keys. *)
Definition buckets (entries : list TimelineEntry.t) (keyFn : TimelineEntry.t -> string)
  : list (string * list TimelineEntry.t) :=
  fold_left
    (fun buckets e =>
       let k := keyFn e in
       let arr := default [] (ES.OrderedMap_get k buckets) in
       ES.OrderedMap_set k (arr ++ [e]) buckets)
    entries [].

(** The count of every asset named by the opportunities of [items] whose
    [net] is at least [MIN_NET]. *)
Definition assetCount (items : list TimelineEntry.t) : list (string * float) :=
  fold_left
    (fun assetCount e =>
       let qualified :=
         filter (fun o => (MIN_NET <=? CompactOpp.net o)%float = true)
           (TimelineEntry.top e) in
       fold_left
         (fun assetCount o =>
            fold_left
              (fun assetCount a =>
                 ES.OrderedMap_set a
                   (default 0%float (ES.OrderedMap_get a assetCount) + 1)%float
                   assetCount)
              (CompactOpp.assets o) assetCount)
         qualified assetCount)
    items [].

(** The body of the second loop of [bucketize]: the statistics of the
    entries of one bucket. *)
Definition bucketStats (items : list TimelineEntry.t) : BucketStats.t :=
  let bestNets := map (fun e => default 0%float (TimelineEntry.bestNet e)) items in
  let profCounts := map TimelineEntry.profitableCount items in
  let profSums := map TimelineEntry.totalEstProfit items in
  let topAssets :=
    JS.slice0 5 (JS.Array_sort (fun a b => (b.2 - a.2)%float) (assetCount items)) in
  {| BucketStats.scans := length items;
     BucketStats.avgBestNet := (sum bestNets / ES.Number_of_length (length items))%float;
     BucketStats.maxBestNet := ES.Math_max bestNets;
     BucketStats.avgProfitableCount :=
       (sum profCounts / ES.Number_of_length (length items))%float;
     BucketStats.maxProfitableCount := ES.Math_max profCounts;
     BucketStats.avgTotalEstProfit :=
       (sum profSums / ES.Number_of_length (length items))%float;
     BucketStats.totalEstProfit := sum profSums;
     BucketStats.topAssets := topAssets |}.

Definition bucketize (entries : list TimelineEntry.t) (keyFn : TimelineEntry.t -> string)
  : list (string * BucketStats.t) :=
  fold_left
    (fun result '(key, items) => ES.OrderedMap_set key (bucketStats items) result)
    (buckets entries keyFn) [].

End analyze.

End Analyze.

(** ** Notions used in the further statements *)

(** A string without the character [c]. *)
Fixpoint lacks (c : Ascii.ascii) (s : string) : bool :=
  match s with
  | EmptyString => true
  | String c' s' => negb (Ascii.eqb c' c) && lacks c s'
  end.

(** The distinct values of a list, in order of first appearance. *)
Definition firstAppearances (l : list string) : list string :=
  fold_left (fun seen x => ES.Set_add x seen) l [].

(** [a] stands before [b] in the order of [sort()] on strings. *)
Definition stringLt (a b : string) : Prop := String.compare a b = Lt.

(** What an opportunity holds besides the fields computed from the fee
    ([feePct], [netPct] and [expectedProfitIRT]). *)
Definition feeFree (o : Opportunity.t)
  : StrategyType * list string * string * Direction * list Leg.t
    * float * float * float * nat :=
  (Opportunity.type o, Opportunity.assets o, Opportunity.base o,
   Opportunity.direction o, Opportunity.legs o, Opportunity.rate o,
   Opportunity.grossPct o, Opportunity.maxVolumeIRT o, Opportunity.bottleneckLeg o).

(** The leg [l] trades the pair [p] at the side of the book it takes: a buy
    at the best ask for the quantity on offer there, a sell at the best bid. *)
Definition legQuotes (p : MarketPair.t) (l : Leg.t) : Prop :=
  Leg.pair l = MarketPair.symbol p /\
  match Leg.side l with
  | buy => Leg.price l = MarketPair.bestAsk p
           /\ Leg.availableQty l = MarketPair.bestAskQty p
  | sell => Leg.price l = MarketPair.bestBid p
            /\ Leg.availableQty l = MarketPair.bestBidQty p
  end.

(** The shape of an opportunity for the bridge [baseCurrency]: a triangle
    names one asset other than the bridge and has three legs, a cross-pair
    names two different assets other than the bridge and has four; every
    cycle starts with a buy and ends with a sell. *)
Definition wellShaped (baseCurrency : string) (o : Opportunity.t) : Prop :=
  Opportunity.base o = baseCurrency /\
  match Opportunity.type o with
  | triangle =>
      exists x, Opportunity.assets o = [x] /\ x <> baseCurrency /\
        ((Opportunity.direction o = cw
          /\ Leg.side <$> Opportunity.legs o = [buy; sell; sell]
          /\ Leg.qtyUnit <$> Opportunity.legs o = [x; x; baseCurrency])
         \/ (Opportunity.direction o = ccw
             /\ Leg.side <$> Opportunity.legs o = [buy; buy; sell]
             /\ Leg.qtyUnit <$> Opportunity.legs o = [baseCurrency; x; x]))
  | cross =>
      exists x y, Opportunity.assets o = [x; y] /\ x <> y /\
        x <> baseCurrency /\ y <> baseCurrency /\
        Opportunity.direction o = cross_direction /\
        Leg.side <$> Opportunity.legs o = [buy; sell; buy; sell] /\
        Leg.qtyUnit <$> Opportunity.legs o = [x; x; y; y]
  end.

(** * Facts about binary64 arithmetic

    Everything is derived from the specification [Prim2SF] of the primitive
    operations. *)

Module FloatFacts.

Local Open Scope float_scope.

Ltac sf_cases :=
  repeat match goal with
         | x : spec_float |- _ => destruct x as [[]|[]| |[] ? ?]
         end.

Lemma Pos_compare_cont_Eq (m n : positive) :
  Pos.compare_cont Eq m n = (m ?= n)%positive.
Proof. reflexivity. Qed.

Ltac cmp_cases :=
  repeat match goal with
         | H : context [Z.compare ?a ?b] |- _ =>
             destruct (Z.compare_spec a b); simpl in H; try discriminate
         | |- context [Z.compare ?a ?b] =>
             destruct (Z.compare_spec a b); simpl; try discriminate
         | H : context [Pos.compare_cont Eq ?a ?b] |- _ =>
             rewrite (Pos_compare_cont_Eq a b) in H;
             destruct (Pos.compare_spec a b); simpl in H; try discriminate
         | |- context [Pos.compare_cont Eq ?a ?b] =>
             rewrite (Pos_compare_cont_Eq a b);
             destruct (Pos.compare_spec a b); simpl; try discriminate
         end.

Ltac sf_order :=
  unfold SFleb, SFltb, SFeqb; sf_cases; simpl; try discriminate; try reflexivity;
  intros; cmp_cases; subst; try reflexivity; try discriminate; try lia.

(** *** The order of [SFcompare] *)

Lemma SFleb_trans x y z : SFleb x y = true -> SFleb y z = true -> SFleb x z = true.
Proof. sf_order. Qed.

Lemma SFleb_ltb_trans x y z : SFleb x y = true -> SFltb y z = true -> SFltb x z = true.
Proof. sf_order. Qed.

Lemma SFltb_leb x y : SFltb x y = true -> SFleb x y = true.
Proof. sf_order. Qed.

Lemma SFeqb_leb x y : SFeqb x y = true -> SFleb x y = true.
Proof. sf_order. Qed.

Lemma SFeqb_sym x y : SFeqb x y = true -> SFeqb y x = true.
Proof. sf_order. Qed.

Lemma SFltb_asym x y : SFltb x y = true -> SFltb y x = false.
Proof. sf_order. Qed.

Lemma SFleb_antisym x y : SFleb x y = true -> SFleb y x = true -> SFeqb x y = true.
Proof. sf_order. Qed.

Lemma SFleb_neq_ltb x y : SFleb x y = true -> SFeqb x y = false -> SFltb x y = true.
Proof. sf_order. Qed.

Lemma SFleb_total x y :
  x <> S754_nan -> y <> S754_nan -> SFltb x y = false -> SFleb y x = true.
Proof. sf_order; congruence. Qed.

Lemma SFeqb_refl x : x <> S754_nan -> SFeqb x x = true.
Proof. sf_order; congruence. Qed.

Lemma SFleb_nonnan x y : SFleb x y = true -> x <> S754_nan /\ y <> S754_nan.
Proof. unfold SFleb; sf_cases; simpl; try discriminate; intros _; split; discriminate. Qed.


(** *** Signs of rounded results *)

Section Rounding.

Variables prec emax : Z.

Lemma iter_pos_invariant {A} (P : A -> Prop) (f : A -> A) :
  (forall a, P a -> P (f a)) -> forall p a, P a -> P (SpecFloat.iter_pos f p a).
Proof.
  intros Hf p; induction p as [p IH | p IH |]; simpl; intros a Ha; auto.
Qed.

Lemma shr_1_nonneg mrs : (0 <= shr_m mrs)%Z -> (0 <= shr_m (shr_1 mrs))%Z.
Proof.
  destruct mrs as [m r s]; simpl.
  destruct m as [|[p|p|]|[p|p|]]; simpl; lia.
Qed.

Lemma shr_fexp_nonneg m e l :
  (0 <= m)%Z -> (0 <= shr_m (fst (shr_fexp prec emax m e l)))%Z.
Proof.
  intros Hm. unfold shr_fexp, shr.
  assert (H0 : (0 <= shr_m (shr_record_of_loc m l))%Z)
    by (destruct l as [|[]]; exact Hm).
  destruct (fexp prec emax (Zdigits2 m + e) - e)%Z; simpl; auto.
  apply iter_pos_invariant; auto using shr_1_nonneg.
Qed.

Lemma round_nearest_even_nonneg m l :
  (0 <= m)%Z -> (0 <= round_nearest_even m l)%Z.
Proof.
  intros Hm. destruct l as [|[]]; simpl; try lia.
  destruct (Z.even m); lia.
Qed.

Lemma binary_round_aux_signed s m e l :
  (0 <= m)%Z -> signed s (binary_round_aux prec emax s m e l).
Proof.
  intros Hm. unfold binary_round_aux.
  pose proof (shr_fexp_nonneg m e l Hm) as H1.
  destruct (shr_fexp prec emax m e l) as [mrs' e']; simpl in H1.
  pose proof (shr_fexp_nonneg _ e' loc_Exact
                (round_nearest_even_nonneg _ (loc_of_shr_record mrs') H1)) as H2.
  destruct (shr_fexp prec emax _ e' loc_Exact) as [mrs'' e'']; simpl in H2.
  destruct (shr_m mrs''); simpl; try reflexivity; try lia.
  destruct (e'' <=? emax - prec)%Z; reflexivity.
Qed.

Lemma binary_round_signed s m e : signed s (binary_round prec emax s m e).
Proof.
  unfold binary_round. destruct (shl_align _ _ _) as [mz ez].
  apply binary_round_aux_signed. lia.
Qed.

Lemma signed_true_not_pos r : signed true r -> SFltb (S754_zero false) r = false.
Proof.
  destruct r as [[]|[]| |[] ? ?]; cbn; intros H;
    first [reflexivity | discriminate | contradiction].
Qed.

Lemma signed_false_nonneg r : signed false r -> SFleb (S754_zero false) r = true.
Proof.
  destruct r as [[]|[]| |[] ? ?]; cbn; intros H;
    first [reflexivity | discriminate | contradiction].
Qed.

(** A normalised integer is positive only if the integer is. *)
Lemma binary_normalize_pos m e sz :
  SFltb (S754_zero false) (binary_normalize prec emax m e sz) = true -> (0 < m)%Z.
Proof.
  destruct m as [|p|p]; simpl; intros H; try lia.
  - destruct sz; discriminate.
  - rewrite signed_true_not_pos in H by apply binary_round_signed. discriminate.
Qed.

Lemma SFsub_finite sx mx ex sy my ey :
  SFsub prec emax (S754_finite sx mx ex) (S754_finite sy my ey)
  = binary_normalize prec emax
      (cond_Zopp sx (Zpos (fst (shl_align mx ex (Z.min ex ey))))
       - cond_Zopp sy (Zpos (fst (shl_align my ey (Z.min ex ey)))))%Z
      (Z.min ex ey) false.
Proof. reflexivity. Qed.

Lemma SFsub_pos_asym x y :
  SFltb (S754_zero false) (SFsub prec emax y x) = true ->
  SFltb (S754_zero false) (SFsub prec emax x y) = false.
Proof.
  destruct x as [sx|sx| |sx mx ex], y as [sy|sy| |sy my ey];
    try (rewrite !SFsub_finite; intros H; apply binary_normalize_pos in H;
         destruct (SFltb _ _) eqn:E; [apply binary_normalize_pos in E | reflexivity];
         rewrite (Z.min_comm ey ex) in H; lia);
    try (destruct sx); try (destruct sy); cbn; try discriminate; reflexivity.
Qed.

Lemma SFsub_eqb_not_pos x y :
  SFeqb x y = true -> SFltb (S754_zero false) (SFsub prec emax y x) = false.
Proof.
  unfold SFeqb.
  destruct x as [sx|sx| |sx mx ex], y as [sy|sy| |sy my ey];
    try (rewrite !SFsub_finite; intros H;
         destruct (SFltb _ _) eqn:E; [apply binary_normalize_pos in E | reflexivity];
         destruct sx, sy; simpl in H; try discriminate;
         cmp_cases; subst; rewrite ?Z.min_id in E; simpl in E; lia);
    try (destruct sx); try (destruct sy); cbn; try discriminate; reflexivity.
Qed.

Lemma SFdiv_nonneg x y :
  y <> S754_infinity false ->
  SFleb (S754_zero false) x = true ->
  SFltb (S754_zero false) y = true ->
  SFleb (S754_zero false) (SFdiv prec emax x y) = true.
Proof.
  destruct x as [sx|sx| |sx mx ex], y as [sy|sy| |sy my ey];
    try (destruct sx); try (destruct sy); cbn -[SFdiv_core_binary binary_round_aux];
    try discriminate; try reflexivity; try congruence.
  intros _ _ _.
  destruct (SFdiv_core_binary prec emax (Z.pos mx) ex (Z.pos my) ey) as [[mz ez] lz] eqn:E.
  apply signed_false_nonneg, binary_round_aux_signed.
  unfold SFdiv_core_binary in E.
  destruct (Z.div_eucl _ _) as [q r] eqn:Ed. inversion E; subst.
  match type of Ed with Z.div_eucl ?a ?b = _ =>
    assert (Ha : (0 <= a)%Z); [| pose proof (Z.div_pos a b Ha ltac:(lia)) as Hq;
      unfold Z.div in Hq; rewrite Ed in Hq; exact Hq] end.
  destruct (_ - _ - _)%Z; try lia. apply Z.shiftl_nonneg. lia.
Qed.

End Rounding.


(** *** The same facts on primitive floats *)

Lemma Prim2SF_zero : Prim2SF 0 = S754_zero false.
Proof. reflexivity. Qed.

Lemma Prim2SF_infinity : Prim2SF infinity = S754_infinity false.
Proof. reflexivity. Qed.

Lemma is_nan_spec x :
  is_nan x = match Prim2SF x with S754_nan => true | _ => false end.
Proof.
  unfold is_nan. rewrite FloatAxioms.eqb_spec.
  destruct (Prim2SF x) as [[]|[]| |[] m e] eqn:E; try reflexivity;
    rewrite SFeqb_refl; try reflexivity; discriminate.
Qed.

Lemma is_nan_false x : is_nan x = false <-> Prim2SF x <> S754_nan.
Proof. rewrite is_nan_spec. destruct (Prim2SF x); split; congruence. Qed.

Lemma is_finite_spec x :
  is_finite x = match Prim2SF x with
                | S754_zero _ | S754_finite _ _ _ => true
                | _ => false
                end.
Proof.
  unfold is_finite, is_infinity. rewrite is_nan_spec, FloatAxioms.eqb_spec, FloatAxioms.abs_spec, Prim2SF_infinity.
  destruct (Prim2SF x) as [[]|[]| |[] m e]; reflexivity.
Qed.

Lemma gt_zero_spec x : JS.gt x 0 = SFltb (S754_zero false) (Prim2SF x).
Proof. unfold JS.gt. now rewrite FloatAxioms.ltb_spec, Prim2SF_zero. Qed.

Lemma float_ltb_leb x y : (x <? y) = true -> (x <=? y) = true.
Proof. rewrite FloatAxioms.ltb_spec, FloatAxioms.leb_spec. apply SFltb_leb. Qed.

Lemma float_eqb_leb x y : (x =? y) = true -> (x <=? y) = true.
Proof. rewrite FloatAxioms.eqb_spec, FloatAxioms.leb_spec. apply SFeqb_leb. Qed.

Lemma float_eqb_sym x y : (x =? y) = true -> (y =? x) = true.
Proof. rewrite !FloatAxioms.eqb_spec. apply SFeqb_sym. Qed.

Lemma float_eqb_refl x : is_nan x = false -> (x =? x) = true.
Proof. rewrite is_nan_false, FloatAxioms.eqb_spec. apply SFeqb_refl. Qed.

Lemma float_ltb_asym x y : (x <? y) = true -> (y <? x) = false.
Proof. rewrite !FloatAxioms.ltb_spec. apply SFltb_asym. Qed.

Lemma float_leb_trans x y z : (x <=? y) = true -> (y <=? z) = true -> (x <=? z) = true.
Proof. rewrite !FloatAxioms.leb_spec. apply SFleb_trans. Qed.

Lemma float_leb_ltb_trans x y z : (x <=? y) = true -> (y <? z) = true -> (x <? z) = true.
Proof. rewrite !FloatAxioms.ltb_spec, FloatAxioms.leb_spec. apply SFleb_ltb_trans. Qed.

Lemma float_leb_antisym x y : (x <=? y) = true -> (y <=? x) = true -> (x =? y) = true.
Proof. rewrite !FloatAxioms.leb_spec, FloatAxioms.eqb_spec. apply SFleb_antisym. Qed.

Lemma float_leb_neq_ltb x y : (x <=? y) = true -> (x =? y) = false -> (x <? y) = true.
Proof. rewrite FloatAxioms.leb_spec, FloatAxioms.eqb_spec, FloatAxioms.ltb_spec. apply SFleb_neq_ltb. Qed.

Lemma float_leb_total x y :
  is_nan x = false -> is_nan y = false -> (x <? y) = false -> (y <=? x) = true.
Proof. rewrite !is_nan_false, FloatAxioms.ltb_spec, FloatAxioms.leb_spec. apply SFleb_total. Qed.

Lemma float_leb_not_nan x y : (x <=? y) = true -> is_nan x = false /\ is_nan y = false.
Proof. rewrite !is_nan_false, FloatAxioms.leb_spec. apply SFleb_nonnan. Qed.

Lemma float_infinity_leb x : (infinity <=? x) = true -> (infinity =? x) = true.
Proof.
  rewrite FloatAxioms.leb_spec, FloatAxioms.eqb_spec, Prim2SF_infinity. generalize (Prim2SF x); intros s; revert s; intros s; sf_order.
Qed.

(** [v > 0] makes [v] a number other than zero. *)
Lemma gt_zero_regular v : JS.gt v 0 = true -> is_nan v = false /\ (v =? 0) = false.
Proof.
  rewrite gt_zero_spec, is_nan_spec, FloatAxioms.eqb_spec, Prim2SF_zero.
  generalize (Prim2SF v); intros s H; split; revert H; sf_order.
Qed.

(** A product that is a number other than zero has such a left factor. *)
Lemma mul_regular_l x y :
  is_nan (x * y) = false -> (x * y =? 0) = false ->
  is_nan x = false /\ (x =? 0) = false.
Proof.
  rewrite !is_nan_spec, !FloatAxioms.eqb_spec, FloatAxioms.mul_spec, Prim2SF_zero. unfold SF64mul.
  destruct (Prim2SF x) as [[]|[]| |[] mx ex], (Prim2SF y) as [[]|[]| |[] my ey];
    cbn -[binary_round_aux]; intros; split; congruence.
Qed.

Lemma mul_zero_finite x y :
  (x =? 0) = true -> is_finite y = true -> (x * y =? 0) = true.
Proof.
  rewrite !FloatAxioms.eqb_spec, is_finite_spec, FloatAxioms.mul_spec, Prim2SF_zero. unfold SF64mul.
  destruct (Prim2SF x) as [[]|[]| |[] mx ex], (Prim2SF y) as [[]|[]| |[] my ey];
    cbn -[binary_round_aux]; congruence.
Qed.

Lemma eqb_zero_not_gt v : (v =? 0) = true -> JS.gt v 0 = false.
Proof. rewrite FloatAxioms.eqb_spec, gt_zero_spec, Prim2SF_zero. generalize (Prim2SF v); intros s; sf_order. Qed.

Lemma div_nonneg q b :
  (0 <=? q) = true -> JS.gt b 0 = true -> is_finite b = true -> (0 <=? q / b) = true.
Proof.
  rewrite is_finite_spec, !FloatAxioms.leb_spec, gt_zero_spec, FloatAxioms.div_spec, Prim2SF_zero.
  intros Hq Hb Hf. apply SFdiv_nonneg; auto. destruct (Prim2SF b); congruence.
Qed.

Lemma div_zero q b :
  (q =? 0) = true -> JS.gt b 0 = true -> is_finite b = true -> (q / b =? 0) = true.
Proof.
  rewrite is_finite_spec, !FloatAxioms.eqb_spec, gt_zero_spec, FloatAxioms.div_spec, Prim2SF_zero.
  unfold SF64div.
  destruct (Prim2SF q) as [[]|[]| |[] mx ex], (Prim2SF b) as [[]|[]| |[] my ey];
    cbn -[SFdiv_core_binary binary_round_aux]; congruence.
Qed.

Lemma mul_nonneg x y :
  (0 <=? x) = true -> is_finite x = true -> (0 <=? y) = true -> is_finite y = true ->
  (0 <=? x * y) = true.
Proof.
  rewrite !is_finite_spec, !FloatAxioms.leb_spec, FloatAxioms.mul_spec, Prim2SF_zero.
  unfold SF64mul.
  destruct (Prim2SF x) as [[]|[]| |[] mx ex], (Prim2SF y) as [[]|[]| |[] my ey];
    cbn -[binary_round_aux]; try congruence.
  intros _ _ _ _. apply signed_false_nonneg, binary_round_aux_signed. lia.
Qed.

Lemma sub_pos_asym x y : JS.gt (y - x) 0 = true -> JS.gt (x - y) 0 = false.
Proof. rewrite !gt_zero_spec, !FloatAxioms.sub_spec. apply SFsub_pos_asym. Qed.

Lemma leb_not_gt x y : (x <=? y) = true -> JS.gt x y = false.
Proof.
  unfold JS.gt. rewrite FloatAxioms.leb_spec, FloatAxioms.ltb_spec.
  generalize (Prim2SF x) (Prim2SF y); intros a b; sf_order.
Qed.

Lemma sub_eqb_not_pos x y : (x =? y) = true -> JS.gt (y - x) 0 = false.
Proof. rewrite gt_zero_spec, FloatAxioms.sub_spec, FloatAxioms.eqb_spec. apply SFsub_eqb_not_pos. Qed.


(** *** Subtraction follows the order *)

Section Subtraction.
Variables prec emax : Z.
Hypothesis prec_pos : (0 < prec)%Z.
Local Abbreviation emin := (SpecFloat.emin prec emax).
Local Abbreviation fexp := (SpecFloat.fexp prec emax).

Lemma digits2_pos_bounds p :
  (2 ^ (Zpos (digits2_pos p) - 1) <= Zpos p < 2 ^ Zpos (digits2_pos p))%Z.
Proof.
  induction p as [p IH|p IH|]; simpl digits2_pos; rewrite ?Pos2Z.inj_succ.
  - replace (Z.succ (Z.pos (digits2_pos p)) - 1)%Z with (Z.succ (Z.pos (digits2_pos p) - 1))%Z by lia.
    rewrite !Z.pow_succ_r by lia. lia.
  - replace (Z.succ (Z.pos (digits2_pos p)) - 1)%Z with (Z.succ (Z.pos (digits2_pos p) - 1))%Z by lia.
    rewrite !Z.pow_succ_r by lia. lia.
  - simpl. lia.
Qed.

Lemma shr_1_div2 mrs : (0 <= shr_m mrs)%Z -> shr_m (shr_1 mrs) = (shr_m mrs / 2)%Z.
Proof.
  destruct mrs as [m r s]. cbn [shr_1 shr_m].
  destruct m as [|[p|p|]|p]; cbn [shr_m]; intros H; try lia; try reflexivity.
  - apply Z.div_unique with 1%Z; lia.
  - apply Z.div_unique with 0%Z; lia.
Qed.

Lemma pow2_xO n : (2 ^ Z.pos n~0 = 2 ^ Z.pos n * 2 ^ Z.pos n)%Z.
Proof. rewrite <- Z.pow_add_r by lia. f_equal. lia. Qed.

Lemma pow2_xI n : (2 ^ Z.pos n~1 = 2 * (2 ^ Z.pos n * 2 ^ Z.pos n))%Z.
Proof.
  rewrite <- Z.pow_add_r, <- Z.pow_succ_r by lia. f_equal. lia.
Qed.

Lemma iter_shr_1_div n : forall mrs, (0 <= shr_m mrs)%Z ->
  shr_m (SpecFloat.iter_pos shr_1 n mrs) = (shr_m mrs / 2 ^ Zpos n)%Z.
Proof.
  assert (Hnn : forall mrs, (0 <= shr_m mrs -> 0 <= shr_m (shr_1 mrs))%Z).
  { intros mrs H. rewrite shr_1_div2 by done. apply Z.div_pos; lia. }
  assert (Hp : forall k, (0 < 2 ^ Z.pos k)%Z) by (intros; apply Z.pow_pos_nonneg; lia).
  induction n as [n IH|n IH|]; intros mrs H; cbn [SpecFloat.iter_pos].
  - assert (H1 := Hnn _ H).
    assert (H2 : (0 <= shr_m (SpecFloat.iter_pos shr_1 n (shr_1 mrs)))%Z).
    { rewrite IH by done. apply Z.div_pos; [lia|apply Hp]. }
    rewrite IH, IH, shr_1_div2 by done.
    pose proof (Hp n).
    rewrite !Z.div_div by lia. f_equal. rewrite pow2_xI. lia.
  - assert (H2 : (0 <= shr_m (SpecFloat.iter_pos shr_1 n mrs))%Z).
    { rewrite IH by done. apply Z.div_pos; [lia|apply Hp]. }
    rewrite IH, IH by done. pose proof (Hp n).
    rewrite Z.div_div by lia. f_equal. rewrite pow2_xO. lia.
  - rewrite shr_1_div2 by done. reflexivity.
Qed.

Lemma shr_fexp_pos m e l :
  (0 < m)%Z -> (emin <= e)%Z ->
  (0 < shr_m (fst (shr_fexp prec emax m e l)))%Z
  /\ (emin <= snd (shr_fexp prec emax m e l))%Z.
Proof.
  intros Hm He. unfold shr_fexp, shr.
  assert (H0 : shr_m (shr_record_of_loc m l) = m) by (by destruct l as [|[]]).
  destruct m as [|p|p]; try lia. cbn [Zdigits2].
  pose proof (digits2_pos_bounds p) as [Hlo Hhi].
  set (d := Z.pos (digits2_pos p)) in *.
  destruct (fexp (d + e) - e)%Z as [|n|n] eqn:En; cbn [fst snd]; try (split; lia).
  rewrite iter_shr_1_div by lia. rewrite H0.
  unfold SpecFloat.fexp in En.
  assert (Hn : (Z.pos n < d)%Z) by lia.
  split; [|lia].
  apply Z.div_str_pos. split; [apply Z.pow_pos_nonneg; lia|].
  eapply Z.le_trans; [|exact Hlo]. apply Z.pow_le_mono_r; lia.
Qed.

Lemma binary_round_aux_pos m e l :
  (0 < m)%Z -> (emin <= e)%Z ->
  SFltb (S754_zero false) (binary_round_aux prec emax false m e l) = true.
Proof.
  intros Hm He. unfold binary_round_aux.
  destruct (shr_fexp_pos m e l Hm He) as [H1 H1'].
  destruct (shr_fexp prec emax m e l) as [mrs' e']; cbn [fst snd] in *.
  assert (H2 : (0 < round_nearest_even (shr_m mrs') (loc_of_shr_record mrs'))%Z).
  { unfold round_nearest_even. destruct (loc_of_shr_record mrs') as [|[]]; try lia.
    destruct (Z.even _); lia. }
  destruct (shr_fexp_pos _ e' loc_Exact H2 H1') as [H3 _].
  destruct (shr_fexp prec emax _ e' loc_Exact) as [mrs'' e'']; cbn [fst] in *.
  destruct (shr_m mrs''); try lia.
  destruct (e'' <=? emax - prec)%Z; reflexivity.
Qed.

Lemma binary_round_pos p e :
  (emin <= e)%Z -> SFltb (S754_zero false) (binary_round prec emax false p e) = true.
Proof.
  intros He. unfold binary_round.
  destruct (shl_align p e (fexp (Z.pos (digits2_pos p) + e))) as [mz ez] eqn:E.
  apply binary_round_aux_pos; [lia|].
  unfold shl_align in E.
  destruct (fexp _ - e)%Z eqn:En; inversion E; subst; try lia.
  unfold SpecFloat.fexp. lia.
Qed.

Lemma iter_xO_value m d : Z.pos (Pos.iter xO m d) = (Z.pos m * 2 ^ Z.pos d)%Z.
Proof.
  induction d as [|d IH] using Pos.peano_ind.
  - simpl. lia.
  - rewrite Pos.iter_succ, Pos2Z.inj_xO, IH, Pos2Z.inj_succ, Z.pow_succ_r by lia. lia.
Qed.

Lemma shl_align_value m e e' :
  (e' <= e)%Z -> Z.pos (fst (shl_align m e e')) = (Z.pos m * 2 ^ (e - e'))%Z.
Proof.
  intros He. unfold shl_align. destruct (e' - e)%Z as [|d|d] eqn:Ed; cbn [fst]; try lia.
  - replace (e - e')%Z with 0%Z by lia. lia.
  - rewrite iter_xO_value. do 2 f_equal. lia.
Qed.

(** What [bounded] says about a mantissa and its exponent. *)
Lemma bounded_canonical m e :
  bounded prec emax m e = true ->
  (emin <= e)%Z /\ (Z.pos (digits2_pos m) <= prec)%Z
  /\ ((emin < e)%Z -> Z.pos (digits2_pos m) = prec).
Proof.
  unfold bounded, canonical_mantissa, SpecFloat.fexp.
  intros [H _]%andb_prop. apply Z.eqb_eq in H. lia.
Qed.

Lemma canonical_lt mx ex my ey :
  bounded prec emax mx ex = true -> bounded prec emax my ey = true ->
  (ex < ey)%Z -> (Z.pos mx < Z.pos my * 2 ^ (ey - ex))%Z.
Proof.
  intros (Hex & Hdx & _)%bounded_canonical (_ & _ & Hdy)%bounded_canonical Hlt.
  specialize (Hdy ltac:(lia)).
  destruct (digits2_pos_bounds mx) as [_ Hx], (digits2_pos_bounds my) as [Hy _].
  rewrite Hdy in Hy.
  assert (H1 : (2 ^ Z.pos (digits2_pos mx) <= 2 ^ prec)%Z) by (apply Z.pow_le_mono_r; lia).
  assert (H2 : (2 ^ 1 <= 2 ^ (ey - ex))%Z) by (apply Z.pow_le_mono_r; lia).
  assert (H3 : (2 ^ prec = 2 ^ (prec - 1) * 2 ^ 1)%Z).
  { rewrite <- Z.pow_add_r by lia. f_equal. lia. }
  assert (H4 : (2 ^ (prec - 1) * 2 ^ 1 <= Z.pos my * 2 ^ (ey - ex))%Z).
  { apply Z.mul_le_mono_nonneg; try lia; apply Z.pow_nonneg; lia. }
  lia.
Qed.

Lemma finite_ltb_aligned sx mx ex sy my ey :
  bounded prec emax mx ex = true -> bounded prec emax my ey = true ->
  SFltb (S754_finite sx mx ex) (S754_finite sy my ey) = true ->
  (cond_Zopp sx (Z.pos (fst (shl_align mx ex (Z.min ey ex))))
   < cond_Zopp sy (Z.pos (fst (shl_align my ey (Z.min ey ex)))))%Z.
Proof.
  intros Hx Hy. unfold SFltb, SFcompare.
  rewrite !shl_align_value by lia.
  destruct sx, sy; cbn [cond_Zopp]; try discriminate.
  - destruct (Z.compare_spec ex ey) as [->|Hlt|Hgt]; try discriminate.
    + rewrite Z.min_id, Z.sub_diag, Z.pow_0_r.
      change (Pos.compare_cont Eq mx my) with (mx ?= my)%positive.
      destruct (Pos.compare_spec mx my); try discriminate. lia.
    + intros _. pose proof (canonical_lt my ey mx ex Hy Hx Hgt).
      replace (Z.min ey ex) with ey by lia. rewrite Z.sub_diag, Z.pow_0_r. lia.
  - intros _. assert (0 < 2 ^ (ex - Z.min ey ex))%Z by (apply Z.pow_pos_nonneg; lia).
    assert (0 < 2 ^ (ey - Z.min ey ex))%Z by (apply Z.pow_pos_nonneg; lia). lia.
  - destruct (Z.compare_spec ex ey) as [->|Hlt|Hgt]; try discriminate.
    + rewrite Z.min_id, Z.sub_diag, Z.pow_0_r.
      change (Pos.compare_cont Eq mx my) with (mx ?= my)%positive.
      destruct (Pos.compare_spec mx my); try discriminate. lia.
    + intros _. pose proof (canonical_lt mx ex my ey Hx Hy Hlt).
      replace (Z.min ey ex) with ex by lia. rewrite Z.sub_diag, Z.pow_0_r. lia.
Qed.

Lemma SFsub_finite_swap sx mx ex sy my ey :
  SFsub prec emax (S754_finite sy my ey) (S754_finite sx mx ex)
  = binary_normalize prec emax
      (cond_Zopp sy (Zpos (fst (shl_align my ey (Z.min ey ex))))
       - cond_Zopp sx (Zpos (fst (shl_align mx ex (Z.min ey ex)))))%Z
      (Z.min ey ex) false.
Proof. reflexivity. Qed.

(** The difference of a larger and a smaller number is positive. *)
Lemma SFsub_pos_of_ltb x y :
  SpecFloat.valid_binary prec emax x = true -> SpecFloat.valid_binary prec emax y = true ->
  SFltb x y = true -> SFltb (S754_zero false) (SFsub prec emax y x) = true.
Proof.
  destruct x as [sx|sx| |sx mx ex], y as [sy|sy| |sy my ey];
    try (intros Hx Hy Hlt; rewrite SFsub_finite_swap;
         pose proof (finite_ltb_aligned _ _ _ _ _ _ Hx Hy Hlt) as H;
         destruct (bounded_canonical _ _ Hx) as [? _], (bounded_canonical _ _ Hy) as [? _];
         destruct (_ - _)%Z as [|p|p] eqn:E; try lia;
         apply binary_round_pos; lia);
    try (destruct sx); try (destruct sy); cbn; try discriminate; reflexivity.
Qed.

End Subtraction.

Lemma float_ltb_sub_pos x y : (x <? y) = true -> JS.gt (y - x) 0 = true.
Proof.
  rewrite FloatAxioms.ltb_spec, gt_zero_spec, FloatAxioms.sub_spec.
  apply SFsub_pos_of_ltb; [reflexivity|apply Prim2SF_valid..].
Qed.

(** *** [Math.min] *)

Lemma min_from_args_not_nan l : forall lowest x,
  is_nan (JS.min_from lowest l) = false -> x ∈ l -> is_nan x = false.
Proof.
  induction l as [|n l IH]; intros lowest x H Hx; [by apply elem_of_nil in Hx|].
  simpl in H. destruct (is_nan n) eqn:En; [discriminate|].
  apply elem_of_cons in Hx as [->|Hx]; [exact En|].
  destruct (_ && _); [eauto|]. destruct (n <? lowest); eauto.
Qed.

Lemma min_from_not_nan l : forall lowest,
  is_nan lowest = false -> (forall x, x ∈ l -> is_nan x = false) ->
  is_nan (JS.min_from lowest l) = false.
Proof.
  induction l as [|n l IH]; intros lowest Hl H; simpl; [exact Hl|].
  assert (En : is_nan n = false) by (apply H; left).
  assert (H' : forall x, x ∈ l -> is_nan x = false) by (intros; apply H; by right).
  rewrite En. destruct (_ && _); [auto|]. destruct (n <? lowest); auto.
Qed.

Lemma min_from_in l : forall lowest,
  is_nan (JS.min_from lowest l) = false ->
  JS.min_from lowest l = lowest \/ JS.min_from lowest l ∈ l.
Proof.
  induction l as [|n l IH]; intros lowest H; simpl in *; [by left|].
  destruct (is_nan n); [discriminate|].
  destruct (_ && _); [|destruct (n <? lowest)].
  - right. destruct (IH _ H) as [->|?]; [left|by right].
  - right. destruct (IH _ H) as [->|?]; [left|by right].
  - destruct (IH _ H) as [E|?]; [by left|right; by right].
Qed.

Lemma min_from_lower l : forall lowest,
  is_nan lowest = false -> is_nan (JS.min_from lowest l) = false ->
  (JS.min_from lowest l <=? lowest) = true /\
  forall x, x ∈ l -> (JS.min_from lowest l <=? x) = true.
Proof.
  induction l as [|n l IH]; intros lowest Hl H; simpl in *.
  - split; [|intros x Hx; by apply elem_of_nil in Hx].
    apply float_eqb_leb, float_eqb_refl, Hl.
  - destruct (is_nan n) eqn:En; [discriminate|].
    destruct (Leibniz.eqb n neg_zero && Leibniz.eqb lowest zero) eqn:Ez;
      [|destruct (n <? lowest) eqn:Elt].
    + apply andb_prop in Ez as [E1 E2].
      apply Leibniz.eqb_spec in E1, E2. subst n lowest.
      destruct (IH _ En H) as [H1 H2]. split.
      * eapply float_leb_trans; [exact H1|reflexivity].
      * intros x Hx. apply elem_of_cons in Hx as [->|Hx]; auto.
    + destruct (IH _ En H) as [H1 H2]. split.
      * eapply float_leb_trans; [exact H1|by apply float_ltb_leb].
      * intros x Hx. apply elem_of_cons in Hx as [->|Hx]; auto.
    + destruct (IH _ Hl H) as [H1 H2]. split; [exact H1|].
      intros x Hx. apply elem_of_cons in Hx as [->|Hx]; auto.
      eapply float_leb_trans; [exact H1|]. by apply float_leb_total.
Qed.

Lemma Math_min_not_nan l :
  (forall x, x ∈ l -> is_nan x = false) -> is_nan (JS.Math_min l) = false.
Proof. apply min_from_not_nan. reflexivity. Qed.

Lemma Math_min_lower l x :
  is_nan (JS.Math_min l) = false -> x ∈ l -> (JS.Math_min l <=? x) = true.
Proof. intros H. by apply min_from_lower. Qed.

Lemma Math_min_attained l :
  l <> [] -> is_nan (JS.Math_min l) = false ->
  exists x, x ∈ l /\ (JS.Math_min l =? x) = true.
Proof.
  intros Hl H. destruct (min_from_in l infinity H) as [E|Hin].
  - destruct l as [|x l]; [done|]. exists x. split; [left|].
    pose proof (Math_min_lower (x :: l) x H ltac:(left)) as Hx.
    unfold JS.Math_min in *. rewrite E in *. by apply float_infinity_leb.
  - exists (JS.Math_min l). split; [exact Hin|]. by apply float_eqb_refl.
Qed.

(** A minimum that is a number sits at the position [bottleneck] computes. *)
Lemma float_eqb_leb_l m c x : (m =? c) = true -> (m <=? x) = true -> (c <=? x) = true.
Proof.
  intros E H. eapply float_leb_trans; [|exact H]. by apply float_eqb_leb, float_eqb_sym.
Qed.

Lemma float_eqb_ltb_l m c x : (m =? c) = true -> (m <? x) = true -> (c <? x) = true.
Proof.
  intros E H. eapply float_leb_ltb_trans; [|exact H]. by apply float_eqb_leb, float_eqb_sym.
Qed.

Lemma Math_min_strictly_below l x :
  is_nan (JS.Math_min l) = false -> x ∈ l -> (JS.Math_min l =? x) = false ->
  (JS.Math_min l <? x) = true.
Proof. intros H Hx E. apply float_leb_neq_ltb; [by apply Math_min_lower|exact E]. Qed.

End FloatFacts.

Import FloatFacts.

(** * Loops as list operations *)

Lemma fold_left_push {A B} (f : B -> list A) (l : list B) (init : list A) :
  fold_left (fun acc x => acc ++ f x) l init = init ++ (l ≫= f).
Proof.
  revert init; induction l as [|x l IH]; intros init.
  - simpl. by rewrite app_nil_r.
  - rewrite bind_cons. simpl. rewrite IH. by rewrite <- app_assoc.
Qed.

Lemma fold_left_push_option {A B} (f : B -> option A) (l : list B) (init : list A) :
  fold_left (fun acc x => match f x with Some a => acc ++ [a] | None => acc end) l init
  = init ++ omap f l.
Proof.
  revert init; induction l as [|x l IH]; intros init; simpl.
  - by rewrite app_nil_r.
  - rewrite IH. destruct (f x); simpl; [by rewrite <- app_assoc|done].
Qed.

Lemma parseAllPairs_omap Number data :
  parseAllPairs Number data = omap (fun entry => parseEntry Number entry.1 entry.2) data.
Proof. unfold parseAllPairs. by rewrite fold_left_push_option. Qed.

Lemma fold_left_pointwise {A B} (f g : A -> B -> A) (l : list B) (a : A) :
  (forall a x, f a x = g a x) -> fold_left f l a = fold_left g l a.
Proof.
  intros H. revert a; induction l as [|x l IH]; intros a; simpl; [done|].
  by rewrite H, IH.
Qed.

Lemma buildAssetEntries_omap pairs baseCurrency :
  buildAssetEntries pairs baseCurrency
  = omap (assetEntryOf (indexPairs pairs) baseCurrency) pairs.
Proof.
  unfold buildAssetEntries.
  rewrite <- (app_nil_l (omap _ _)), <- fold_left_push_option.
  apply fold_left_pointwise. intros entries p. unfold assetEntryOf.
  destruct (_ || _); [done|]. by destruct (_ !! _).
Qed.

Lemma triangleStep_emit bridge baseCurrency totalFee results e :
  triangleStep bridge baseCurrency totalFee results e
  = results ++ triangleEmit bridge baseCurrency totalFee e.
Proof.
  unfold triangleStep, triangleEmit.
  destruct (_ && _), (_ && _); simpl; by rewrite <- ?app_assoc, ?app_nil_r.
Qed.

Lemma findTriangles_bind pairs baseCurrency feeRatePct :
  findTriangles pairs baseCurrency feeRatePct
  = match indexPairs pairs !! indexKey baseCurrency "IRT" with
    | None => []
    | Some bridge =>
        buildAssetEntries pairs baseCurrency
          ≫= triangleEmit bridge baseCurrency (3 * feeRatePct)%float
    end.
Proof.
  unfold findTriangles. destruct (_ !! _) as [bridge|]; [|done].
  rewrite <- (app_nil_l (_ ≫= _)), <- fold_left_push.
  apply fold_left_pointwise. intros. apply triangleStep_emit.
Qed.

Lemma crossStep_emit baseCurrency totalFee seller results buyer :
  crossStep baseCurrency totalFee seller results buyer
  = results ++ crossEmit baseCurrency totalFee seller buyer.
Proof.
  unfold crossStep, crossEmit.
  repeat (destruct (_ : bool); [by rewrite app_nil_r|]). done.
Qed.

Lemma findCrossPairs_bind pairs baseCurrency feeRatePct maxResults :
  findCrossPairs pairs baseCurrency feeRatePct maxResults
  = let entries := buildAssetEntries pairs baseCurrency in
    JS.slice0 maxResults
      (JS.Array_sort byNetPctDesc
         (bySell entries ≫= fun seller =>
            byBuy entries ≫= crossEmit baseCurrency (4 * feeRatePct)%float seller)).
Proof.
  unfold findCrossPairs. cbv zeta. do 2 f_equal.
  fold (bySell (buildAssetEntries pairs baseCurrency)).
  fold (byBuy (buildAssetEntries pairs baseCurrency)).
  rewrite <- (app_nil_l (_ ≫= _)), <- fold_left_push.
  apply fold_left_pointwise. intros results seller.
  rewrite <- fold_left_push. apply fold_left_pointwise. intros. apply crossStep_emit.
Qed.

(** * [Array.prototype.sort] and [slice] *)

Section ArraySort.

Context {A : Type} (cmp : A -> A -> float).

Lemma sort_insert_perm x l : JS.sort_insert cmp x l ≡ₚ x :: l.
Proof.
  induction l as [|y l IH]; simpl; [done|].
  destruct (JS.gt (cmp x y) 0); [|done].
  rewrite IH. apply Permutation_swap.
Qed.

Lemma Array_sort_perm l : JS.Array_sort cmp l ≡ₚ l.
Proof.
  induction l as [|x l IH]; simpl; [done|].
  rewrite sort_insert_perm. by f_equiv.
Qed.

Lemma Array_sort_length l : length (JS.Array_sort cmp l) = length l.
Proof. apply Permutation_length, Array_sort_perm. Qed.

Lemma elem_of_Array_sort x l : x ∈ JS.Array_sort cmp l <-> x ∈ l.
Proof. by rewrite Array_sort_perm. Qed.

(** Equal-ranking elements keep their order: a class [P] of elements none
    of which the comparator moves behind another is left as it was. *)
Section Stable.

Context (P : A -> Prop) `{!forall x, Decision (P x)}.
Hypothesis tied : forall x y, P x -> P y -> JS.gt (cmp x y) 0 = false.

Lemma sort_insert_filter x l :
  filter P (JS.sort_insert cmp x l) = filter P (x :: l).
Proof.
  induction l as [|y l IH]; simpl; [done|].
  destruct (JS.gt (cmp x y) 0) eqn:E; [|done].
  rewrite filter_cons, IH, !filter_cons.
  destruct (decide (P y)) as [Hy|Hy], (decide (P x)) as [Hx|Hx]; try done.
  rewrite tied in E by done. discriminate.
Qed.

Lemma Array_sort_filter l : filter P (JS.Array_sort cmp l) = filter P l.
Proof.
  induction l as [|x l IH]; simpl; [done|].
  by rewrite sort_insert_filter, !filter_cons, IH.
Qed.

End Stable.

(** The result is in order as soon as the comparator never moves each of
    two elements behind the other. *)
Section Ordered.

Hypothesis asym : forall a b, JS.gt (cmp a b) 0 = true -> JS.gt (cmp b a) 0 = false.

Lemma sort_insert_HdRel y x l :
  inOrder cmp y x -> HdRel (inOrder cmp) y l ->
  HdRel (inOrder cmp) y (JS.sort_insert cmp x l).
Proof.
  intros Hyx Hl. destruct l as [|z l]; simpl; [by constructor|].
  destruct (JS.gt (cmp x z) 0); constructor; [|done].
  by inversion Hl.
Qed.

Lemma sort_insert_sorted x l :
  Sorted (inOrder cmp) l -> Sorted (inOrder cmp) (JS.sort_insert cmp x l).
Proof.
  induction 1 as [|y l Hl IH Hy]; simpl; [by repeat constructor|].
  destruct (JS.gt (cmp x y) 0) eqn:E.
  - constructor; [exact IH|]. apply sort_insert_HdRel; [|exact Hy]. by apply asym.
  - by repeat constructor.
Qed.

Lemma Array_sort_sorted l : Sorted (inOrder cmp) (JS.Array_sort cmp l).
Proof.
  induction l as [|x l IH]; simpl; [constructor|]. by apply sort_insert_sorted.
Qed.

End Ordered.

End ArraySort.

Lemma Sorted_take {A} (R : A -> A -> Prop) n l : Sorted R l -> Sorted R (take n l).
Proof.
  intros H; revert n; induction H as [|x l Hl IH Hx]; intros [|n]; simpl;
    try constructor; [apply IH|].
  destruct Hx as [|y l' Hxy]; destruct n; simpl; by constructor.
Qed.

Lemma slice0_length {A} n (l : list A) : length (JS.slice0 n l) <= n.
Proof. unfold JS.slice0. rewrite length_take. lia. Qed.

Lemma byNetPctDesc_asym a b :
  JS.gt (byNetPctDesc a b) 0 = true -> JS.gt (byNetPctDesc b a) 0 = false.
Proof. apply sub_pos_asym. Qed.

Lemma byNetPctDesc_descending a b : inOrder byNetPctDesc a b -> netPctDescending a b.
Proof.
  unfold inOrder, netPctDescending, byNetPctDesc. intros H.
  destruct (Opportunity.netPct a <? Opportunity.netPct b)%float eqn:E; [|done].
  apply float_ltb_sub_pos in E. congruence.
Qed.

Lemma Sorted_weaken {A} (R R' : A -> A -> Prop) l :
  (forall a b, R a b -> R' a b) -> Sorted R l -> Sorted R' l.
Proof.
  intros HR. induction 1 as [|x l Hl IH Hx]; constructor; [done|].
  destruct Hx; constructor. by apply HR.
Qed.

Lemma Array_sort_byNetPctDesc_descending l :
  Sorted netPctDescending (JS.Array_sort byNetPctDesc l).
Proof.
  eapply Sorted_weaken; [apply byNetPctDesc_descending|].
  apply Array_sort_sorted, byNetPctDesc_asym.
Qed.

(** Opportunities whose [netPct] equals [v] keep their relative order. *)
Lemma float_eqb_trans_r x y v :
  (x =? v)%float = true -> (y =? v)%float = true -> (x =? y)%float = true.
Proof.
  intros Hx Hy. apply float_leb_antisym.
  - eapply float_leb_trans; [by apply float_eqb_leb|by apply float_eqb_leb, float_eqb_sym].
  - eapply float_leb_trans; [by apply float_eqb_leb|by apply float_eqb_leb, float_eqb_sym].
Qed.

Lemma Array_sort_byNetPctDesc_stable v l :
  filter (fun o => (Opportunity.netPct o =? v)%float = true) (JS.Array_sort byNetPctDesc l)
  = filter (fun o => (Opportunity.netPct o =? v)%float = true) l.
Proof.
  apply Array_sort_filter. intros x y Hx Hy. unfold byNetPctDesc.
  apply sub_eqb_not_pos. by eapply float_eqb_trans_r.
Qed.

(** Where every [netPct] is a number, a descending list descends throughout:
    each element is at least every later one. *)
Lemma netPctAtLeast_trans a b c :
  netPctAtLeast a b -> netPctAtLeast b c -> netPctAtLeast a c.
Proof. unfold netPctAtLeast. intros Hab Hbc. by eapply float_leb_trans. Qed.

Lemma Sorted_weaken_elem {A} (R R' : A -> A -> Prop) l :
  (forall a b, a ∈ l -> b ∈ l -> R a b -> R' a b) -> Sorted R l -> Sorted R' l.
Proof.
  intros HR H. induction H as [|x l Hl IH Hx]; constructor.
  - apply IH. intros a b Ha Hb. apply HR; by right.
  - destruct Hx as [|y l' Hxy]; constructor. apply HR; [left|right; left|done].
Qed.

Lemma descending_numbers_throughout l :
  (forall o, o ∈ l -> is_nan (Opportunity.netPct o) = false) ->
  Sorted netPctDescending l -> StronglySorted netPctAtLeast l.
Proof.
  intros Hn H. apply (@Sorted_StronglySorted _ netPctAtLeast).
  - intros a b c. apply netPctAtLeast_trans.
  - eapply Sorted_weaken_elem; [|exact H].
    intros a b Ha Hb Hab. apply float_leb_total; auto.
Qed.

(** * Strings *)

Lemma string_length_app (a b : string) :
  String.length (a +:+ b) = String.length a + String.length b.
Proof. induction a as [|c a IH]; simpl; [done|]. by rewrite IH. Qed.

Lemma substring_all (b : string) : String.substring 0 (String.length b) b = b.
Proof. induction b as [|c b IH]; simpl; [done|]. by rewrite IH. Qed.

Lemma substring_app_suffix (a b : string) :
  String.substring (String.length a) (String.length b) (a +:+ b) = b.
Proof. induction a as [|c a IH]; simpl; [apply substring_all|exact IH]. Qed.

Lemma substring_app_prefix (a b : string) :
  String.substring 0 (String.length a) (a +:+ b) = a.
Proof.
  induction a as [|c a IH]; simpl; [by destruct b|]. by rewrite IH.
Qed.

Lemma substring_split (s : string) n :
  n <= String.length s ->
  s = String.substring 0 n s +:+ String.substring n (String.length s - n) s.
Proof.
  revert n; induction s as [|c s IH]; intros [|n] Hn; simpl in *; try lia; try done.
  - by rewrite substring_all.
  - change (String c s = String c (String.substring 0 n s
                                    +:+ String.substring n (String.length s - n) s)).
    f_equal. apply IH. lia.
Qed.

(** [endsWith] and [slice(0, -k)] against concatenation. *)
Lemma endsWith_app (a suffix : string) : JS.endsWith (a +:+ suffix) suffix = true.
Proof.
  unfold JS.endsWith. rewrite string_length_app.
  replace (String.length a + String.length suffix - String.length suffix)
    with (String.length a) by lia.
  rewrite substring_app_suffix, String.eqb_refl, andb_true_r.
  apply Nat.leb_le. lia.
Qed.

Lemma dropEnd_app (a suffix : string) :
  JS.dropEnd (String.length suffix) (a +:+ suffix) = a.
Proof.
  unfold JS.dropEnd. rewrite string_length_app.
  replace (String.length a + String.length suffix - String.length suffix)
    with (String.length a) by lia.
  apply substring_app_prefix.
Qed.

Lemma endsWith_split (s suffix : string) :
  JS.endsWith s suffix = true ->
  s = JS.dropEnd (String.length suffix) s +:+ suffix.
Proof.
  unfold JS.endsWith, JS.dropEnd. intros H.
  apply andb_prop in H as [Hle Heq].
  apply Nat.leb_le in Hle. apply String.eqb_eq in Heq.
  rewrite (substring_split s (String.length s - String.length suffix)) at 1 by lia.
  f_equal. rewrite <- Heq at 3. f_equal. lia.
Qed.

Lemma USDT_IRT_suffixes_differ (a b : string) : a +:+ "USDT" <> b +:+ "IRT".
Proof.
  revert b; induction a as [|c a IH]; intros b H.
  - do 5 (destruct b as [|? b]; simpl in H; try discriminate; injection H as _ H).
  - destruct b as [|d b]; simpl in H.
    + injection H as _ H.
      do 3 (destruct a as [|? a]; simpl in H; try discriminate; injection H as _ H).
    + injection H as _ H. by apply IH in H.
Qed.

(** The suffix rule of [parseSymbol], in terms of concatenation. *)
Lemma parseSymbol_Some symbol asset quote :
  parseSymbol symbol = Some (asset, quote) <->
  asset <> "" /\ symbol = asset +:+ quote /\ (quote = "USDT" \/ quote = "IRT").
Proof.
  unfold parseSymbol. split.
  - destruct (_ && JS.endsWith symbol "USDT") eqn:E1;
      [|destruct (_ && JS.endsWith symbol "IRT") eqn:E2; [|done]].
    + intros [= <- <-]. apply andb_prop in E1 as [Hlen Hend].
      apply Nat.ltb_lt in Hlen. apply endsWith_split in Hend. simpl in Hend.
      split; [|auto]. intros E. rewrite E in Hend. rewrite Hend in Hlen. simpl in Hlen. lia.
    + intros [= <- <-]. apply andb_prop in E2 as [Hlen Hend].
      apply Nat.ltb_lt in Hlen. apply endsWith_split in Hend. simpl in Hend.
      split; [|auto]. intros E. rewrite E in Hend. rewrite Hend in Hlen. simpl in Hlen. lia.
  - intros (Ha & -> & [-> | ->]).
    + rewrite endsWith_app, andb_true_r.
      replace (4 <? _) with true.
      * pose proof (dropEnd_app asset "USDT") as Hd. simpl in Hd. by rewrite Hd.
      * symmetry. apply Nat.ltb_lt. rewrite string_length_app. destruct asset; [done|simpl; lia].
    + replace (_ && JS.endsWith _ "USDT") with false.
      * rewrite endsWith_app, andb_true_r. replace (3 <? _) with true.
        -- pose proof (dropEnd_app asset "IRT") as Hd. simpl in Hd. by rewrite Hd.
        -- symmetry. apply Nat.ltb_lt. rewrite string_length_app.
           destruct asset; [done|simpl; lia].
      * symmetry. apply andb_false_iff. right.
        destruct (JS.endsWith _ "USDT") eqn:E; [|done].
        apply endsWith_split in E. symmetry in E. by apply USDT_IRT_suffixes_differ in E.
Qed.

(** Index keys of colon-free quotes determine asset and quote. *)
Lemma colonFree_app_colon (a q : string) : colonFree (a +:+ String colon q) = false.
Proof. induction a as [|c a IH]; simpl; [done|]. rewrite IH. apply andb_false_r. Qed.

Lemma indexKey_colon a q : indexKey a q = a +:+ String colon q.
Proof. reflexivity. Qed.

Lemma indexKey_inj a1 q1 a2 q2 :
  colonFree q1 = true -> colonFree q2 = true ->
  indexKey a1 q1 = indexKey a2 q2 -> a1 = a2 /\ q1 = q2.
Proof.
  rewrite !indexKey_colon. intros H1 H2.
  revert a2; induction a1 as [|c1 a1 IH]; intros [|c2 a2] H; cbn in H.
  - by injection H as ->.
  - injection H as _ ->. by rewrite colonFree_app_colon in H1.
  - injection H as _ <-. by rewrite colonFree_app_colon in H2.
  - injection H as -> H. apply IH in H as [-> ->]. done.
Qed.

(** * The index of pairs *)

Lemma indexPairs_fold_Some pairs : forall (init : gmap string MarketPair.t) k p,
  fold_left (fun idx p => <[indexKey (MarketPair.asset p) (MarketPair.quote p) := p]> idx)
    pairs init !! k = Some p ->
  (p ∈ pairs /\ indexKey (MarketPair.asset p) (MarketPair.quote p) = k)
  \/ init !! k = Some p.
Proof.
  induction pairs as [|q pairs IH]; intros init k p H; simpl in H; [by right|].
  apply IH in H as [[Hin Hk]|H]; [left; split; [by right|done]|].
  destruct (decide (indexKey (MarketPair.asset q) (MarketPair.quote q) = k)) as [E|E].
  - rewrite E, lookup_insert_eq in H. injection H as ->. left. split; [left|done].
  - rewrite lookup_insert_ne in H by done. by right.
Qed.

Lemma indexPairs_lookup_Some pairs k p :
  indexPairs pairs !! k = Some p ->
  p ∈ pairs /\ indexKey (MarketPair.asset p) (MarketPair.quote p) = k.
Proof.
  intros H. apply indexPairs_fold_Some in H as [H|H]; [done|].
  by rewrite lookup_empty in H.
Qed.

Lemma indexPairs_lookup_None pairs k :
  (forall p, p ∈ pairs -> indexKey (MarketPair.asset p) (MarketPair.quote p) <> k) ->
  indexPairs pairs !! k = None.
Proof.
  intros H. destruct (indexPairs pairs !! k) as [p|] eqn:E; [|done].
  apply indexPairs_lookup_Some in E as [Hin Hk]. by destruct (H p Hin).
Qed.

Lemma elem_of_buildAssetEntries pairs baseCurrency e :
  e ∈ buildAssetEntries pairs baseCurrency ->
  AssetEntry.irt e ∈ pairs /\ AssetEntry.base e ∈ pairs /\
  AssetEntry.asset e = MarketPair.asset (AssetEntry.irt e) /\
  MarketPair.quote (AssetEntry.irt e) = "IRT" /\
  AssetEntry.asset e <> baseCurrency /\
  indexKey (MarketPair.asset (AssetEntry.base e)) (MarketPair.quote (AssetEntry.base e))
  = indexKey (AssetEntry.asset e) baseCurrency.
Proof.
  rewrite buildAssetEntries_omap, list_elem_of_omap. intros (p & Hp & H).
  unfold assetEntryOf in H.
  destruct (_ || _) eqn:E; [done|].
  apply orb_false_elim in E as [E1 E2].
  apply negb_false_iff, String.eqb_eq in E1. apply String.eqb_neq in E2.
  destruct (_ !! _) as [bp|] eqn:Eb; [|done]. injection H as <-. simpl.
  apply indexPairs_lookup_Some in Eb as [Hb Hk]. done.
Qed.

(** * What the finders return *)

Lemma elem_of_triangleEmit bridge baseCurrency totalFee e o :
  o ∈ triangleEmit bridge baseCurrency totalFee e <->
  (JS.isFinite (cwRate bridge e) = true /\ JS.gt (cwVol bridge e) 0 = true /\
   o = cwOpportunity bridge baseCurrency totalFee e)
  \/ (JS.isFinite (ccwRate bridge e) = true /\ JS.gt (ccwVol bridge e) 0 = true /\
      o = ccwOpportunity bridge baseCurrency totalFee e).
Proof.
  unfold triangleEmit. rewrite elem_of_app. split.
  - intros [H|H]; [left|right];
      destruct (JS.isFinite _), (JS.gt _ 0); simpl in H;
      try (by apply elem_of_nil in H); by apply list_elem_of_singleton in H.
  - intros [(H1 & H2 & ->)|(H1 & H2 & ->)]; rewrite H1, H2; simpl; [left|right];
      by apply list_elem_of_singleton.
Qed.

Lemma elem_of_findTriangles pairs baseCurrency feeRatePct o :
  o ∈ findTriangles pairs baseCurrency feeRatePct <->
  exists bridge e,
    indexPairs pairs !! indexKey baseCurrency "IRT" = Some bridge /\
    e ∈ buildAssetEntries pairs baseCurrency /\
    o ∈ triangleEmit bridge baseCurrency (3 * feeRatePct)%float e.
Proof.
  rewrite findTriangles_bind. destruct (_ !! _) as [bridge|].
  - rewrite list_elem_of_bind. split.
    + intros (e & Ho & He). by exists bridge, e.
    + intros (bridge' & e & [= <-] & He & Ho). by exists e.
  - rewrite elem_of_nil. split; [done|]. by intros (bridge & e & [=] & _).
Qed.

Lemma elem_of_crossEmit baseCurrency totalFee seller buyer o :
  o ∈ crossEmit baseCurrency totalFee seller buyer <->
  WithRatios.asset seller <> WithRatios.asset buyer /\
  (crossNetPct totalFee seller buyer <? -5)%float = false /\
  JS.isFinite (crossRate seller buyer) = true /\
  (crossVol seller buyer <=? 0)%float = false /\
  o = crossOpportunity baseCurrency totalFee seller buyer.
Proof.
  unfold crossEmit. split.
  - destruct (String.eqb_spec (WithRatios.asset seller) (WithRatios.asset buyer));
      [by intros ?%elem_of_nil|].
    destruct (crossNetPct totalFee seller buyer <? -5)%float; [by intros ?%elem_of_nil|].
    destruct (JS.isFinite (crossRate seller buyer)); [|by intros ?%elem_of_nil].
    destruct (crossVol seller buyer <=? 0)%float; [by intros ?%elem_of_nil|].
    by intros ->%list_elem_of_singleton.
  - intros (Ha & -> & -> & -> & ->).
    destruct (String.eqb_spec (WithRatios.asset seller) (WithRatios.asset buyer)); [done|].
    by apply list_elem_of_singleton.
Qed.

Lemma elem_of_bySell entries w :
  w ∈ bySell entries -> exists e, e ∈ entries /\ w = withRatio e.
Proof.
  unfold bySell, JS.slice0. intros H. apply subseteq_take in H.
  apply elem_of_Array_sort, list_elem_of_fmap in H as (e & -> & He). by exists e.
Qed.

Lemma elem_of_byBuy entries w :
  w ∈ byBuy entries -> exists e, e ∈ entries /\ w = withRatio e.
Proof.
  unfold byBuy, JS.slice0. intros H. apply subseteq_take in H.
  apply elem_of_Array_sort, list_elem_of_fmap in H as (e & -> & He). by exists e.
Qed.

Lemma elem_of_findCrossPairs pairs baseCurrency feeRatePct maxResults o :
  o ∈ findCrossPairs pairs baseCurrency feeRatePct maxResults ->
  exists seller buyer,
    seller ∈ buildAssetEntries pairs baseCurrency /\
    buyer ∈ buildAssetEntries pairs baseCurrency /\
    o ∈ crossEmit baseCurrency (4 * feeRatePct)%float (withRatio seller) (withRatio buyer).
Proof.
  rewrite findCrossPairs_bind. cbv zeta. unfold JS.slice0. intros H.
  apply subseteq_take, elem_of_Array_sort, list_elem_of_bind in H as (s & H & Hs).
  apply list_elem_of_bind in H as (b & H & Hb).
  apply elem_of_bySell in Hs as (es & Hes & ->).
  apply elem_of_byBuy in Hb as (eb & Heb & ->). by exists es, eb.
Qed.

Lemma elem_of_findAllOpportunities pairs baseCurrency feeRatePct o :
  o ∈ findAllOpportunities pairs baseCurrency feeRatePct <->
  o ∈ findTriangles pairs baseCurrency feeRatePct
  \/ o ∈ findCrossPairs pairs baseCurrency feeRatePct defaultMaxResults.
Proof. unfold findAllOpportunities. by rewrite elem_of_Array_sort, elem_of_app. Qed.

(** * Fee accounting *)

(** C1: every opportunity returned by [findTriangles], [findCrossPairs] or
    [findAllOpportunities] carries [feePct] equal to three times the per-trade
    fee when it is a triangle and four times when it is a cross-pair, and its
    [netPct] is [grossPct - feePct]. *)
Theorem fee_accounting pairs baseCurrency feeRatePct maxResults o :
  o ∈ findTriangles pairs baseCurrency feeRatePct
  \/ o ∈ findCrossPairs pairs baseCurrency feeRatePct maxResults
  \/ o ∈ findAllOpportunities pairs baseCurrency feeRatePct ->
  Opportunity.feePct o
  = match Opportunity.type o with
    | triangle => (3 * feeRatePct)%float
    | cross => (4 * feeRatePct)%float
    end
  /\ Opportunity.netPct o = (Opportunity.grossPct o - Opportunity.feePct o)%float.
Proof.
  assert (Ht : forall o, o ∈ findTriangles pairs baseCurrency feeRatePct ->
    Opportunity.feePct o = (3 * feeRatePct)%float /\ Opportunity.type o = triangle /\
    Opportunity.netPct o = (Opportunity.grossPct o - Opportunity.feePct o)%float).
  { intros o' (bridge & e & _ & _ & Ho)%elem_of_findTriangles.
    apply elem_of_triangleEmit in Ho as [(_ & _ & ->)|(_ & _ & ->)]; done. }
  assert (Hc : forall n o, o ∈ findCrossPairs pairs baseCurrency feeRatePct n ->
    Opportunity.feePct o = (4 * feeRatePct)%float /\ Opportunity.type o = cross /\
    Opportunity.netPct o = (Opportunity.grossPct o - Opportunity.feePct o)%float).
  { intros n o' (s & b & _ & _ & Ho)%elem_of_findCrossPairs.
    apply elem_of_crossEmit in Ho as (_ & _ & _ & _ & ->). done. }
  rewrite elem_of_findAllOpportunities.
  intros [H|[H|[H|H]]];
    [apply Ht in H|apply Hc in H|apply Ht in H|apply Hc in H];
    destruct H as (-> & -> & ->); done.
Qed.

Lemma fee_accounting_witness :
  let o := cwOpportunity (MarketPair.mk "USDTIRT" "USDT" "IRT" 990 1000 1000 1000)
             "USDT" (3 * 0.35)%float
             (AssetEntry.mk "X" (MarketPair.mk "XIRT" "X" "IRT" 990 10 1000 10)
                (MarketPair.mk "XUSDT" "X" "USDT" 1.05 10 1.06 10)) in
  Opportunity.feePct o = (3 * 0.35)%float
  /\ Opportunity.netPct o = (Opportunity.grossPct o - Opportunity.feePct o)%float.
Proof.
  intros o.
  apply (fee_accounting (examplePairs 1000 1000) "USDT" 0.35%float 200 o).
  left. vm_compute. apply list_elem_of_here.
Defined.

(** * The bottleneck leg *)

Lemma firstArgmin_intro caps i c :
  is_nan (JS.Math_min caps) = false ->
  caps !! i = Some c ->
  (JS.Math_min caps =? c)%float = true ->
  (forall j x, j < i -> caps !! j = Some x -> (JS.Math_min caps =? x)%float = false) ->
  firstArgmin caps (JS.Math_min caps) i.
Proof.
  intros Hn Hi Hc Hlt. exists c. repeat split; [done..| |].
  - intros x Hx. eapply float_eqb_leb_l; [exact Hc|]. by apply Math_min_lower.
  - intros j x Hj Hx. eapply float_eqb_ltb_l; [exact Hc|].
    apply Math_min_strictly_below; [done| |by eapply Hlt].
    by eapply list_elem_of_lookup_2.
Qed.

Lemma bottleneck3_firstArgmin l1 l2 l3 :
  is_nan (JS.Math_min [l1; l2; l3]) = false ->
  firstArgmin [l1; l2; l3] (JS.Math_min [l1; l2; l3])
    (bottleneck3 (JS.Math_min [l1; l2; l3]) (l1, l2, l3)).
Proof.
  intros Hn. unfold bottleneck3.
  destruct (Math_min_attained [l1; l2; l3] ltac:(done) Hn) as (x & Hx & Ex).
  destruct (JS.Math_min [l1; l2; l3] =? l1)%float eqn:E1;
    [|destruct (JS.Math_min [l1; l2; l3] =? l2)%float eqn:E2].
  - apply (firstArgmin_intro _ 0 l1); try done. intros; lia.
  - apply (firstArgmin_intro _ 1 l2); try done.
    intros [|j] y Hj Hy; [|lia]. by injection Hy as <-.
  - apply (firstArgmin_intro _ 2 l3); try done.
    + repeat (apply elem_of_cons in Hx as [->|Hx]; [congruence|]).
      by apply elem_of_nil in Hx.
    + intros [|[|j]] y Hj Hy; try lia; by injection Hy as <-.
Qed.

Lemma bottleneck4_firstArgmin l1 l2 l3 l4 :
  is_nan (JS.Math_min [l1; l2; l3; l4]) = false ->
  firstArgmin [l1; l2; l3; l4] (JS.Math_min [l1; l2; l3; l4])
    (bottleneck4 (JS.Math_min [l1; l2; l3; l4]) (l1, l2, l3, l4)).
Proof.
  intros Hn. unfold bottleneck4.
  destruct (Math_min_attained [l1; l2; l3; l4] ltac:(done) Hn) as (x & Hx & Ex).
  destruct (JS.Math_min [l1; l2; l3; l4] =? l1)%float eqn:E1;
    [|destruct (JS.Math_min [l1; l2; l3; l4] =? l2)%float eqn:E2;
      [|destruct (JS.Math_min [l1; l2; l3; l4] =? l3)%float eqn:E3]].
  - apply (firstArgmin_intro _ 0 l1); try done. intros; lia.
  - apply (firstArgmin_intro _ 1 l2); try done.
    intros [|j] y Hj Hy; [|lia]. by injection Hy as <-.
  - apply (firstArgmin_intro _ 2 l3); try done.
    intros [|[|j]] y Hj Hy; try lia; by injection Hy as <-.
  - apply (firstArgmin_intro _ 3 l4); try done.
    + repeat (apply elem_of_cons in Hx as [->|Hx]; [congruence|]).
      by apply elem_of_nil in Hx.
    + intros [|[|[|j]]] y Hj Hy; try lia; by injection Hy as <-.
Qed.

(** The capacities read off an opportunity are the ones its finder used. *)
Lemma legCapacities_cw bridge baseCurrency totalFee e :
  legCapacities (cwOpportunity bridge baseCurrency totalFee e)
  = let '(l1, l2, l3) := cwCaps bridge e in [l1; l2; l3].
Proof. reflexivity. Qed.

Lemma legCapacities_ccw bridge baseCurrency totalFee e :
  legCapacities (ccwOpportunity bridge baseCurrency totalFee e)
  = let '(l1, l2, l3) := ccwCaps bridge e in [l1; l2; l3].
Proof. reflexivity. Qed.

Lemma legCapacities_cross baseCurrency totalFee seller buyer :
  legCapacities (crossOpportunity baseCurrency totalFee seller buyer)
  = let '(l1, l2, l3, l4) := crossCaps seller buyer in [l1; l2; l3; l4].
Proof. reflexivity. Qed.

(** A positive volume comes from a minimum that is a number. *)
Lemma mul_gt_zero_not_nan m a : JS.gt (m * a)%float 0 = true -> is_nan m = false.
Proof.
  intros [Hn Hz]%gt_zero_regular. by destruct (mul_regular_l m a Hn Hz).
Qed.

Lemma mul_mul_gt_zero_not_nan m a b :
  JS.gt (m * a * b)%float 0 = true -> is_nan m = false.
Proof.
  intros [Hn Hz]%gt_zero_regular. destruct (mul_regular_l _ b Hn Hz) as [Hn' Hz'].
  by destruct (mul_regular_l m a Hn' Hz').
Qed.

(** * Capacities of valid pairs *)

Lemma gt_zero_nonneg x : JS.gt x 0 = true -> (0 <=? x)%float = true.
Proof. apply float_ltb_leb. Qed.

Lemma converted_nonneg q a b :
  (0 <=? q)%float = true -> is_finite q = true ->
  JS.gt a 0 = true -> is_finite a = true ->
  JS.gt b 0 = true -> is_finite b = true ->
  (0 <=? q * a / b)%float = true.
Proof.
  intros Hq Hqf Ha Haf Hb Hbf. apply div_nonneg; [|done..].
  apply mul_nonneg; auto using gt_zero_nonneg.
Qed.

Lemma buildAssetEntries_valid pairs baseCurrency e :
  (forall p, p ∈ pairs -> validPair p) ->
  e ∈ buildAssetEntries pairs baseCurrency ->
  validPair (AssetEntry.irt e) /\ validPair (AssetEntry.base e).
Proof.
  intros Hv (Hi & Hb & _)%elem_of_buildAssetEntries. split; by apply Hv.
Qed.

Lemma cwCaps_nonneg bridge e x :
  validPair bridge -> validPair (AssetEntry.irt e) -> validPair (AssetEntry.base e) ->
  x ∈ (let '(l1, l2, l3) := cwCaps bridge e in [l1; l2; l3]) ->
  (0 <=? x)%float = true.
Proof.
  intros (_ & _ & _ & _ & Hq & _) (_ & _ & _ & _ & _ & _ & Hi & _)
         (Hb & Hbf & _ & _ & Hbq & _) Hx.
  unfold cwCaps in Hx. rewrite Hb in Hx.
  repeat (apply elem_of_cons in Hx as [->|Hx]; [try done|]).
  - by apply div_nonneg.
  - by apply elem_of_nil in Hx.
Qed.

Lemma ccwCaps_nonneg bridge e x :
  validPair bridge -> validPair (AssetEntry.irt e) -> validPair (AssetEntry.base e) ->
  x ∈ (let '(l1, l2, l3) := ccwCaps bridge e in [l1; l2; l3]) ->
  (0 <=? x)%float = true.
Proof.
  intros (_ & _ & _ & _ & _ & _ & Hq & _) (_ & _ & _ & _ & Hi & _)
         (_ & _ & Ha & Haf & _ & _ & Haq & _) Hx.
  unfold ccwCaps in Hx. rewrite Ha in Hx.
  repeat (apply elem_of_cons in Hx as [->|Hx]; [try done|]).
  - by apply div_nonneg.
  - by apply elem_of_nil in Hx.
Qed.

Lemma crossCaps_nonneg seller buyer x :
  validPair (WithRatios.irt seller) -> validPair (WithRatios.base seller) ->
  validPair (WithRatios.irt buyer) -> validPair (WithRatios.base buyer) ->
  x ∈ (let '(l1, l2, l3, l4) := crossCaps seller buyer in [l1; l2; l3; l4]) ->
  (0 <=? x)%float = true.
Proof.
  intros (_ & _ & _ & _ & _ & _ & Hsq & _) (Hb & Hbf & _ & _ & Hsb & _)
         (_ & _ & _ & _ & Hbi & Hbif & _) (_ & _ & Ha & Haf & _ & _ & Hbq & Hbqf) Hx.
  unfold crossCaps in Hx. rewrite Hb in Hx.
  repeat (apply elem_of_cons in Hx as [->|Hx]; [try done|]).
  - by apply converted_nonneg.
  - by apply converted_nonneg.
  - by apply elem_of_nil in Hx.
Qed.

(** C4: in every opportunity the finders emit, the volume is the notional of
    the minimum of the leg capacities converted into the common unit of the
    cycle, and [bottleneckLeg] is the first leg whose capacity equals that
    minimum: no leg has less, and every leg before it has strictly more.
    Cross-pairs are taken over pairs that satisfy the [MarketPair]
    invariant. *)
Theorem bottleneck_leg_is_first_minimum pairs baseCurrency feeRatePct maxResults o :
  o ∈ findTriangles pairs baseCurrency feeRatePct
  \/ o ∈ findCrossPairs pairs baseCurrency feeRatePct maxResults
  \/ o ∈ findAllOpportunities pairs baseCurrency feeRatePct ->
  (Opportunity.type o = cross -> forall p, p ∈ pairs -> validPair p) ->
  Opportunity.maxVolumeIRT o = notional o (JS.Math_min (legCapacities o))
  /\ firstArgmin (legCapacities o) (JS.Math_min (legCapacities o))
       (Opportunity.bottleneckLeg o).
Proof.
  assert (Ht : forall o, o ∈ findTriangles pairs baseCurrency feeRatePct ->
    Opportunity.maxVolumeIRT o = notional o (JS.Math_min (legCapacities o))
    /\ firstArgmin (legCapacities o) (JS.Math_min (legCapacities o))
         (Opportunity.bottleneckLeg o)).
  { intros o' (bridge & e & _ & _ & Ho)%elem_of_findTriangles.
    apply elem_of_triangleEmit in Ho as [(_ & Hv & ->)|(_ & Hv & ->)];
      (split; [reflexivity|]).
    - rewrite legCapacities_cw.
      change (Opportunity.bottleneckLeg (cwOpportunity bridge baseCurrency _ e))
        with (bottleneck3 (min3 (cwCaps bridge e)) (cwCaps bridge e)).
      unfold cwVol, min3 in *. destruct (cwCaps bridge e) as [[l1 l2] l3].
      apply bottleneck3_firstArgmin. by eapply mul_gt_zero_not_nan.
    - rewrite legCapacities_ccw.
      change (Opportunity.bottleneckLeg (ccwOpportunity bridge baseCurrency _ e))
        with (bottleneck3 (min3 (ccwCaps bridge e)) (ccwCaps bridge e)).
      unfold ccwVol, min3 in *. destruct (ccwCaps bridge e) as [[l1 l2] l3].
      apply bottleneck3_firstArgmin. by eapply mul_mul_gt_zero_not_nan. }
  assert (Hc : forall n o, o ∈ findCrossPairs pairs baseCurrency feeRatePct n ->
    (Opportunity.type o = cross -> forall p, p ∈ pairs -> validPair p) ->
    Opportunity.maxVolumeIRT o = notional o (JS.Math_min (legCapacities o))
    /\ firstArgmin (legCapacities o) (JS.Math_min (legCapacities o))
         (Opportunity.bottleneckLeg o)).
  { intros n o' (s & b & Hs & Hb & Ho)%elem_of_findCrossPairs Hv.
    apply elem_of_crossEmit in Ho as (_ & _ & _ & _ & ->).
    split; [reflexivity|].
    specialize (Hv eq_refl).
    destruct (buildAssetEntries_valid _ _ _ Hv Hs) as [Hs1 Hs2].
    destruct (buildAssetEntries_valid _ _ _ Hv Hb) as [Hb1 Hb2].
    pose proof (fun x => crossCaps_nonneg (withRatio s) (withRatio b) x Hs1 Hs2 Hb1 Hb2) as Hx.
    rewrite legCapacities_cross.
    change (Opportunity.bottleneckLeg (crossOpportunity baseCurrency _ (withRatio s) (withRatio b)))
      with (bottleneck4 (min4 (crossCaps (withRatio s) (withRatio b)))
              (crossCaps (withRatio s) (withRatio b))).
    unfold min4.
    destruct (crossCaps (withRatio s) (withRatio b)) as [[[l1 l2] l3] l4].
    apply bottleneck4_firstArgmin, Math_min_not_nan.
    intros x Hin. by destruct (float_leb_not_nan _ _ (Hx x Hin)). }
  rewrite elem_of_findAllOpportunities.
  intros [H|[H|[H|H]]] Hv; eauto.
Qed.

Lemma bottleneck_leg_is_first_minimum_witness :
  let o := ccwOpportunity (MarketPair.mk "USDTIRT" "USDT" "IRT" 990 1000 1000 1000)
             "USDT" (3 * 0.35)%float
             (AssetEntry.mk "X" (MarketPair.mk "XIRT" "X" "IRT" 990 10 1000 10)
                (MarketPair.mk "XUSDT" "X" "USDT" 1.05 10 1.06 10)) in
  Opportunity.bottleneckLeg o = 1 /\
  firstArgmin (legCapacities o) (JS.Math_min (legCapacities o)) 1.
Proof.
  intros o. split; [reflexivity|].
  apply (bottleneck_leg_is_first_minimum (examplePairs 1000 1000) "USDT" 0.35%float 200 o).
  - left. vm_compute. apply list_elem_of_further, list_elem_of_here.
  - intros H. vm_compute in H. discriminate H.
Defined.

(** * The normalizer *)

Lemma clampQty_valid q :
  (0 <=? clampQty q)%float = true /\ JS.isFinite (clampQty q) = true.
Proof.
  unfold clampQty. destruct (JS.isFinite q) eqn:Hf, (JS.gt q 0) eqn:Hg; simpl;
    try (split; reflexivity).
  split; [by apply gt_zero_nonneg|done].
Qed.

Lemma clampQty_zero q :
  JS.isFinite q = false \/ (q <? 0)%float = true -> clampQty q = 0%float.
Proof.
  unfold clampQty. intros [->|H]; [done|].
  apply float_ltb_asym in H. unfold JS.gt. rewrite H. by rewrite andb_false_r.
Qed.

Lemma clampQty_keep q :
  JS.isFinite q = true -> JS.gt q 0 = true -> clampQty q = q.
Proof. unfold clampQty. by intros -> ->. Qed.

Lemma parseEntry_Some Number key value p :
  parseEntry Number key value = Some p ->
  key <> "status" /\
  exists book parsed bid0 bidRows ask0 askRows,
    value = JSObject book /\
    parseSymbol key = Some parsed /\
    bids book = Some (bid0 :: bidRows) /\ asks book = Some (ask0 :: askRows) /\
    JS.gt (cell Number bid0 0) 0 = true /\ JS.isFinite (cell Number bid0 0) = true /\
    JS.gt (cell Number ask0 0) 0 = true /\ JS.isFinite (cell Number ask0 0) = true /\
    p = {| MarketPair.symbol := key;
           MarketPair.asset := parsed.1;
           MarketPair.quote := parsed.2;
           MarketPair.bestBid := cell Number bid0 0;
           MarketPair.bestBidQty := clampQty (cell Number bid0 1);
           MarketPair.bestAsk := cell Number ask0 0;
           MarketPair.bestAskQty := clampQty (cell Number ask0 1) |}.
Proof.
  unfold parseEntry.
  destruct (String.eqb_spec key "status") as [|Hk]; [done|].
  destruct value as [| |book]; [done..|].
  destruct (parseSymbol key) as [parsed|]; [|done].
  destruct (bids book) as [[|bid0 bidRows]|] eqn:Eb; [done| |done].
  destruct (asks book) as [[|ask0 askRows]|] eqn:Ea; [done| |done].
  destruct (JS.gt (cell Number bid0 0) 0) eqn:E1; [|done].
  destruct (JS.gt (cell Number ask0 0) 0) eqn:E2; [|done].
  destruct (JS.isFinite (cell Number bid0 0)) eqn:E3; [|done].
  destruct (JS.isFinite (cell Number ask0 0)) eqn:E4; [|done].
  simpl. intros [= <-]. split; [done|].
  by exists book, parsed, bid0, bidRows, ask0, askRows.
Qed.

Lemma parseEntry_valid Number key value p :
  parseEntry Number key value = Some p -> validPair p.
Proof.
  intros (_ & book & parsed & bid0 & bidRows & ask0 & askRows & _ & _ & _ & _
          & H1 & H2 & H3 & H4 & ->)%parseEntry_Some.
  unfold validPair; simpl.
  destruct (clampQty_valid (cell Number bid0 1)), (clampQty_valid (cell Number ask0 1)).
  done.
Qed.

Lemma parseAllPairs_valid Number data p :
  p ∈ parseAllPairs Number data -> validPair p.
Proof.
  rewrite parseAllPairs_omap, list_elem_of_omap.
  intros ([key value] & _ & H). by eapply parseEntry_valid.
Qed.

Lemma parseAllPairs_parsed Number data p :
  p ∈ parseAllPairs Number data ->
  parseSymbol (MarketPair.symbol p) = Some (MarketPair.asset p, MarketPair.quote p).
Proof.
  rewrite parseAllPairs_omap, list_elem_of_omap. intros ([key value] & _ & H).
  apply parseEntry_Some in H as (_ & ? & [a q] & ? & ? & ? & ? & _ & Hs & _ & _ & _ & _ & _ & _ & ->).
  done.
Qed.

Lemma parseAllPairs_quote Number data p :
  p ∈ parseAllPairs Number data ->
  MarketPair.quote p = "USDT" \/ MarketPair.quote p = "IRT".
Proof. intros H%parseAllPairs_parsed. by apply parseSymbol_Some in H as (_ & _ & ?). Qed.

(** C8: every pair [parseAllPairs] returns has positive finite best prices
    and non-negative finite quantities, each quantity being the source value
    when that is finite and positive and zero otherwise; it stems from an
    entry with non-empty [bids] and [asks]; and an entry whose [bids] or
    [asks] is missing or empty, or whose best bid or ask is not positive or
    not finite, yields no pair. *)
Theorem normalizer_invariants Number data :
  (forall p, p ∈ parseAllPairs Number data ->
     validPair p /\
     exists book bid0 bidRows ask0 askRows,
       (MarketPair.symbol p, JSObject book) ∈ data /\
       bids book = Some (bid0 :: bidRows) /\ asks book = Some (ask0 :: askRows) /\
       MarketPair.bestBid p = cell Number bid0 0 /\
       MarketPair.bestAsk p = cell Number ask0 0 /\
       MarketPair.bestBidQty p = clampQty (cell Number bid0 1) /\
       MarketPair.bestAskQty p = clampQty (cell Number ask0 1))
  /\ (forall q, (JS.isFinite q = false \/ (q <? 0)%float = true -> clampQty q = 0%float)
             /\ (JS.isFinite q = true -> JS.gt q 0 = true -> clampQty q = q))
  /\ (forall key book,
        (bids book = None \/ bids book = Some [] \/
         asks book = None \/ asks book = Some [] \/
         exists bid0 bidRows ask0 askRows,
           bids book = Some (bid0 :: bidRows) /\ asks book = Some (ask0 :: askRows) /\
           (JS.gt (cell Number bid0 0) 0 = false \/ JS.isFinite (cell Number bid0 0) = false \/
            JS.gt (cell Number ask0 0) 0 = false \/ JS.isFinite (cell Number ask0 0) = false)) ->
        parseEntry Number key (JSObject book) = None)
  /\ parseAllPairs Number data
     = omap (fun entry => parseEntry Number entry.1 entry.2) data.
Proof.
  split; [|split; [|split]].
  - intros p Hp. split; [by eapply parseAllPairs_valid|].
    rewrite parseAllPairs_omap, list_elem_of_omap in Hp.
    destruct Hp as ([key value] & Hin & H). simpl in H.
    apply parseEntry_Some in H
      as (_ & book & parsed & bid0 & bidRows & ask0 & askRows & -> & _ & Hb & Ha & _ & _ & _ & _ & ->).
    by exists book, bid0, bidRows, ask0, askRows.
  - intros q. split; [apply clampQty_zero|apply clampQty_keep].
  - intros key book H. destruct (parseEntry Number key (JSObject book)) as [p|] eqn:E; [|done].
    apply parseEntry_Some in E
      as (_ & book' & parsed & bid0 & bidRows & ask0 & askRows & [= <-] & _ & Hb & Ha
          & H1 & H2 & H3 & H4 & _).
    destruct H as [H|[H|[H|[H|(b & bs & a & as_ & Hb' & Ha' & H)]]]]; try congruence.
    rewrite Hb in Hb'. rewrite Ha in Ha'. injection Hb' as <- <-. injection Ha' as <- <-.
    destruct H as [H|[H|[H|H]]]; congruence.
  - apply parseAllPairs_omap.
Qed.

Lemma normalizer_invariants_witness :
  validPair (MarketPair.mk "XIRT" "X" "IRT" 990 10 1000 10)
  /\ parseEntry exampleNumber "XIRT"
       (JSObject {| bids := Some []; asks := Some [["1000"; "10"]] |}) = None.
Proof.
  destruct (normalizer_invariants exampleNumber [("XIRT", book "990" "10" "1000" "10")])
    as (Hvalid & _ & Hskip & _).
  split.
  - apply (Hvalid (MarketPair.mk "XIRT" "X" "IRT" 990 10 1000 10)).
    vm_compute. apply list_elem_of_here.
  - apply Hskip. right. left. reflexivity.
Defined.

(** * Which triangles are emitted *)

Lemma Math_min_zero caps z :
  z ∈ caps -> (z =? 0)%float = true ->
  (forall x, x ∈ caps -> (0 <=? x)%float = true) ->
  (JS.Math_min caps =? 0)%float = true.
Proof.
  intros Hz Ez Hpos.
  assert (Hn : is_nan (JS.Math_min caps) = false).
  { apply Math_min_not_nan. intros x Hx. by destruct (float_leb_not_nan _ _ (Hpos x Hx)). }
  apply float_leb_antisym.
  - eapply float_leb_trans; [by apply Math_min_lower|by apply float_eqb_leb].
  - destruct (Math_min_attained caps) as (x & Hx & Ex); [by intros ->; apply elem_of_nil in Hz|done|].
    eapply float_leb_trans; [by apply Hpos|]. by apply float_eqb_leb, float_eqb_sym.
Qed.

Lemma cwVol_zero bridge e :
  validPair bridge -> validPair (AssetEntry.irt e) -> validPair (AssetEntry.base e) ->
  (MarketPair.bestAskQty (AssetEntry.irt e) =? 0)%float = true ->
  (cwVol bridge e =? 0)%float = true.
Proof.
  intros Hb Hi Hx Hz. unfold cwVol.
  apply mul_zero_finite; [|apply Hi].
  pose proof (fun x => cwCaps_nonneg bridge e x Hb Hi Hx) as Hpos.
  unfold min3. unfold cwCaps in *.
  eapply Math_min_zero; [|exact Hz|exact Hpos]. left.
Qed.

Lemma ccwVol_zero bridge e :
  validPair bridge -> validPair (AssetEntry.irt e) -> validPair (AssetEntry.base e) ->
  (MarketPair.bestAskQty bridge =? 0)%float = true ->
  (ccwVol bridge e =? 0)%float = true.
Proof.
  intros Hb Hi Hx Hz. unfold ccwVol.
  apply mul_zero_finite; [|apply Hb]. apply mul_zero_finite; [|apply Hx].
  pose proof (fun x => ccwCaps_nonneg bridge e x Hb Hi Hx) as Hpos.
  unfold min3. unfold ccwCaps in *.
  destruct Hx as (_ & _ & Ha & Haf & _).
  eapply Math_min_zero; [left| |exact Hpos].
  rewrite Ha. by apply div_zero.
Qed.

(** C6: [findTriangles] walks the asset entries and, for each of them and
    each of the two directions, emits the candidate exactly when its rate is
    finite and its volume is positive, whatever the sign of [netPct]
    (the example snapshot yields a triangle with negative [netPct]); over
    valid pairs a cycle whose entry pair has [bestAskQty = 0] has volume zero
    and is not emitted. *)
Theorem triangle_emission pairs baseCurrency feeRatePct :
  findTriangles pairs baseCurrency feeRatePct
  = match indexPairs pairs !! indexKey baseCurrency "IRT" with
    | None => []
    | Some bridge =>
        buildAssetEntries pairs baseCurrency ≫= fun e =>
          (if JS.isFinite (cwRate bridge e) && JS.gt (cwVol bridge e) 0
           then [cwOpportunity bridge baseCurrency (3 * feeRatePct)%float e] else [])
          ++ (if JS.isFinite (ccwRate bridge e) && JS.gt (ccwVol bridge e) 0
              then [ccwOpportunity bridge baseCurrency (3 * feeRatePct)%float e] else [])
    end
  /\ (exists o, o ∈ findTriangles (examplePairs 1000 1000) "USDT" 0.35%float
                /\ (Opportunity.netPct o <? 0)%float = true)
  /\ (forall bridge e,
        validPair bridge -> validPair (AssetEntry.irt e) -> validPair (AssetEntry.base e) ->
        ((MarketPair.bestAskQty (AssetEntry.irt e) =? 0)%float = true ->
         (cwVol bridge e =? 0)%float = true /\ JS.gt (cwVol bridge e) 0 = false)
        /\ ((MarketPair.bestAskQty bridge =? 0)%float = true ->
            (ccwVol bridge e =? 0)%float = true /\ JS.gt (ccwVol bridge e) 0 = false)).
Proof.
  split; [apply findTriangles_bind|split].
  - eexists. split; [vm_compute; apply list_elem_of_further, list_elem_of_here|reflexivity].
  - intros bridge e Hb Hi Hx. split; intros Hz.
    + pose proof (cwVol_zero bridge e Hb Hi Hx Hz) as H.
      split; [exact H|by apply eqb_zero_not_gt].
    + pose proof (ccwVol_zero bridge e Hb Hi Hx Hz) as H.
      split; [exact H|by apply eqb_zero_not_gt].
Qed.

Lemma triangle_emission_witness :
  let bridge := MarketPair.mk "USDTIRT" "USDT" "IRT" 990 1000 1000 0 in
  let e := AssetEntry.mk "X" (MarketPair.mk "XIRT" "X" "IRT" 990 10 1000 0)
             (MarketPair.mk "XUSDT" "X" "USDT" 1.05 10 1.06 10) in
  JS.isFinite (cwRate bridge e) = true /\ JS.gt (cwVol bridge e) 0 = false
  /\ JS.gt (ccwVol bridge e) 0 = false.
Proof.
  intros bridge e.
  destruct (triangle_emission [] "USDT" 0.35%float) as (_ & _ & H).
  pose proof (H bridge e ltac:(repeat split; reflexivity)
                ltac:(repeat split; reflexivity) ltac:(repeat split; reflexivity))
    as [Hcw Hccw].
  split; [reflexivity|]. split; [apply (Hcw eq_refl)|apply (Hccw eq_refl)].
Defined.

(** * Ranking and bounds *)

(** C3: [findAllOpportunities] returns the triangles followed by the
    cross-pairs (the latter as [findCrossPairs] returns them under its default
    [maxResults]), rearranged and nothing else: the result is a permutation of
    the concatenation, of the same length, descending by [netPct] (no
    opportunity is followed by one of greater [netPct], and where every
    [netPct] is a number each is at least all later ones), and opportunities of
    equal [netPct] keep the order of the concatenation. *)
Theorem findAllOpportunities_ranks_concatenation pairs baseCurrency feeRatePct :
  let triangles := findTriangles pairs baseCurrency feeRatePct in
  let crosses := findCrossPairs pairs baseCurrency feeRatePct defaultMaxResults in
  let all := findAllOpportunities pairs baseCurrency feeRatePct in
  all = JS.Array_sort byNetPctDesc (triangles ++ crosses)
  /\ all ≡ₚ triangles ++ crosses
  /\ length all = length triangles + length crosses
  /\ Sorted netPctDescending all
  /\ ((forall o, o ∈ all -> is_nan (Opportunity.netPct o) = false) ->
      StronglySorted netPctAtLeast all)
  /\ forall v,
       filter (fun o => (Opportunity.netPct o =? v)%float = true) all
       = filter (fun o => (Opportunity.netPct o =? v)%float = true) (triangles ++ crosses).
Proof.
  intros triangles crosses all. subst all. unfold findAllOpportunities.
  fold triangles crosses. split; [reflexivity|]. split; [apply Array_sort_perm|].
  split; [by rewrite Array_sort_length, length_app|].
  split; [apply Array_sort_byNetPctDesc_descending|]. split.
  - intros Hn. apply descending_numbers_throughout; [exact Hn|].
    apply Array_sort_byNetPctDesc_descending.
  - intros v. apply Array_sort_byNetPctDesc_stable.
Qed.

Lemma findAllOpportunities_ranks_concatenation_witness :
  StronglySorted netPctAtLeast (findAllOpportunities (examplePairs 1000 1000) "USDT" 0.35%float)
  /\ length (findAllOpportunities (examplePairs 1000 1000) "USDT" 0.35%float) = 2.
Proof.
  destruct (findAllOpportunities_ranks_concatenation (examplePairs 1000 1000) "USDT" 0.35%float)
    as (_ & _ & Hlen & _ & Hsorted & _).
  split; [|rewrite Hlen; reflexivity].
  apply Hsorted. intros o Ho. vm_compute in Ho.
  repeat (apply elem_of_cons in Ho as [->|Ho]; [reflexivity|]).
  by apply elem_of_nil in Ho.
Defined.

Lemma triangleEmit_length bridge baseCurrency totalFee e :
  length (triangleEmit bridge baseCurrency totalFee e) <= 2.
Proof.
  unfold triangleEmit. rewrite length_app.
  destruct (_ && _), (_ && _); simpl; lia.
Qed.

Lemma bind_length_le {A B} (f : A -> list B) n l :
  (forall x, length (f x) <= n) -> length (l ≫= f) <= n * length l.
Proof.
  intros Hf. induction l as [|x l IH]; [simpl; lia|].
  rewrite bind_cons, length_app. specialize (Hf x). simpl. lia.
Qed.

(** Over a snapshot with distinct symbols and for a bridge ticker without [:],
    the asset entries are one per bridgeable asset. *)
Lemma parseAllPairs_symbols Number data p :
  p ∈ parseAllPairs Number data -> MarketPair.symbol p ∈ data.*1.
Proof.
  rewrite parseAllPairs_omap, list_elem_of_omap. intros ([key value] & Hin & H).
  apply parseEntry_Some in H as (_ & ? & ? & ? & ? & ? & ? & _ & _ & _ & _ & _ & _ & _ & _ & ->).
  apply list_elem_of_fmap. by exists (key, value).
Qed.

Lemma parseAllPairs_NoDup_symbols Number data :
  NoDup data.*1 -> NoDup (MarketPair.symbol <$> parseAllPairs Number data).
Proof.
  rewrite parseAllPairs_omap.
  induction data as [|[key value] data IH]; csimpl; [constructor|].
  intros [Hk Hd]%NoDup_cons.
  destruct (parseEntry Number key value) as [p|] eqn:E; csimpl; [|by apply IH].
  apply NoDup_cons. split; [|by apply IH].
  intros (p' & Hs & Hp')%list_elem_of_fmap.
  rewrite <- parseAllPairs_omap in Hp'. apply parseAllPairs_symbols in Hp'.
  apply parseEntry_Some in E as (_ & ? & ? & ? & ? & ? & ? & _ & _ & _ & _ & _ & _ & _ & _ & ->).
  simpl in Hs. by rewrite <- Hs in Hp'.
Qed.

Lemma parseAllPairs_symbol_split Number data p :
  p ∈ parseAllPairs Number data ->
  MarketPair.symbol p = MarketPair.asset p +:+ MarketPair.quote p.
Proof. intros H%parseAllPairs_parsed. by apply parseSymbol_Some in H as (_ & ? & _). Qed.

Lemma assetEntries_NoDup idx baseCurrency pairs :
  NoDup (MarketPair.symbol <$> pairs) ->
  (forall p, p ∈ pairs -> MarketPair.symbol p = MarketPair.asset p +:+ MarketPair.quote p) ->
  NoDup (AssetEntry.asset <$> omap (assetEntryOf idx baseCurrency) pairs).
Proof.
  induction pairs as [|p pairs IH]; csimpl; [constructor|].
  intros [Hp Hd]%NoDup_cons Hsplit.
  assert (IH' := IH Hd (fun q Hq => Hsplit q (list_elem_of_further _ _ _ Hq))).
  destruct (assetEntryOf idx baseCurrency p) as [e|] eqn:E; csimpl; [|done].
  apply NoDup_cons. split; [|done].
  intros (e' & Ha & (p' & Hp' & E')%list_elem_of_omap)%list_elem_of_fmap.
  apply Hp, list_elem_of_fmap. exists p'. split; [|done].
  unfold assetEntryOf in E, E'.
  destruct (negb (String.eqb (MarketPair.quote p) "IRT") || _) eqn:C; [done|].
  destruct (negb (String.eqb (MarketPair.quote p') "IRT") || _) eqn:C'; [done|].
  apply orb_false_elim in C as [C _]. apply orb_false_elim in C' as [C' _].
  apply negb_false_iff, String.eqb_eq in C, C'.
  destruct (idx !! _) in E; [|done]. destruct (idx !! _) in E'; [|done].
  injection E as <-. injection E' as <-. simpl in Ha.
  rewrite (Hsplit p), (Hsplit p') by (by left || by right).
  by rewrite C, C', Ha.
Qed.

Lemma assetEntries_bridgeable Number data baseCurrency e :
  colonFree baseCurrency = true ->
  e ∈ buildAssetEntries (parseAllPairs Number data) baseCurrency ->
  bridgeable (parseAllPairs Number data) baseCurrency (AssetEntry.asset e).
Proof.
  intros Hc (Hi & Hb & Ha & Hq & _ & Hk)%elem_of_buildAssetEntries. split.
  - by exists (AssetEntry.irt e).
  - exists (AssetEntry.base e). split; [done|].
    apply indexKey_inj in Hk; [done| |done].
    by destruct (parseAllPairs_quote _ _ _ Hb) as [->| ->].
Qed.

Lemma assetEntries_at_most_bridgeable Number data baseCurrency assets :
  NoDup data.*1 -> colonFree baseCurrency = true ->
  (forall a, bridgeable (parseAllPairs Number data) baseCurrency a -> a ∈ assets) ->
  length (buildAssetEntries (parseAllPairs Number data) baseCurrency) <= length assets.
Proof.
  intros Hd Hc Hall.
  rewrite <- (length_fmap AssetEntry.asset).
  apply submseteq_length, NoDup_submseteq.
  - rewrite buildAssetEntries_omap. apply assetEntries_NoDup.
    + by apply parseAllPairs_NoDup_symbols.
    + intros p. apply parseAllPairs_symbol_split.
  - intros a (e & -> & He)%list_elem_of_fmap. by eapply Hall, assetEntries_bridgeable.
Qed.

(** With N asset entries in the bridge index, [findTriangles] returns at
    most 2N opportunities, two per entry; over a snapshot with distinct symbols
    and a bridge ticker without [:] the entries are at most the bridgeable
    assets (those with a local-currency pair and a bridge-currency pair), so
    that N may be their number; and [findCrossPairs] returns at most
    [maxResults] opportunities, descending by [netPct] (no opportunity is
    followed by one of greater [netPct], and where every [netPct] is a number
    each is at least all later ones). *)
Theorem finder_result_bounds pairs baseCurrency feeRatePct maxResults :
  length (findTriangles pairs baseCurrency feeRatePct)
  <= 2 * length (buildAssetEntries pairs baseCurrency)
  /\ (forall Number data assets,
        pairs = parseAllPairs Number data ->
        NoDup data.*1 -> colonFree baseCurrency = true ->
        NoDup assets -> (forall a, a ∈ assets <-> bridgeable pairs baseCurrency a) ->
        length (findTriangles pairs baseCurrency feeRatePct) <= 2 * length assets)
  /\ length (findCrossPairs pairs baseCurrency feeRatePct maxResults) <= maxResults
  /\ Sorted netPctDescending (findCrossPairs pairs baseCurrency feeRatePct maxResults)
  /\ ((forall o, o ∈ findCrossPairs pairs baseCurrency feeRatePct maxResults ->
                 is_nan (Opportunity.netPct o) = false) ->
      StronglySorted netPctAtLeast
        (findCrossPairs pairs baseCurrency feeRatePct maxResults)).
Proof.
  assert (Hs : Sorted netPctDescending
                 (findCrossPairs pairs baseCurrency feeRatePct maxResults))
    by apply Sorted_take, Array_sort_byNetPctDesc_descending.
  assert (H : length (findTriangles pairs baseCurrency feeRatePct)
              <= 2 * length (buildAssetEntries pairs baseCurrency)).
  { rewrite findTriangles_bind. destruct (_ !! _) as [bridge|]; [|simpl; lia].
    apply bind_length_le. intros e. apply triangleEmit_length. }
  split; [exact H|split; [|split; [|split]]].
  - intros Number data assets -> Hd Hc _ Hall.
    pose proof (assetEntries_at_most_bridgeable Number data baseCurrency assets Hd Hc
                  (fun a => proj2 (Hall a))).
    lia.
  - apply slice0_length.
  - exact Hs.
  - intros Hn. by apply descending_numbers_throughout.
Qed.

Lemma finder_result_bounds_witness :
  length (findTriangles (parseAllPairs exampleNumber
            [ ("XIRT", book "990" "10" "1000" "10");
              ("XUSDT", book "1.05" "10" "1.06" "10");
              ("USDTIRT", book "990" "1000" "1000" "1000") ]) "USDT" 0.35%float)
  <= 2 * length ["X"].
Proof.
  set (data := [ ("XIRT", book "990" "10" "1000" "10");
                 ("XUSDT", book "1.05" "10" "1.06" "10");
                 ("USDTIRT", book "990" "1000" "1000" "1000") ]).
  destruct (finder_result_bounds (parseAllPairs exampleNumber data) "USDT" 0.35%float 200)
    as (_ & H & _).
  apply (H exampleNumber data ["X"] eq_refl).
  - vm_compute. repeat (constructor; [by intros H'; repeat (apply elem_of_cons in H' as [H'|H']; [discriminate H'|]); apply elem_of_nil in H'|]). constructor.
  - reflexivity.
  - repeat constructor. by intros H'%elem_of_nil.
  - intros a. split.
    + intros ->%list_elem_of_singleton. split.
      * exists (MarketPair.mk "XIRT" "X" "IRT" 990 10 1000 10).
        split; [vm_compute; apply list_elem_of_here|done].
      * exists (MarketPair.mk "XUSDT" "X" "USDT" 1.05 10 1.06 10).
        split; [vm_compute; apply list_elem_of_further, list_elem_of_here|done].
    + intros [_ (p & Hp & <- & Hq)]. vm_compute in Hp.
      repeat (apply elem_of_cons in Hp as [->|Hp]; [try discriminate Hq|]).
      * apply list_elem_of_here.
      * by apply elem_of_nil in Hp.
Defined.

(** * The quote suffixes and the bridge currency *)

(** C5 (as amended): the normalizer knows two fixed quote suffixes and takes
    no bridge parameter.  A symbol yields asset and quote exactly when it is a
    non-empty asset followed by USDT or by IRT; every returned pair is split
    that way; and a symbol of any other shape is skipped silently. *)
Theorem normalizer_suffix_rule Number :
  (forall symbol asset quote,
     parseSymbol symbol = Some (asset, quote) <->
     asset <> "" /\ symbol = asset +:+ quote /\ (quote = "USDT" \/ quote = "IRT"))
  /\ (forall data p, p ∈ parseAllPairs Number data ->
        parseSymbol (MarketPair.symbol p) = Some (MarketPair.asset p, MarketPair.quote p))
  /\ (forall key value, parseSymbol key = None -> parseEntry Number key value = None).
Proof.
  split; [apply parseSymbol_Some|split; [apply parseAllPairs_parsed|]].
  intros key value H. unfold parseEntry. rewrite H.
  destruct (String.eqb key "status"); [done|]. by destruct value.
Qed.

Lemma normalizer_suffix_rule_witness :
  parseSymbol "XUSDT" = Some ("X", "USDT")
  /\ parseEntry exampleNumber "ETHUSDC" (book "1.05" "10" "1.06" "10") = None.
Proof.
  destruct (normalizer_suffix_rule exampleNumber) as (Hrule & _ & Hskip).
  split.
  - apply Hrule. split; [discriminate|split; [reflexivity|by left]].
  - apply Hskip. reflexivity.
Defined.

(** The rule of the specification gives the symbol ETHUSDC the quote USDC
    under the bridge USDC; [parseSymbol] has no bridge to consult and skips the
    symbol, so the normalizer returns nothing for it. *)
Lemma suffix_rule_has_no_bridge_parameter :
  suffixRule "USDC" "ETHUSDC" = Some ("ETH", "USDC")
  /\ parseSymbol "ETHUSDC" = None
  /\ parseAllPairs exampleNumber [("ETHUSDC", book "1.05" "10" "1.06" "10")] = [].
Proof. repeat split; vm_compute; reflexivity. Qed.

(** Without an index key equal to the one looked up, nothing is found. *)
Lemma buildAssetEntries_nil pairs baseCurrency :
  (forall p p', p ∈ pairs -> p' ∈ pairs ->
     indexKey (MarketPair.asset p') (MarketPair.quote p')
     <> indexKey (MarketPair.asset p) baseCurrency) ->
  buildAssetEntries pairs baseCurrency = [].
Proof.
  intros H. destruct (buildAssetEntries pairs baseCurrency) as [|e l] eqn:E; [done|].
  assert (He : e ∈ buildAssetEntries pairs baseCurrency) by (rewrite E; left).
  apply elem_of_buildAssetEntries in He as (Hi & Hb & Ha & _ & _ & Hk).
  rewrite Ha in Hk. by destruct (H _ _ Hi Hb).
Qed.

Lemma findTriangles_no_entries pairs baseCurrency feeRatePct :
  buildAssetEntries pairs baseCurrency = [] ->
  findTriangles pairs baseCurrency feeRatePct = [].
Proof. intros H. rewrite findTriangles_bind, H. by destruct (_ !! _). Qed.

Lemma findCrossPairs_no_entries pairs baseCurrency feeRatePct maxResults :
  buildAssetEntries pairs baseCurrency = [] ->
  findCrossPairs pairs baseCurrency feeRatePct maxResults = [].
Proof.
  intros H. rewrite findCrossPairs_bind, H. cbv zeta. unfold JS.slice0.
  by destruct maxResults.
Qed.

(** For a bridge ticker without [:] other than the two quotes the normalizer
    knows, both finders return nothing. *)
Lemma unknown_bridge_finds_nothing Number data baseCurrency feeRatePct maxResults :
  colonFree baseCurrency = true ->
  baseCurrency <> "USDT" -> baseCurrency <> "IRT" ->
  findTriangles (parseAllPairs Number data) baseCurrency feeRatePct = []
  /\ findCrossPairs (parseAllPairs Number data) baseCurrency feeRatePct maxResults = [].
Proof.
  intros Hc H1 H2.
  assert (H : buildAssetEntries (parseAllPairs Number data) baseCurrency = []).
  { apply buildAssetEntries_nil. intros p p' _ Hp' Hk.
    apply indexKey_inj in Hk as [_ Hq]; [|by destruct (parseAllPairs_quote _ _ _ Hp') as [->| ->]|done].
    destruct (parseAllPairs_quote _ _ _ Hp'); congruence. }
  split; [by apply findTriangles_no_entries|by apply findCrossPairs_no_entries].
Qed.

(** C10: every pair of [parseAllPairs] is quoted in USDT or IRT, yet for the
    bridge [Y:USDT], which is neither, both finders return opportunities on
    the pairs normalized from [colonSnapshot]: the index key [X:Y:USDT] of the
    asset [X:Y] quoted in USDT is the key looked up for the asset X quoted in
    [Y:USDT]. *)
Theorem index_key_collision :
  Forall (fun p => MarketPair.quote p = "USDT" \/ MarketPair.quote p = "IRT")
    (parseAllPairs exampleNumber colonSnapshot)
  /\ "Y:USDT" <> "USDT" /\ "Y:USDT" <> "IRT"
  /\ length (findTriangles (parseAllPairs exampleNumber colonSnapshot)
               "Y:USDT" 0.35%float) = 4
  /\ length (findCrossPairs (parseAllPairs exampleNumber colonSnapshot)
               "Y:USDT" 0.35%float defaultMaxResults) = 2.
Proof.
  split; [|repeat split; try discriminate; vm_compute; reflexivity].
  apply Forall_forall. intros p Hp. by eapply parseAllPairs_quote.
Qed.

(** C7: the symbols of [colonSnapshot] are distinct and no asset of its
    normalized pairs is bridgeable for the bridge [Y:USDT], no pair being
    quoted in it, so that N = 0; yet [findTriangles] returns four
    opportunities, two for each of the assets X and Z, whose entries the index
    builds from the pairs [X:Y]/USDT and [Z:Y]/USDT: more than 2N, whatever
    list enumerates the bridgeable assets. *)
Theorem bridgeable_bound_exceeded :
  let pairs := parseAllPairs exampleNumber colonSnapshot in
  NoDup colonSnapshot.*1
  /\ (forall a, ~ bridgeable pairs "Y:USDT" a)
  /\ AssetEntry.asset <$> buildAssetEntries pairs "Y:USDT" = ["X"; "Z"]
  /\ MarketPair.symbol ∘ AssetEntry.base <$> buildAssetEntries pairs "Y:USDT"
     = ["X:YUSDT"; "Z:YUSDT"]
  /\ length (findTriangles pairs "Y:USDT" 0.35%float) = 4
  /\ (forall assets,
        (forall a, a ∈ assets <-> bridgeable pairs "Y:USDT" a) ->
        2 * length assets < length (findTriangles pairs "Y:USDT" 0.35%float)).
Proof.
  intros pairs.
  assert (Hnone : forall a, ~ bridgeable pairs "Y:USDT" a).
  { intros a [_ (p & Hp & _ & Hq)].
    by destruct (parseAllPairs_quote _ _ _ Hp) as [E|E]; rewrite E in Hq. }
  assert (Hlen : length (findTriangles pairs "Y:USDT" 0.35%float) = 4)
    by (vm_compute; reflexivity).
  split_and!; [|exact Hnone|vm_compute; reflexivity|vm_compute; reflexivity|exact Hlen|].
  - vm_compute.
    repeat (apply NoDup_cons; split;
            [intros H; repeat (apply elem_of_cons in H as [H|H]; [discriminate H|]);
             by apply elem_of_nil in H|]).
    apply NoDup_nil_2.
  - intros assets Hall. rewrite Hlen.
    destruct assets as [|a assets]; [simpl; lia|].
    destruct (Hnone a). apply Hall, list_elem_of_here.
Qed.

(** * The bridge pair *)

Lemma indexPairs_fold_agree pairs k : forall (m1 m2 : gmap string MarketPair.t),
  m1 !! k = m2 !! k ->
  fold_left (fun idx p => <[indexKey (MarketPair.asset p) (MarketPair.quote p) := p]> idx)
    pairs m1 !! k
  = fold_left (fun idx p => <[indexKey (MarketPair.asset p) (MarketPair.quote p) := p]> idx)
      pairs m2 !! k.
Proof.
  induction pairs as [|p pairs IH]; intros m1 m2 H; simpl; [done|].
  apply IH. destruct (decide (indexKey (MarketPair.asset p) (MarketPair.quote p) = k)) as [<-|Hk].
  - by rewrite !lookup_insert_eq.
  - by rewrite !lookup_insert_ne.
Qed.

(** Dropping a pair from the list changes the index at most at its key. *)
Lemma indexPairs_without l1 bp l2 k :
  k <> indexKey (MarketPair.asset bp) (MarketPair.quote bp) ->
  indexPairs (l1 ++ bp :: l2) !! k = indexPairs (l1 ++ l2) !! k.
Proof.
  intros Hk. unfold indexPairs. rewrite !fold_left_app. simpl.
  apply indexPairs_fold_agree. by rewrite lookup_insert_ne.
Qed.

Lemma omap_pointwise {A B} (f g : A -> option B) (l : list A) :
  (forall x, f x = g x) -> omap f l = omap g l.
Proof. intros H. induction l as [|x l IH]; csimpl; [done|]. by rewrite H, IH. Qed.

Lemma buildAssetEntries_without_bridge_pair l1 bp l2 baseCurrency :
  colonFree baseCurrency = true ->
  MarketPair.asset bp = baseCurrency -> MarketPair.quote bp = "IRT" ->
  buildAssetEntries (l1 ++ bp :: l2) baseCurrency
  = buildAssetEntries (l1 ++ l2) baseCurrency.
Proof.
  intros Hc Ha Hq. rewrite !buildAssetEntries_omap.
  assert (Hf : forall p,
    assetEntryOf (indexPairs (l1 ++ bp :: l2)) baseCurrency p
    = assetEntryOf (indexPairs (l1 ++ l2)) baseCurrency p).
  { intros p. unfold assetEntryOf.
    destruct (String.eqb_spec (MarketPair.asset p) baseCurrency) as [|Hp];
      [by rewrite !orb_true_r|].
    rewrite indexPairs_without; [done|].
    rewrite Ha, Hq. intros [E _]%indexKey_inj; done. }
  rewrite !omap_app. simpl.
  replace (assetEntryOf _ baseCurrency bp) with (@None AssetEntry.t).
  - f_equal; by apply omap_pointwise.
  - unfold assetEntryOf. rewrite Ha, String.eqb_refl. by rewrite orb_true_r.
Qed.

(** C2 (as amended): for tickers without [:], [findTriangles] returns nothing
    when no pair has the bridge currency as asset and IRT as quote, while
    [findCrossPairs] returns the same opportunities with or without that
    pair. *)
Theorem bridge_pair_matters_to_triangles_only pairs baseCurrency feeRatePct :
  ((forall p, p ∈ pairs -> colonFree (MarketPair.quote p) = true) ->
   (forall p, p ∈ pairs ->
      ~ (MarketPair.asset p = baseCurrency /\ MarketPair.quote p = "IRT")) ->
   findTriangles pairs baseCurrency feeRatePct = [])
  /\ (colonFree baseCurrency = true ->
      forall l1 bp l2 maxResults,
        pairs = l1 ++ bp :: l2 ->
        MarketPair.asset bp = baseCurrency -> MarketPair.quote bp = "IRT" ->
        findCrossPairs pairs baseCurrency feeRatePct maxResults
        = findCrossPairs (l1 ++ l2) baseCurrency feeRatePct maxResults).
Proof.
  split.
  - intros Hc Hno. unfold findTriangles.
    rewrite indexPairs_lookup_None; [done|].
    intros p Hp Hk. apply indexKey_inj in Hk as [Ha Hq]; [|by apply Hc|done].
    by destruct (Hno p Hp).
  - intros Hc l1 bp l2 maxResults -> Ha Hq.
    rewrite !findCrossPairs_bind. cbv zeta.
    by rewrite buildAssetEntries_without_bridge_pair.
Qed.

Lemma bridge_pair_matters_to_triangles_only_witness :
  findTriangles pairsWithoutBridge "USDT" 0.35%float = []
  /\ findCrossPairs (examplePairs 1000 1000) "USDT" 0.35%float defaultMaxResults
     = findCrossPairs [ MarketPair.mk "XIRT" "X" "IRT" 990 10 1000 10;
                        MarketPair.mk "XUSDT" "X" "USDT" 1.05 10 1.06 10 ]
         "USDT" 0.35%float defaultMaxResults.
Proof.
  split.
  - apply (bridge_pair_matters_to_triangles_only pairsWithoutBridge "USDT" 0.35%float).
    + intros p Hp.
      repeat (apply elem_of_cons in Hp as [->|Hp]; [reflexivity|]).
      by apply elem_of_nil in Hp.
    + intros p Hp [Ha Hq].
      repeat (apply elem_of_cons in Hp as [->|Hp]; [discriminate Ha|]).
      by apply elem_of_nil in Hp.
  - apply (proj2 (bridge_pair_matters_to_triangles_only
                    (examplePairs 1000 1000) "USDT" 0.35%float) eq_refl
             [ MarketPair.mk "XIRT" "X" "IRT" 990 10 1000 10;
               MarketPair.mk "XUSDT" "X" "USDT" 1.05 10 1.06 10 ]
             (MarketPair.mk "USDTIRT" "USDT" "IRT" 990 1000 1000 1000) []);
      reflexivity.
Defined.

(** [pairsWithoutBridge] holds no USDT/IRT pair; [findTriangles] returns
    nothing on it, [findCrossPairs] returns an opportunity. *)
Lemma cross_pairs_found_without_bridge_pair :
  Forall (fun p => ~ (MarketPair.asset p = "USDT" /\ MarketPair.quote p = "IRT"))
    pairsWithoutBridge
  /\ findTriangles pairsWithoutBridge "USDT" 0.35%float = []
  /\ length (findCrossPairs pairsWithoutBridge "USDT" 0.35%float defaultMaxResults) = 1.
Proof.
  split; [|split; vm_compute; reflexivity].
  repeat constructor; intros [H _]; discriminate H.
Qed.

(** * The end-to-end example *)

Lemma Math_min_10_10 x : (10 <=? x)%float = true -> JS.Math_min [10; 10; x]%float = 10%float.
Proof.
  intros H. destruct (float_leb_not_nan _ _ H) as [_ Hn].
  pose proof (leb_not_gt _ _ H) as Hg. unfold JS.gt in Hg.
  unfold JS.Math_min. cbn [JS.min_from].
  change (is_nan 10) with false. cbv iota.
  change (Leibniz.eqb 10 neg_zero) with false. cbv iota. cbn [andb].
  change (10 <? infinity)%float with true. cbv iota.
  change (10 <? 10)%float with false. cbv iota.
  rewrite Hn, Hg.
  change (Leibniz.eqb 10 zero) with false. by rewrite andb_false_r.
Qed.

(** C9 (as amended): on the example snapshot, with a bridge bid quantity that
    covers ten units of X, the first triangle is the forward one for X.  Its
    rate is (1.05 * 990) / 1000 = 1.0395; [grossPct] is within 1e-12 of 3.95;
    [feePct] is the binary64 product 3 * 0.35, which is 1.0499999999999998 and
    within 1e-15 of 1.05; [netPct] is within 1e-12 of 2.90; the capacities are
    10, 10 and the bridge quantity over 1.05, with minimum 10 at leg 0; the
    volume is 10000 IRT and the profit is within 1e-9 of 290 IRT. *)
Theorem forward_triangle_example bridgeBidQty bridgeAskQty :
  (10 <=? bridgeBidQty / 1.05)%float = true ->
  exists o,
    head (findTriangles (examplePairs bridgeBidQty bridgeAskQty) "USDT" 0.35%float) = Some o
    /\ Opportunity.type o = triangle
    /\ Opportunity.direction o = cw
    /\ Opportunity.assets o = ["X"]
    /\ Opportunity.rate o = (1.05 * 990 / 1000)%float
    /\ Opportunity.rate o = 1.0395%float
    /\ (abs (Opportunity.grossPct o - 3.95) <? 1e-12)%float = true
    /\ Opportunity.feePct o = (3 * 0.35)%float
    /\ Opportunity.feePct o = 1.0499999999999998%float
    /\ (abs (Opportunity.feePct o - 1.05) <? 1e-15)%float = true
    /\ (abs (Opportunity.netPct o - 2.90) <? 1e-12)%float = true
    /\ legCapacities o = [10; 10; bridgeBidQty / 1.05]%float
    /\ JS.Math_min (legCapacities o) = 10%float
    /\ Opportunity.bottleneckLeg o = 0
    /\ Opportunity.maxVolumeIRT o = 10000%float
    /\ (abs (Opportunity.expectedProfitIRT o - 290) <? 1e-9)%float = true.
Proof.
  intros Hq.
  set (bridge := MarketPair.mk "USDTIRT" "USDT" "IRT" 990 bridgeBidQty 1000 bridgeAskQty).
  set (e := AssetEntry.mk "X" (MarketPair.mk "XIRT" "X" "IRT" 990 10 1000 10)
              (MarketPair.mk "XUSDT" "X" "USDT" 1.05 10 1.06 10)).
  assert (Hcaps : cwCaps bridge e = (10, 10, bridgeBidQty / 1.05)%float) by reflexivity.
  assert (Hmin : min3 (cwCaps bridge e) = 10%float).
  { rewrite Hcaps. by apply Math_min_10_10. }
  assert (Hvol : cwVol bridge e = 10000%float).
  { unfold cwVol. rewrite Hmin. reflexivity. }
  exists (cwOpportunity bridge "USDT" (3 * 0.35)%float e).
  split.
  { rewrite findTriangles_bind.
    replace (indexPairs (examplePairs bridgeBidQty bridgeAskQty) !! indexKey "USDT" "IRT")
      with (Some bridge) by (vm_compute; reflexivity).
    replace (buildAssetEntries (examplePairs bridgeBidQty bridgeAskQty) "USDT")
      with [e] by (vm_compute; reflexivity).
    rewrite bind_singleton. unfold triangleEmit. rewrite Hvol.
    change (JS.isFinite (cwRate bridge e) && JS.gt 10000 0) with true. reflexivity. }
  repeat split; try reflexivity.
  - rewrite legCapacities_cw, Hcaps. by apply Math_min_10_10.
  - change (Opportunity.bottleneckLeg (cwOpportunity bridge "USDT" (3 * 0.35)%float e))
      with (bottleneck3 (min3 (cwCaps bridge e)) (cwCaps bridge e)).
    rewrite Hmin, Hcaps. reflexivity.
  - exact Hvol.
  - change (Opportunity.expectedProfitIRT (cwOpportunity bridge "USDT" (3 * 0.35)%float e))
      with (((cwRate bridge e - 1) * 100 - 3 * 0.35) / 100 * cwVol bridge e)%float.
    rewrite Hvol. reflexivity.
Qed.

Lemma forward_triangle_example_witness :
  exists o,
    head (findTriangles (examplePairs 1000 1000) "USDT" 0.35%float) = Some o
    /\ Opportunity.netPct o = 2.9000000000000092%float
    /\ Opportunity.maxVolumeIRT o = 10000%float.
Proof.
  destruct (forward_triangle_example 1000 1000 eq_refl) as (o & Ho & H).
  exists o. split; [exact Ho|].
  vm_compute in Ho. injection Ho as <-. split; reflexivity.
Defined.

(** On the example snapshot the [feePct] of the forward triangle, 3 * 0.35 in
    binary64, is 1.0499999999999998: comparing it with 1.05 yields false. *)
Lemma example_fee_is_rounded :
  exists o,
    head (findTriangles (examplePairs 1000 1000) "USDT" 0.35%float) = Some o
    /\ Opportunity.direction o = cw
    /\ Opportunity.feePct o = 1.0499999999999998%float
    /\ (Opportunity.feePct o =? 1.05)%float = false
    /\ Opportunity.feePct o <> 1.05%float.
Proof.
  eexists. split; [vm_compute; reflexivity|].
  repeat split; try (vm_compute; reflexivity).
  intros H. apply Leibniz.eqb_spec in H. vm_compute in H. discriminate H.
Qed.

(** * Signs of products and quotients, and results that stay numbers *)

Module FloatSigns.

Import FloatFacts.
Local Open Scope float_scope.

Section Rounding.

Variables prec emax : Z.

Lemma signed_not_nan s r : signed s r -> r <> S754_nan.
Proof. by destruct r. Qed.

Lemma signed_false_not_neg r : signed false r -> SFltb r (S754_zero false) = false.
Proof. destruct r as [[]|[]| |[] m e]; cbn; first [reflexivity | discriminate | contradiction]. Qed.

Lemma SFdiv_finite_signed sx mx ex sy my ey :
  signed (xorb sx sy)
    (SFdiv prec emax (S754_finite sx mx ex) (S754_finite sy my ey)).
Proof.
  cbn -[SFdiv_core_binary binary_round_aux].
  destruct (SFdiv_core_binary prec emax (Z.pos mx) ex (Z.pos my) ey) as [[mz ez] lz] eqn:E.
  apply binary_round_aux_signed.
  unfold SFdiv_core_binary in E.
  destruct (Z.div_eucl _ _) as [q r] eqn:Ed. inversion E; subst.
  match type of Ed with Z.div_eucl ?a ?b = _ =>
    assert (Ha : (0 <= a)%Z); [| pose proof (Z.div_pos a b Ha ltac:(lia)) as Hq;
      unfold Z.div in Hq; rewrite Ed in Hq; exact Hq] end.
  destruct (_ - _ - _)%Z; try lia. apply Z.shiftl_nonneg. lia.
Qed.

Lemma SFmul_finite_signed sx mx ex sy my ey :
  signed (xorb sx sy)
    (SFmul prec emax (S754_finite sx mx ex) (S754_finite sy my ey)).
Proof. cbn -[binary_round_aux]. apply binary_round_aux_signed. lia. Qed.

Lemma binary_normalize_not_nan m e sz : binary_normalize prec emax m e sz <> S754_nan.
Proof.
  destruct m; simpl; [discriminate| |]; eapply signed_not_nan, binary_round_signed.
Qed.

(** A positive product with a factor that is not [<= 0] has a positive
    other factor; a negative one a negative other factor. *)
Lemma SFmul_pos_factor a v :
  SFltb (S754_zero false) (SFmul prec emax a v) = true ->
  SFleb v (S754_zero false) = false ->
  SFltb (S754_zero false) a = true.
Proof.
  destruct a as [sa|sa| |sa ma ea], v as [sv|sv| |sv mv ev];
    try (pose proof (SFmul_finite_signed sa ma ea sv mv ev) as Hs; revert Hs;
         generalize (SFmul prec emax (S754_finite sa ma ea) (S754_finite sv mv ev));
         intros r Hs);
    try (destruct sa); try (destruct sv); cbn; try discriminate; try reflexivity.
  intros H. apply signed_true_not_pos in Hs. congruence.
Qed.

Lemma SFmul_neg_factor a v :
  SFltb (SFmul prec emax a v) (S754_zero false) = true ->
  SFleb v (S754_zero false) = false ->
  SFltb a (S754_zero false) = true.
Proof.
  destruct a as [sa|sa| |sa ma ea], v as [sv|sv| |sv mv ev];
    try (pose proof (SFmul_finite_signed sa ma ea sv mv ev) as Hs; revert Hs;
         generalize (SFmul prec emax (S754_finite sa ma ea) (S754_finite sv mv ev));
         intros r Hs);
    try (destruct sa); try (destruct sv); cbn; try discriminate; try reflexivity.
  intros H. apply signed_false_not_neg in Hs. congruence.
Qed.

(** The quotient by a positive divisor has the sign of the dividend. *)
Lemma SFdiv_pos_num n d :
  SFltb (S754_zero false) d = true ->
  SFltb (S754_zero false) (SFdiv prec emax n d) = true ->
  SFltb (S754_zero false) n = true.
Proof.
  destruct n as [sn|sn| |sn mn en], d as [sd|sd| |sd md ed];
    try (pose proof (SFdiv_finite_signed sn mn en sd md ed) as Hs; revert Hs;
         generalize (SFdiv prec emax (S754_finite sn mn en) (S754_finite sd md ed));
         intros r Hs);
    try (destruct sn); try (destruct sd); cbn; try discriminate; try reflexivity.
  intros _ H. apply signed_true_not_pos in Hs. congruence.
Qed.

Lemma SFdiv_neg_num n d :
  SFltb (S754_zero false) d = true ->
  SFltb (SFdiv prec emax n d) (S754_zero false) = true ->
  SFltb n (S754_zero false) = true.
Proof.
  destruct n as [sn|sn| |sn mn en], d as [sd|sd| |sd md ed];
    try (pose proof (SFdiv_finite_signed sn mn en sd md ed) as Hs; revert Hs;
         generalize (SFdiv prec emax (S754_finite sn mn en) (S754_finite sd md ed));
         intros r Hs);
    try (destruct sn); try (destruct sd); cbn; try discriminate; try reflexivity.
  intros _ H. apply signed_false_not_neg in Hs. congruence.
Qed.

(** Subtracting a finite number from a number, or multiplying a number by a
    finite number other than zero, gives a number. *)
Lemma SFsub_not_nan x y :
  x <> S754_nan ->
  match y with S754_zero _ | S754_finite _ _ _ => True | _ => False end ->
  SFsub prec emax x y <> S754_nan.
Proof.
  destruct x as [sx|sx| |sx mx ex], y as [sy|sy| |sy my ey];
    try (rewrite SFsub_finite; intros _ _; apply binary_normalize_not_nan);
    try (destruct sx); try (destruct sy); cbn; try discriminate; try contradiction.
Qed.

Lemma SFadd_not_nan x y :
  x <> S754_nan ->
  match y with S754_zero _ | S754_finite _ _ _ => True | _ => False end ->
  SFadd prec emax x y <> S754_nan.
Proof.
  destruct x as [sx|sx| |sx mx ex], y as [sy|sy| |sy my ey];
    try (intros _ _; cbn -[binary_normalize]; apply binary_normalize_not_nan);
    try (destruct sx); try (destruct sy); cbn; try discriminate; try contradiction.
Qed.

Lemma SFmul_not_nan x y :
  x <> S754_nan ->
  match y with S754_finite _ _ _ => True | _ => False end ->
  SFmul prec emax x y <> S754_nan.
Proof.
  destruct x as [sx|sx| |sx mx ex], y as [sy|sy| |sy my ey];
    try (intros _ _; eapply signed_not_nan, SFmul_finite_signed);
    cbn; try discriminate; try contradiction.
Qed.

End Rounding.

(** *** The same facts on primitive floats *)

Lemma ltb_zero_spec x : (x <? 0) = SFltb (Prim2SF x) (S754_zero false).
Proof. now rewrite FloatAxioms.ltb_spec, Prim2SF_zero. Qed.

Lemma leb_zero_spec x : (x <=? 0) = SFleb (Prim2SF x) (S754_zero false).
Proof. now rewrite FloatAxioms.leb_spec, Prim2SF_zero. Qed.

Lemma float_ltb_leb_trans x y z : (x <? y) = true -> (y <=? z) = true -> (x <? z) = true.
Proof.
  rewrite !FloatAxioms.ltb_spec, FloatAxioms.leb_spec.
  generalize (Prim2SF x) (Prim2SF y) (Prim2SF z); intros a b c; sf_order.
Qed.

Lemma gt_zero_not_leb v : JS.gt v 0 = true -> (v <=? 0) = false.
Proof.
  intros H. destruct (v <=? 0) eqn:E; [|done].
  apply leb_not_gt in E. congruence.
Qed.

Lemma not_leb_zero_pos v : is_nan v = false -> (v <=? 0) = false -> JS.gt v 0 = true.
Proof.
  intros Hn H. unfold JS.gt. destruct (0 <? v) eqn:E; [done|].
  rewrite (float_leb_total 0 v) in H; done.
Qed.

Lemma mul_pos_factor a v :
  JS.gt (a * v) 0 = true -> (v <=? 0) = false -> JS.gt a 0 = true.
Proof.
  rewrite !gt_zero_spec, leb_zero_spec, FloatAxioms.mul_spec. apply SFmul_pos_factor.
Qed.

Lemma mul_neg_factor a v :
  (a * v <? 0) = true -> (v <=? 0) = false -> (a <? 0) = true.
Proof.
  rewrite !ltb_zero_spec, leb_zero_spec, FloatAxioms.mul_spec. apply SFmul_neg_factor.
Qed.

Lemma div_pos_num n d :
  JS.gt d 0 = true -> JS.gt (n / d) 0 = true -> JS.gt n 0 = true.
Proof. rewrite !gt_zero_spec, FloatAxioms.div_spec. apply SFdiv_pos_num. Qed.

Lemma div_neg_num n d :
  JS.gt d 0 = true -> (n / d <? 0) = true -> (n <? 0) = true.
Proof.
  rewrite gt_zero_spec, !ltb_zero_spec, FloatAxioms.div_spec. apply SFdiv_neg_num.
Qed.

Lemma is_finite_not_nan x : is_finite x = true -> is_nan x = false.
Proof. rewrite is_finite_spec, is_nan_spec. by destruct (Prim2SF x). Qed.

Lemma sub_not_nan x y : is_nan x = false -> is_finite y = true -> is_nan (x - y) = false.
Proof.
  rewrite !is_nan_false, is_finite_spec, FloatAxioms.sub_spec. intros Hx Hy.
  apply SFsub_not_nan; [done|]. by destruct (Prim2SF y).
Qed.

Lemma add_not_nan x y : is_nan x = false -> is_finite y = true -> is_nan (x + y) = false.
Proof.
  rewrite !is_nan_false, is_finite_spec, FloatAxioms.add_spec. intros Hx Hy.
  apply SFadd_not_nan; [done|]. by destruct (Prim2SF y).
Qed.

Lemma mul_not_nan x y :
  is_nan x = false -> is_finite y = true -> (y =? 0) = false -> is_nan (x * y) = false.
Proof.
  rewrite !is_nan_false, is_finite_spec, FloatAxioms.eqb_spec, FloatAxioms.mul_spec,
    Prim2SF_zero.
  intros Hx Hy Hz. apply SFmul_not_nan; [done|].
  by destruct (Prim2SF y) as [[]|[]| |[] m e].
Qed.

(** [netPct] is a number as soon as the rate and the total fee are finite. *)
Lemma netPct_not_nan rate totalFee :
  is_finite rate = true -> is_finite totalFee = true ->
  is_nan ((rate - 1) * 100 - totalFee) = false.
Proof.
  intros Hr Hf. apply sub_not_nan; [|done].
  apply mul_not_nan; [|done|done].
  apply sub_not_nan; [|done]. by apply is_finite_not_nan.
Qed.

End FloatSigns.

(** * Base currency detection *)

Lemma elem_of_Set_add x s y : y ∈ ES.Set_add x s <-> y = x \/ y ∈ s.
Proof.
  unfold ES.Set_add. case_bool_decide as Hx.
  - split; [by right|]. by intros [->|?].
  - rewrite elem_of_app, list_elem_of_singleton. tauto.
Qed.

Lemma NoDup_Set_add x s : NoDup s -> NoDup (ES.Set_add x s).
Proof.
  unfold ES.Set_add. intros Hs. case_bool_decide as Hx; [done|].
  apply NoDup_app. split_and!; [done| |apply NoDup_singleton].
  intros y Hy ->%list_elem_of_singleton. done.
Qed.

Lemma elem_of_Set_delete x s y : y ∈ ES.Set_delete x s <-> y <> x /\ y ∈ s.
Proof. unfold ES.Set_delete. by rewrite list_elem_of_filter. Qed.

(** The first loop of [getAvailableBases] builds the same index as the
    finders, and the set of the quotes in order of first appearance. *)
Lemma getAvailableBases_loop pairs :
  forall (idx : gmap string MarketPair.t) (quotes : list string),
  fold_left
    (fun '(idx, quotes) p =>
       (<[indexKey (MarketPair.asset p) (MarketPair.quote p) := p]> idx,
        ES.Set_add (MarketPair.quote p) quotes))
    pairs (idx, quotes)
  = (fold_left
       (fun idx p => <[indexKey (MarketPair.asset p) (MarketPair.quote p) := p]> idx)
       pairs idx,
     fold_left (fun quotes p => ES.Set_add (MarketPair.quote p) quotes) pairs quotes).
Proof. induction pairs as [|p pairs IH]; intros idx quotes; simpl; [done|apply IH]. Qed.

Lemma elem_of_quotes pairs : forall quotes q,
  q ∈ fold_left (fun quotes p => ES.Set_add (MarketPair.quote p) quotes) pairs quotes
  <-> q ∈ quotes \/ exists p, p ∈ pairs /\ MarketPair.quote p = q.
Proof.
  induction pairs as [|p pairs IH]; intros quotes q; simpl.
  - split; [by left|]. intros [?|(p & Hp & _)]; [done|]. by apply elem_of_nil in Hp.
  - rewrite IH, elem_of_Set_add. split.
    + intros [[->|?]|(p' & Hp' & <-)]; [right|by left|right].
      * exists p. split; [apply list_elem_of_here|done].
      * exists p'. split; [by apply list_elem_of_further|done].
    + intros [?|(p' & Hp' & <-)]; [by left; right|].
      apply elem_of_cons in Hp' as [->|Hp']; [by left; left|].
      right. by exists p'.
Qed.

Lemma NoDup_quotes pairs : forall quotes,
  NoDup quotes ->
  NoDup (fold_left (fun quotes p => ES.Set_add (MarketPair.quote p) quotes) pairs quotes).
Proof.
  induction pairs as [|p pairs IH]; intros quotes Hq; simpl; [done|].
  by apply IH, NoDup_Set_add.
Qed.

Lemma fold_left_keep {A} (c : A -> bool) (l : list A) :
  fold_left (fun acc x => if c x then acc ++ [x] else acc) l []
  = filter (fun x => c x = true) l.
Proof.
  rewrite (fold_left_pointwise _ (fun acc x => acc ++ (if c x then [x] else []))).
  - rewrite fold_left_push. simpl.
    induction l as [|x l IH]; [done|].
    rewrite bind_cons, filter_cons, IH. by destruct (c x).
  - intros acc x. destruct (c x); [done|]. by rewrite app_nil_r.
Qed.

(** The bases before they are sorted. *)
Lemma getAvailableBases_unsorted pairs :
  getAvailableBases pairs
  = JS.Array_sort ES.SortCompare
      (filter
         (fun q => ES.Map_has (indexKey q "IRT") (indexPairs pairs)
                   && hasBridgedAsset (indexPairs pairs) pairs q = true)
         (ES.Set_delete "IRT"
            (fold_left (fun quotes p => ES.Set_add (MarketPair.quote p) quotes) pairs []))).
Proof.
  unfold getAvailableBases. rewrite getAvailableBases_loop. fold (indexPairs pairs).
  f_equal. rewrite <- fold_left_keep. apply fold_left_pointwise.
  intros bases q. by destruct (ES.Map_has _ _), (hasBridgedAsset _ _ _).
Qed.

Lemma assetEntryOf_is_Some idx baseCurrency p :
  is_Some (assetEntryOf idx baseCurrency p) <->
  String.eqb (MarketPair.quote p) "IRT"
  && negb (String.eqb (MarketPair.asset p) baseCurrency)
  && ES.Map_has (indexKey (MarketPair.asset p) baseCurrency) idx = true.
Proof.
  unfold assetEntryOf, ES.Map_has.
  destruct (String.eqb (MarketPair.quote p) "IRT"),
    (String.eqb (MarketPair.asset p) baseCurrency); simpl;
    try (split; [by intros [? [=]]|done]).
  destruct (idx !! _) as [bp|] eqn:E.
  - split; [intros _|by eexists]. by apply bool_decide_eq_true.
  - split; [by intros [? [=]]|]. intros [? [=]]%bool_decide_eq_true.
Qed.

Lemma hasBridgedAsset_entries pairs q :
  hasBridgedAsset (indexPairs pairs) pairs q = true <->
  buildAssetEntries pairs q <> [].
Proof.
  rewrite buildAssetEntries_omap. unfold hasBridgedAsset.
  generalize (indexPairs pairs) as idx. intros idx.
  induction pairs as [|p pairs IH]; simpl; [done|].
  rewrite orb_true_iff, IH, <- assetEntryOf_is_Some.
  destruct (assetEntryOf idx q p) as [e|]; simpl.
  - split; [done|]. intros _. left. by eexists.
  - split; [by intros [[? [=]]|?]|by right].
Qed.

Lemma elem_of_getAvailableBases pairs q :
  q ∈ getAvailableBases pairs <->
  (exists p, p ∈ pairs /\ MarketPair.quote p = q)
  /\ q <> "IRT"
  /\ is_Some (indexPairs pairs !! indexKey q "IRT")
  /\ buildAssetEntries pairs q <> [].
Proof.
  rewrite getAvailableBases_unsorted, elem_of_Array_sort, list_elem_of_filter,
    elem_of_Set_delete, elem_of_quotes, andb_true_iff, hasBridgedAsset_entries.
  unfold ES.Map_has. rewrite bool_decide_eq_true, elem_of_nil. tauto.
Qed.

(** X1: a currency is reported as an available base exactly when it is the
    quote of some pair, is not IRT, the index holds its bridge pair (the
    lookup [findTriangles] starts with), and [buildAssetEntries] finds at
    least one asset for it. *)
Theorem getAvailableBases_characterised pairs q :
  q ∈ getAvailableBases pairs <->
  (exists p, p ∈ pairs /\ MarketPair.quote p = q)
  /\ q <> "IRT"
  /\ (exists bridge, indexPairs pairs !! indexKey q "IRT" = Some bridge)
  /\ (exists e, e ∈ buildAssetEntries pairs q).
Proof.
  rewrite elem_of_getAvailableBases.
  assert (buildAssetEntries pairs q <> [] <-> exists e, e ∈ buildAssetEntries pairs q) as ->.
  { destruct (buildAssetEntries pairs q) as [|e l].
    - split; [done|]. by intros [e ?%elem_of_nil].
    - split; [|done]. intros _. exists e. apply list_elem_of_here. }
  done.
Qed.

(** ** The order of the reported bases *)

Lemma ascii_compare_lt_trans a b c :
  Ascii.compare a b = Lt -> Ascii.compare b c = Lt -> Ascii.compare a c = Lt.
Proof. unfold Ascii.compare. rewrite !N.compare_lt_iff. lia. Qed.

Lemma string_compare_lt_trans : forall a b c,
  stringLt a b -> stringLt b c -> stringLt a c.
Proof.
  unfold stringLt.
  induction a as [|x a IH]; intros [|y b] [|z c]; simpl; try done.
  destruct (Ascii.compare x y) eqn:Exy; [| |done].
  - apply Ascii.compare_eq_iff in Exy as ->.
    destruct (Ascii.compare y z); [apply IH|done|done].
  - intros _. destruct (Ascii.compare y z) eqn:Eyz; [| |done].
    + apply Ascii.compare_eq_iff in Eyz as <-. by rewrite Exy.
    + by rewrite (ascii_compare_lt_trans _ _ _ Exy Eyz).
Qed.

Lemma SortCompare_gt x y :
  JS.gt (ES.SortCompare x y) 0 = true <-> String.compare x y = Gt.
Proof. unfold ES.SortCompare. by destruct (String.compare x y). Qed.

Lemma SortCompare_asym x y :
  JS.gt (ES.SortCompare x y) 0 = true -> JS.gt (ES.SortCompare y x) 0 = false.
Proof.
  rewrite SortCompare_gt. intros H. apply not_true_is_false.
  rewrite SortCompare_gt, String.compare_antisym, H. done.
Qed.

Lemma SortCompare_inOrder x y :
  inOrder ES.SortCompare x y -> x <> y -> stringLt x y.
Proof.
  unfold inOrder, stringLt. intros H Hne.
  destruct (String.compare x y) eqn:E; [|done|].
  - by apply String.compare_eq_iff in E.
  - apply SortCompare_gt in E. congruence.
Qed.

Lemma Sorted_NoDup_strict l :
  NoDup l -> Sorted (inOrder ES.SortCompare) l -> Sorted stringLt l.
Proof.
  intros Hnd Hs. induction Hs as [|x l Hs IH Hhd]; [constructor|].
  apply NoDup_cons in Hnd as [Hx Hnd]. constructor; [by apply IH|].
  destruct Hhd as [|y l Hxy]; constructor.
  apply SortCompare_inOrder; [done|]. intros ->. apply Hx, list_elem_of_here.
Qed.

Lemma NoDup_getAvailableBases pairs : NoDup (getAvailableBases pairs).
Proof.
  rewrite getAvailableBases_unsorted, Array_sort_perm.
  apply NoDup_filter, NoDup_filter, NoDup_quotes, NoDup_nil_2.
Qed.

(** X2: the reported bases are in strictly ascending string order; in
    particular no base is reported twice. *)
Theorem getAvailableBases_ascending pairs :
  StronglySorted stringLt (getAvailableBases pairs) /\ NoDup (getAvailableBases pairs).
Proof.
  pose proof (NoDup_getAvailableBases pairs) as Hnd.
  split; [|done].
  apply (@Sorted_StronglySorted _ stringLt).
  - intros a b c. apply string_compare_lt_trans.
  - apply Sorted_NoDup_strict; [done|].
    rewrite getAvailableBases_unsorted.
    apply Array_sort_sorted, SortCompare_asym.
Qed.

(** X3: on the pairs of the normalizer the only base that can be reported is
    USDT: the result is the empty list or the list holding USDT alone. *)
Theorem getAvailableBases_of_parsed Number data :
  getAvailableBases (parseAllPairs Number data) = []
  \/ getAvailableBases (parseAllPairs Number data) = ["USDT"].
Proof.
  assert (Hall : forall q, q ∈ getAvailableBases (parseAllPairs Number data) -> q = "USDT").
  { intros q ((p & Hp & <-) & Hirt & _)%elem_of_getAvailableBases.
    by destruct (parseAllPairs_quote _ _ _ Hp). }
  pose proof (NoDup_getAvailableBases (parseAllPairs Number data)) as Hnd.
  destruct (getAvailableBases (parseAllPairs Number data)) as [|a [|b l]]; [by left|right|].
  - by rewrite (Hall a) by apply list_elem_of_here.
  - exfalso. apply NoDup_cons in Hnd as [Ha _]. apply Ha.
    rewrite (Hall a) by apply list_elem_of_here.
    rewrite (Hall b) by apply list_elem_of_further, list_elem_of_here.
    apply list_elem_of_here.
Qed.

(** X4: the detection is complete for the triangle finder: when no quote
    ticker and not the base holds a [:], a base other than IRT for which
    [findTriangles] returns anything is among the reported bases. *)
Theorem triangles_only_for_available_bases pairs baseCurrency feeRatePct :
  (forall p, p ∈ pairs -> colonFree (MarketPair.quote p) = true) ->
  colonFree baseCurrency = true ->
  baseCurrency <> "IRT" ->
  findTriangles pairs baseCurrency feeRatePct <> [] ->
  baseCurrency ∈ getAvailableBases pairs.
Proof.
  intros Hquotes Hbase Hirt Hfound.
  apply elem_of_getAvailableBases.
  assert (Hentries : buildAssetEntries pairs baseCurrency <> []).
  { intros E. by apply Hfound, findTriangles_no_entries. }
  split_and!; [|done| |done].
  - destruct (buildAssetEntries pairs baseCurrency) as [|e l] eqn:E; [done|].
    destruct (elem_of_buildAssetEntries pairs baseCurrency e) as (_ & Hb & _ & _ & _ & Hk).
    { rewrite E. apply list_elem_of_here. }
    exists (AssetEntry.base e). split; [done|].
    by apply indexKey_inj in Hk as [_ ?]; [| apply Hquotes |].
  - rewrite findTriangles_bind in Hfound.
    destruct (indexPairs pairs !! indexKey baseCurrency "IRT"); [by eexists|done].
Qed.

Lemma triangles_only_for_available_bases_witness :
  "USDT" ∈ getAvailableBases (examplePairs 1000 1000).
Proof.
  apply (triangles_only_for_available_bases (examplePairs 1000 1000) "USDT" 0.35%float).
  - intros p Hp. repeat (apply elem_of_cons in Hp as [->|Hp]; [reflexivity|]).
    by apply elem_of_nil in Hp.
  - reflexivity.
  - discriminate.
  - vm_compute. discriminate.
Defined.

(** * Further properties of the finders *)

(** Membership in the result of one of the three finders, for the bridge
    [baseCurrency] and the fee [feeRatePct]. *)
Lemma found_cases pairs baseCurrency feeRatePct maxResults o :
  o ∈ findTriangles pairs baseCurrency feeRatePct
  \/ o ∈ findCrossPairs pairs baseCurrency feeRatePct maxResults
  \/ o ∈ findAllOpportunities pairs baseCurrency feeRatePct ->
  (exists bridge e,
     indexPairs pairs !! indexKey baseCurrency "IRT" = Some bridge /\
     e ∈ buildAssetEntries pairs baseCurrency /\
     o ∈ triangleEmit bridge baseCurrency (3 * feeRatePct)%float e)
  \/ (exists seller buyer,
        seller ∈ buildAssetEntries pairs baseCurrency /\
        buyer ∈ buildAssetEntries pairs baseCurrency /\
        o ∈ crossEmit baseCurrency (4 * feeRatePct)%float
              (withRatio seller) (withRatio buyer)).
Proof.
  rewrite elem_of_findAllOpportunities.
  intros [H|[H|[H|H]]];
    [left; by apply elem_of_findTriangles
    |right; by eapply elem_of_findCrossPairs
    |left; by apply elem_of_findTriangles
    |right; by eapply elem_of_findCrossPairs].
Qed.

(** X5: every opportunity a finder returns has the shape of its strategy:
    it names the bridge it was asked for; a triangle names one asset other
    than the bridge and has the legs buy, sell, sell (cw) or buy, buy, sell
    (ccw); a cross-pair names two different assets and has the legs buy,
    sell, buy, sell. *)
Theorem opportunities_well_shaped pairs baseCurrency feeRatePct maxResults o :
  o ∈ findTriangles pairs baseCurrency feeRatePct
  \/ o ∈ findCrossPairs pairs baseCurrency feeRatePct maxResults
  \/ o ∈ findAllOpportunities pairs baseCurrency feeRatePct ->
  wellShaped baseCurrency o.
Proof.
  intros [(bridge & e & _ & He & Ho)|(s & b & Hs & Hb & Ho)]%found_cases.
  - apply elem_of_buildAssetEntries in He as (_ & _ & _ & _ & Hne & _).
    apply elem_of_triangleEmit in Ho as [(_ & _ & ->)|(_ & _ & ->)];
      (split; [done|]); exists (AssetEntry.asset e); (split; [done|]);
      (split; [done|]); [left|right]; done.
  - apply elem_of_buildAssetEntries in Hs as (_ & _ & _ & _ & Hnes & _).
    apply elem_of_buildAssetEntries in Hb as (_ & _ & _ & _ & Hneb & _).
    apply elem_of_crossEmit in Ho as (Hne & _ & _ & _ & ->).
    split; [done|]. exists (AssetEntry.asset s), (AssetEntry.asset b). done.
Qed.

Lemma opportunities_well_shaped_witness :
  wellShaped "USDT"
    (cwOpportunity (MarketPair.mk "USDTIRT" "USDT" "IRT" 990 1000 1000 1000)
       "USDT" (3 * 0.35)%float
       (AssetEntry.mk "X" (MarketPair.mk "XIRT" "X" "IRT" 990 10 1000 10)
          (MarketPair.mk "XUSDT" "X" "USDT" 1.05 10 1.06 10))).
Proof.
  apply (opportunities_well_shaped (examplePairs 1000 1000) "USDT" 0.35%float 200).
  left. vm_compute. apply list_elem_of_here.
Defined.

Ltac quoted_pair :=
  match goal with
  | Hp : ?p ∈ _ |- exists _, _ => exists p; split; [exact Hp|done]
  end.

(** X6: every leg of a returned opportunity trades a pair of the input at
    the side of the book it takes: a buy leg carries that pair's best ask and
    the quantity offered there, a sell leg its best bid and the quantity bid. *)
Theorem legs_quote_input_pairs pairs baseCurrency feeRatePct maxResults o l :
  o ∈ findTriangles pairs baseCurrency feeRatePct
  \/ o ∈ findCrossPairs pairs baseCurrency feeRatePct maxResults
  \/ o ∈ findAllOpportunities pairs baseCurrency feeRatePct ->
  l ∈ Opportunity.legs o ->
  exists p, p ∈ pairs /\ legQuotes p l.
Proof.
  intros [(bridge & e & Hbr & He & Ho)|(s & b & Hs & Hb & Ho)]%found_cases Hl.
  - apply indexPairs_lookup_Some in Hbr as [Hbr _].
    apply elem_of_buildAssetEntries in He as (Hirt & Hbase & _).
    apply elem_of_triangleEmit in Ho as [(_ & _ & ->)|(_ & _ & ->)]; simpl in Hl;
      repeat (apply elem_of_cons in Hl as [->|Hl]; [quoted_pair|]);
      by apply elem_of_nil in Hl.
  - apply elem_of_buildAssetEntries in Hs as (Hsi & Hsb & _).
    apply elem_of_buildAssetEntries in Hb as (Hbi & Hbb & _).
    apply elem_of_crossEmit in Ho as (_ & _ & _ & _ & ->). simpl in Hl.
    repeat (apply elem_of_cons in Hl as [->|Hl]; [quoted_pair|]).
    by apply elem_of_nil in Hl.
Qed.

Lemma legs_quote_input_pairs_witness :
  exists p, p ∈ examplePairs 1000 1000
    /\ legQuotes p (Leg.mk "XUSDT" sell 1.05 10 "X").
Proof.
  apply (legs_quote_input_pairs (examplePairs 1000 1000) "USDT" 0.35%float 200
           (cwOpportunity (MarketPair.mk "USDTIRT" "USDT" "IRT" 990 1000 1000 1000)
              "USDT" (3 * 0.35)%float
              (AssetEntry.mk "X" (MarketPair.mk "XIRT" "X" "IRT" 990 10 1000 10)
                 (MarketPair.mk "XUSDT" "X" "USDT" 1.05 10 1.06 10)))).
  - left. vm_compute. apply list_elem_of_here.
  - simpl. apply list_elem_of_further, list_elem_of_here.
Defined.

(** X7: the triangle finder does not look at the fee when it decides what
    to return: for any two fees it returns the same triangles in the same
    order, which differ only in [feePct], [netPct] and [expectedProfitIRT]. *)
Theorem findTriangles_ignores_fee pairs baseCurrency fee1 fee2 :
  feeFree <$> findTriangles pairs baseCurrency fee1
  = feeFree <$> findTriangles pairs baseCurrency fee2.
Proof.
  rewrite !findTriangles_bind.
  destruct (indexPairs pairs !! indexKey baseCurrency "IRT") as [bridge|]; [|done].
  induction (buildAssetEntries pairs baseCurrency) as [|e l IH]; [done|].
  rewrite !bind_cons, !fmap_app, IH. f_equal.
  unfold triangleEmit.
  by destruct (JS.isFinite (cwRate bridge e) && JS.gt (cwVol bridge e) 0),
    (JS.isFinite (ccwRate bridge e) && JS.gt (ccwVol bridge e) 0).
Qed.

Import FloatFacts FloatSigns.

Lemma crossVol_not_nan seller buyer :
  validPair (WithRatios.irt seller) -> validPair (WithRatios.base seller) ->
  validPair (WithRatios.irt buyer) -> validPair (WithRatios.base buyer) ->
  is_nan (crossVol seller buyer) = false.
Proof.
  intros Hs1 Hs2 Hb1 Hb2.
  pose proof (fun x => crossCaps_nonneg seller buyer x Hs1 Hs2 Hb1 Hb2) as Hx.
  destruct Hs1 as (_ & _ & Hask & Hfin & _).
  unfold crossVol, min4. destruct (crossCaps seller buyer) as [[[l1 l2] l3] l4].
  apply mul_not_nan; [|done|by apply gt_zero_regular].
  apply Math_min_not_nan. intros x Hin. by destruct (float_leb_not_nan _ _ (Hx x Hin)).
Qed.

(** X8: every returned opportunity has a finite rate and a volume that is
    not [<= 0]; the volume of a triangle is strictly positive, and so is the
    volume of a cross-pair when the pairs keep the [MarketPair] invariant. A
    cross-pair is never returned with [netPct] below -5, a floor triangles
    do not have. *)
Theorem opportunities_are_executable pairs baseCurrency feeRatePct maxResults o :
  o ∈ findTriangles pairs baseCurrency feeRatePct
  \/ o ∈ findCrossPairs pairs baseCurrency feeRatePct maxResults
  \/ o ∈ findAllOpportunities pairs baseCurrency feeRatePct ->
  JS.isFinite (Opportunity.rate o) = true
  /\ (Opportunity.maxVolumeIRT o <=? 0)%float = false
  /\ (Opportunity.type o = triangle -> JS.gt (Opportunity.maxVolumeIRT o) 0 = true)
  /\ (Opportunity.type o = cross -> (Opportunity.netPct o <? -5)%float = false)
  /\ ((forall p, p ∈ pairs -> validPair p) ->
      JS.gt (Opportunity.maxVolumeIRT o) 0 = true).
Proof.
  intros [(bridge & e & _ & _ & Ho)|(s & b & Hs & Hb & Ho)]%found_cases.
  - apply elem_of_triangleEmit in Ho as [(Hr & Hv & ->)|(Hr & Hv & ->)]; simpl;
      (split_and!; [done|by apply gt_zero_not_leb|done|done|done]).
  - apply elem_of_crossEmit in Ho as (_ & Hnet & Hr & Hv & ->). simpl.
    split_and!; [done|done|done|done|]. intros Hvalid.
    destruct (buildAssetEntries_valid _ _ _ Hvalid Hs) as [Hs1 Hs2].
    destruct (buildAssetEntries_valid _ _ _ Hvalid Hb) as [Hb1 Hb2].
    apply not_leb_zero_pos; [|done]. by apply crossVol_not_nan.
Qed.

Lemma opportunities_are_executable_witness :
  let o := cwOpportunity (MarketPair.mk "USDTIRT" "USDT" "IRT" 990 1000 1000 1000)
             "USDT" (3 * 0.35)%float
             (AssetEntry.mk "X" (MarketPair.mk "XIRT" "X" "IRT" 990 10 1000 10)
                (MarketPair.mk "XUSDT" "X" "USDT" 1.05 10 1.06 10)) in
  JS.isFinite (Opportunity.rate o) = true
  /\ JS.gt (Opportunity.maxVolumeIRT o) 0 = true.
Proof.
  intros o.
  destruct (opportunities_are_executable (examplePairs 1000 1000) "USDT" 0.35%float 200 o)
    as (Hr & _ & Hv & _).
  - left. vm_compute. apply list_elem_of_here.
  - split; [exact Hr|]. apply Hv. reflexivity.
Defined.

(** X9: in every returned opportunity [expectedProfitIRT] is
    [(netPct / 100) * maxVolumeIRT], and its sign never contradicts that of
    [netPct]: a positive expected profit comes with a positive [netPct], a
    negative one with a negative [netPct]. *)
Theorem expected_profit_follows_netPct pairs baseCurrency feeRatePct maxResults o :
  o ∈ findTriangles pairs baseCurrency feeRatePct
  \/ o ∈ findCrossPairs pairs baseCurrency feeRatePct maxResults
  \/ o ∈ findAllOpportunities pairs baseCurrency feeRatePct ->
  Opportunity.expectedProfitIRT o
  = (Opportunity.netPct o / 100 * Opportunity.maxVolumeIRT o)%float
  /\ (JS.gt (Opportunity.expectedProfitIRT o) 0 = true ->
      JS.gt (Opportunity.netPct o) 0 = true)
  /\ ((Opportunity.expectedProfitIRT o <? 0)%float = true ->
      (Opportunity.netPct o <? 0)%float = true).
Proof.
  intros Ho.
  assert (Hv : (Opportunity.maxVolumeIRT o <=? 0)%float = false
               /\ Opportunity.expectedProfitIRT o
                  = (Opportunity.netPct o / 100 * Opportunity.maxVolumeIRT o)%float).
  { apply found_cases in Ho as [(bridge & e & _ & _ & Ho)|(s & b & _ & _ & Ho)].
    - apply elem_of_triangleEmit in Ho as [(_ & Hv & ->)|(_ & Hv & ->)]; simpl;
        (split; [by apply gt_zero_not_leb|done]).
    - by apply elem_of_crossEmit in Ho as (_ & _ & _ & Hv & ->). }
  destruct Hv as [Hv ->]. split_and!; [done| |].
  - intros H. apply mul_pos_factor in H; [|done]. by apply (div_pos_num _ 100).
  - intros H. apply mul_neg_factor in H; [|done]. by apply (div_neg_num _ 100).
Qed.

Lemma expected_profit_follows_netPct_witness :
  let o := cwOpportunity (MarketPair.mk "USDTIRT" "USDT" "IRT" 990 1000 1000 1000)
             "USDT" (3 * 0.35)%float
             (AssetEntry.mk "X" (MarketPair.mk "XIRT" "X" "IRT" 990 10 1000 10)
                (MarketPair.mk "XUSDT" "X" "USDT" 1.05 10 1.06 10)) in
  JS.gt (Opportunity.expectedProfitIRT o) 0 = true
  /\ JS.gt (Opportunity.netPct o) 0 = true.
Proof.
  intros o.
  destruct (expected_profit_follows_netPct (examplePairs 1000 1000) "USDT" 0.35%float 200 o)
    as (_ & Hpos & _).
  - left. vm_compute. apply list_elem_of_here.
  - split; [reflexivity|]. apply Hpos. reflexivity.
Defined.

Lemma triangle_netPct_not_nan pairs baseCurrency feeRatePct o :
  JS.isFinite (3 * feeRatePct)%float = true ->
  o ∈ findTriangles pairs baseCurrency feeRatePct ->
  is_nan (Opportunity.netPct o) = false.
Proof.
  intros H3 (bridge & e & _ & _ & Ho)%elem_of_findTriangles.
  apply elem_of_triangleEmit in Ho as [(Hr & _ & ->)|(Hr & _ & ->)];
    by apply netPct_not_nan.
Qed.

Lemma cross_netPct_not_nan pairs baseCurrency feeRatePct maxResults o :
  JS.isFinite (4 * feeRatePct)%float = true ->
  o ∈ findCrossPairs pairs baseCurrency feeRatePct maxResults ->
  is_nan (Opportunity.netPct o) = false.
Proof.
  intros H4 (s & b & _ & _ & Ho)%elem_of_findCrossPairs.
  apply elem_of_crossEmit in Ho as (_ & _ & Hr & _ & ->). by apply netPct_not_nan.
Qed.

Lemma found_netPct_not_nan pairs baseCurrency feeRatePct o :
  JS.isFinite (3 * feeRatePct)%float = true ->
  JS.isFinite (4 * feeRatePct)%float = true ->
  o ∈ findAllOpportunities pairs baseCurrency feeRatePct ->
  is_nan (Opportunity.netPct o) = false.
Proof.
  intros H3 H4 [Ho|Ho]%elem_of_findAllOpportunities.
  - by eapply triangle_netPct_not_nan.
  - by eapply cross_netPct_not_nan.
Qed.

(** X10: a finite fee keeps every [netPct] a number and makes the rankings
    total: when three times the fee is finite no triangle has a [netPct]
    that is not a number; when four times the fee is finite no cross-pair
    has, and every cross-pair of [findCrossPairs] has a [netPct] at least
    that of every one after it; when both are finite the same holds of the
    combined ranking of [findAllOpportunities]. *)
Theorem finite_fee_ranks_totally pairs baseCurrency feeRatePct maxResults :
  (JS.isFinite (3 * feeRatePct)%float = true ->
   forall o, o ∈ findTriangles pairs baseCurrency feeRatePct ->
     is_nan (Opportunity.netPct o) = false)
  /\ (JS.isFinite (4 * feeRatePct)%float = true ->
      (forall o, o ∈ findCrossPairs pairs baseCurrency feeRatePct maxResults ->
         is_nan (Opportunity.netPct o) = false)
      /\ StronglySorted netPctAtLeast
           (findCrossPairs pairs baseCurrency feeRatePct maxResults))
  /\ (JS.isFinite (3 * feeRatePct)%float = true ->
      JS.isFinite (4 * feeRatePct)%float = true ->
      (forall o, o ∈ findAllOpportunities pairs baseCurrency feeRatePct ->
         is_nan (Opportunity.netPct o) = false)
      /\ StronglySorted netPctAtLeast
           (findAllOpportunities pairs baseCurrency feeRatePct)).
Proof.
  split_and!.
  - intros H3 o. by apply triangle_netPct_not_nan.
  - intros H4.
    assert (Hn : forall o, o ∈ findCrossPairs pairs baseCurrency feeRatePct maxResults ->
                           is_nan (Opportunity.netPct o) = false).
    { intros o. by apply cross_netPct_not_nan. }
    split; [done|]. apply descending_numbers_throughout; [done|].
    unfold findCrossPairs. cbv zeta. apply Sorted_take.
    apply Array_sort_byNetPctDesc_descending.
  - intros H3 H4.
    assert (Hn : forall o, o ∈ findAllOpportunities pairs baseCurrency feeRatePct ->
                           is_nan (Opportunity.netPct o) = false).
    { intros o. by apply found_netPct_not_nan. }
    split; [done|]. apply descending_numbers_throughout; [done|].
    apply Array_sort_byNetPctDesc_descending.
Qed.

Lemma finite_fee_ranks_totally_witness :
  StronglySorted netPctAtLeast
    (findAllOpportunities (examplePairs 1000 1000) "USDT" 0.35%float).
Proof.
  apply (finite_fee_ranks_totally (examplePairs 1000 1000) "USDT" 0.35%float 200);
    reflexivity.
Defined.

(** ** The window of the cross-pair search *)

Lemma crossEmit_length baseCurrency totalFee seller buyer :
  length (crossEmit baseCurrency totalFee seller buyer) <= 1.
Proof.
  unfold crossEmit. repeat case_match; simpl; lia.
Qed.

Lemma bySell_length entries : length (bySell entries) = Nat.min (length entries) 60.
Proof.
  unfold bySell, JS.slice0. cbv zeta.
  rewrite length_take, Array_sort_length, length_map. lia.
Qed.

Lemma byBuy_length entries : length (byBuy entries) = Nat.min (length entries) 60.
Proof.
  unfold byBuy, JS.slice0. cbv zeta.
  rewrite length_take, Array_sort_length, length_map. lia.
Qed.

Lemma crossCandidates_length baseCurrency totalFee entries :
  length (bySell entries ≫= fun seller =>
            byBuy entries ≫= crossEmit baseCurrency totalFee seller)
  <= Nat.min (length entries) 60 * Nat.min (length entries) 60.
Proof.
  etransitivity.
  - apply (bind_length_le _ (Nat.min (length entries) 60)). intros seller.
    etransitivity; [apply (bind_length_le _ 1), crossEmit_length|].
    rewrite byBuy_length. lia.
  - by rewrite bySell_length.
Qed.


Lemma elem_of_bySell_all entries e :
  length entries <= 60 -> e ∈ entries -> withRatio e ∈ bySell entries.
Proof.
  intros Hlen He. unfold bySell, JS.slice0. cbv zeta.
  rewrite take_ge by (rewrite Array_sort_length, length_map; lia).
  apply elem_of_Array_sort, list_elem_of_fmap. by exists e.
Qed.

Lemma elem_of_byBuy_all entries e :
  length entries <= 60 -> e ∈ entries -> withRatio e ∈ byBuy entries.
Proof.
  intros Hlen He. unfold byBuy, JS.slice0. cbv zeta.
  rewrite take_ge by (rewrite Array_sort_length, length_map; lia).
  apply elem_of_Array_sort, list_elem_of_fmap. by exists e.
Qed.

(** X12: below the window the search is exhaustive: with at most 60 asset
    entries, and [maxResults] no smaller than the number of ordered pairs of
    entries, [findCrossPairs] returns exactly the opportunities of the
    pairs of a selling and a buying entry that pass its filters. *)
Theorem findCrossPairs_exhaustive_below_window pairs baseCurrency feeRatePct maxResults o :
  let entries := buildAssetEntries pairs baseCurrency in
  length entries <= 60 ->
  length entries * length entries <= maxResults ->
  o ∈ findCrossPairs pairs baseCurrency feeRatePct maxResults <->
  exists seller buyer,
    seller ∈ entries /\ buyer ∈ entries /\
    o ∈ crossEmit baseCurrency (4 * feeRatePct)%float (withRatio seller) (withRatio buyer).
Proof.
  intros entries Hlen Hmax. split; [apply elem_of_findCrossPairs|].
  intros (seller & buyer & Hs & Hb & Ho).
  rewrite findCrossPairs_bind. cbv zeta. fold entries. unfold JS.slice0.
  rewrite take_ge.
  - apply elem_of_Array_sort, list_elem_of_bind. exists (withRatio seller).
    split; [|by apply elem_of_bySell_all].
    apply list_elem_of_bind. exists (withRatio buyer).
    split; [done|by apply elem_of_byBuy_all].
  - rewrite Array_sort_length.
    pose proof (crossCandidates_length baseCurrency (4 * feeRatePct)%float entries).
    nia.
Qed.

Lemma findCrossPairs_exhaustive_below_window_witness :
  exists o, o ∈ findCrossPairs pairsWithoutBridge "USDT" 0.35%float 200.
Proof.
  pose (x := AssetEntry.mk "X" (MarketPair.mk "XIRT" "X" "IRT" 990 10 1000 10)
               (MarketPair.mk "XUSDT" "X" "USDT" 1.05 10 1.06 10)).
  pose (y := AssetEntry.mk "Y" (MarketPair.mk "YIRT" "Y" "IRT" 2000 10 2010 10)
               (MarketPair.mk "YUSDT" "Y" "USDT" 2 10 2.01 10)).
  exists (crossOpportunity "USDT" (4 * 0.35)%float (withRatio x) (withRatio y)).
  apply (findCrossPairs_exhaustive_below_window pairsWithoutBridge "USDT" 0.35%float 200).
  - vm_compute. lia.
  - vm_compute. lia.
  - exists x, y. vm_compute. repeat split.
    + apply list_elem_of_here.
    + apply list_elem_of_further, list_elem_of_here.
    + apply list_elem_of_here.
Defined.

(** ** Order and index *)

(** X13: the normalizer treats each entry of the snapshot on its own and in
    order: parsing a snapshot cut in two gives the pairs of the first part
    followed by those of the second, and the symbols of the pairs are a
    sub-list of the keys of the snapshot, so there are no more pairs than
    entries. *)
Theorem parseAllPairs_keeps_snapshot_order Number data1 data2 :
  parseAllPairs Number (data1 ++ data2)
  = parseAllPairs Number data1 ++ parseAllPairs Number data2
  /\ MarketPair.symbol <$> parseAllPairs Number data1 `sublist_of` data1.*1
  /\ length (parseAllPairs Number data1) <= length data1.
Proof.
  rewrite !parseAllPairs_omap. split; [apply omap_app|].
  assert (Hsub : MarketPair.symbol <$> omap (fun entry => parseEntry Number entry.1 entry.2) data1
                 `sublist_of` data1.*1).
  { induction data1 as [|[key value] data IH]; simpl; [done|].
    destruct (parseEntry Number key value) as [p|] eqn:E; simpl.
    - apply parseEntry_Some in E as (_ & book & parsed & b & bs & a & as' & _ & _ & _ & _ & _ & _ & _ & _ & ->).
      simpl. by apply sublist_skip.
    - by apply sublist_cons. }
  split; [done|].
  apply sublist_length in Hsub. by rewrite !length_fmap in Hsub.
Qed.

Lemma indexPairs_snoc pairs p :
  indexPairs (pairs ++ [p])
  = <[indexKey (MarketPair.asset p) (MarketPair.quote p) := p]> (indexPairs pairs).
Proof. unfold indexPairs. by rewrite fold_left_app. Qed.

Lemma indexPairs_lookup_last pairs k :
  indexPairs pairs !! k
  = last (filter (fun p => indexKey (MarketPair.asset p) (MarketPair.quote p) = k) pairs).
Proof.
  induction pairs as [|p pairs IH] using rev_ind; [done|].
  rewrite indexPairs_snoc, filter_app, filter_cons, filter_nil.
  destruct (decide (indexKey (MarketPair.asset p) (MarketPair.quote p) = k)) as [<-|Hne].
  - by rewrite lookup_insert_eq, last_snoc.
  - by rewrite lookup_insert_ne, app_nil_r.
Qed.

(** X14: the index the finders build maps a key [`${asset}:${quote}`] to the
    last pair of the list that carries it, a later pair replacing an earlier
    one, and to nothing when no pair carries it. *)
Theorem indexPairs_last_wins pairs k :
  indexPairs pairs !! k
  = last (filter (fun p => indexKey (MarketPair.asset p) (MarketPair.quote p) = k) pairs)
  /\ (indexPairs pairs !! k = None <->
      forall p, p ∈ pairs -> indexKey (MarketPair.asset p) (MarketPair.quote p) <> k).
Proof.
  split; [apply indexPairs_lookup_last|].
  rewrite indexPairs_lookup_last, last_None. split.
  - intros E p Hp Hk.
    assert (p ∈ filter (fun p => indexKey (MarketPair.asset p) (MarketPair.quote p) = k) pairs)
      as Hin by by apply list_elem_of_filter.
    rewrite E in Hin. by apply elem_of_nil in Hin.
  - intros H. apply elem_of_nil_inv. intros p [Hk Hp]%list_elem_of_filter.
    by apply (H p).
Qed.

(** X15: [buildAssetEntries] makes one entry, in the order of the input, for
    each pair quoted in IRT whose asset is not the bridge and is indexed
    under the bridge; the entry carries that pair, its asset, and as base
    pair the last pair of the input indexed under the asset and the bridge. *)
Theorem buildAssetEntries_in_order pairs baseCurrency :
  AssetEntry.irt <$> buildAssetEntries pairs baseCurrency
  = filter
      (fun p => MarketPair.quote p = "IRT" /\ MarketPair.asset p <> baseCurrency
                /\ is_Some (indexPairs pairs !! indexKey (MarketPair.asset p) baseCurrency))
      pairs
  /\ forall e, e ∈ buildAssetEntries pairs baseCurrency ->
       AssetEntry.asset e = MarketPair.asset (AssetEntry.irt e)
       /\ last (filter
                  (fun p => indexKey (MarketPair.asset p) (MarketPair.quote p)
                            = indexKey (AssetEntry.asset e) baseCurrency)
                  pairs)
          = Some (AssetEntry.base e).
Proof.
  rewrite buildAssetEntries_omap. split.
  - generalize (indexPairs pairs) as idx. intros idx.
    induction pairs as [|p pairs IH]; [done|].
    rewrite filter_cons. simpl. unfold assetEntryOf at 1.
    destruct (String.eqb_spec (MarketPair.quote p) "IRT") as [Hq|Hq]; simpl.
    + destruct (String.eqb_spec (MarketPair.asset p) baseCurrency) as [Ha|Ha]; simpl.
      * rewrite decide_False by tauto. apply IH.
      * destruct (idx !! indexKey (MarketPair.asset p) baseCurrency) as [bp|] eqn:E.
        -- rewrite decide_True by (split_and!; [done|done|by eexists]).
           rewrite fmap_cons. f_equal. exact IH.
        -- rewrite decide_False; [apply IH|]. intros (_ & _ & [? [=]]).
    + rewrite decide_False by tauto. apply IH.
  - intros e (p & Hp & He)%list_elem_of_omap. unfold assetEntryOf in He.
    destruct (negb _ || _); [done|].
    destruct (indexPairs pairs !! _) as [bp|] eqn:E; [|done].
    injection He as <-. simpl. split; [done|].
    by rewrite <- indexPairs_lookup_last.
Qed.

(** * The detection step of the scanner *)

Section ScannerFacts.

Import FloatFacts FloatSigns.

Variable Number : string -> float.
Variables (BASE : string) (FEE_PCT : float) (rawData : list (string * JSValue)).

Local Abbreviation pairs := (Scanner.pairs Number rawData).
Local Abbreviation allOpps := (Scanner.allOpps Number BASE FEE_PCT rawData).
Local Abbreviation profitable := (Scanner.profitable Number BASE FEE_PCT rawData).
Local Abbreviation triangles := (Scanner.triangles Number BASE FEE_PCT rawData).
Local Abbreviation crosses := (Scanner.crosses Number BASE FEE_PCT rawData).
Local Abbreviation best := (Scanner.best Number BASE FEE_PCT rawData).
Local Abbreviation opportunities := (Scanner.opportunities Number BASE FEE_PCT rawData).

Lemma findTriangles_type pairs' baseCurrency feeRatePct o :
  o ∈ findTriangles pairs' baseCurrency feeRatePct -> Opportunity.type o = triangle.
Proof.
  intros (bridge & e & _ & _ & Ho)%elem_of_findTriangles.
  by apply elem_of_triangleEmit in Ho as [(_ & _ & ->)|(_ & _ & ->)].
Qed.

Lemma findCrossPairs_type pairs' baseCurrency feeRatePct maxResults o :
  o ∈ findCrossPairs pairs' baseCurrency feeRatePct maxResults ->
  Opportunity.type o = cross.
Proof.
  intros (s & b & _ & _ & Ho)%elem_of_findCrossPairs.
  by apply elem_of_crossEmit in Ho as (_ & _ & _ & _ & ->).
Qed.

Lemma filter_all {A} (P : A -> Prop) `{!forall x, Decision (P x)} (l : list A) :
  (forall x, x ∈ l -> P x) -> filter P l = l.
Proof.
  induction l as [|x l IH]; intros Hall; [done|].
  rewrite filter_cons, decide_True by apply Hall, list_elem_of_here.
  f_equal. apply IH. intros y Hy. by apply Hall, list_elem_of_further.
Qed.

Lemma filter_none {A} (P : A -> Prop) `{!forall x, Decision (P x)} (l : list A) :
  (forall x, x ∈ l -> ~ P x) -> filter P l = [].
Proof.
  induction l as [|x l IH]; intros Hall; [done|].
  rewrite filter_cons, decide_False by apply Hall, list_elem_of_here.
  apply IH. intros y Hy. by apply Hall, list_elem_of_further.
Qed.

(** X16: the counts the scanner records are those of the two finders: the
    opportunities it files as triangles are the result of [findTriangles],
    those it files as cross-pairs the result of [findCrossPairs] with its
    default cap, so at most 200, and the two counts add up to the total. *)
Theorem scan_counts :
  triangles ≡ₚ findTriangles pairs BASE FEE_PCT
  /\ crosses ≡ₚ findCrossPairs pairs BASE FEE_PCT defaultMaxResults
  /\ length allOpps = length triangles + length crosses
  /\ length crosses <= 200.
Proof.
  assert (Ht : triangles ≡ₚ findTriangles pairs BASE FEE_PCT).
  { unfold Scanner.triangles, Scanner.allOpps, findAllOpportunities. cbv zeta.
    rewrite Array_sort_perm, filter_app.
    rewrite filter_all by apply findTriangles_type.
    rewrite filter_none; [by rewrite app_nil_r|].
    intros o Ho%findCrossPairs_type. congruence. }
  assert (Hc : crosses ≡ₚ findCrossPairs pairs BASE FEE_PCT defaultMaxResults).
  { unfold Scanner.crosses, Scanner.allOpps, findAllOpportunities. cbv zeta.
    rewrite Array_sort_perm, filter_app.
    rewrite (filter_all _ (findCrossPairs _ _ _ _)) by apply findCrossPairs_type.
    rewrite filter_none; [done|].
    intros o Ho%findTriangles_type. congruence. }
  split_and!; [done|done| |].
  - rewrite Ht, Hc. unfold Scanner.allOpps, findAllOpportunities. cbv zeta.
    by rewrite Array_sort_length, length_app.
  - rewrite Hc. unfold findCrossPairs. cbv zeta. apply slice0_length.
Qed.

Lemma allOpps_ranked :
  JS.isFinite (3 * FEE_PCT)%float = true ->
  JS.isFinite (4 * FEE_PCT)%float = true ->
  (forall o, o ∈ allOpps -> is_nan (Opportunity.netPct o) = false)
  /\ StronglySorted netPctAtLeast allOpps.
Proof.
  intros H3 H4.
  assert (Hn : forall o, o ∈ allOpps -> is_nan (Opportunity.netPct o) = false).
  { intros o Ho. by apply (found_netPct_not_nan pairs BASE FEE_PCT). }
  split; [done|].
  apply descending_numbers_throughout; [done|].
  apply Array_sort_byNetPctDesc_descending.
Qed.

(** X17: [best] is null exactly when nothing was found; when three and four
    times the fee are finite it has the highest [netPct] of all, so it is
    profitable as soon as any opportunity is. *)
Theorem scan_best_is_maximal :
  (best = None <-> allOpps = [])
  /\ (JS.isFinite (3 * FEE_PCT)%float = true ->
      JS.isFinite (4 * FEE_PCT)%float = true ->
      forall b, best = Some b ->
        b ∈ allOpps
        /\ (forall o, o ∈ allOpps -> netPctAtLeast b o)
        /\ (profitable <> [] -> b ∈ profitable)).
Proof.
  split; [apply head_None|].
  intros H3 H4 b Hb. destruct (allOpps_ranked H3 H4) as [Hn Hs].
  unfold Scanner.best in Hb.
  destruct allOpps as [|b' rest] eqn:E; [done|]. injection Hb as ->.
  assert (Hmax : forall o, o ∈ b :: rest -> netPctAtLeast b o).
  { intros o [->|Ho]%elem_of_cons.
    - unfold netPctAtLeast. apply float_eqb_leb, float_eqb_refl, Hn, list_elem_of_here.
    - apply StronglySorted_inv in Hs as [_ Hall].
      rewrite Forall_forall in Hall. by apply Hall. }
  split_and!; [apply list_elem_of_here|done|].
  intros Hp. unfold Scanner.profitable in *. rewrite E in *.
  destruct (filter _ (b :: rest)) as [|o l] eqn:Ef; [done|].
  assert (Ho : o ∈ filter (fun o => JS.gt (Opportunity.netPct o) 0 = true) (b :: rest))
    by (rewrite Ef; apply list_elem_of_here).
  apply list_elem_of_filter in Ho as [Hpos Ho].
  rewrite <- Ef. apply list_elem_of_filter. split; [|apply list_elem_of_here].
  unfold JS.gt in *. eapply float_ltb_leb_trans; [exact Hpos|]. by apply Hmax.
Qed.

Lemma ranked_split (l : list Opportunity.t) :
  (forall o, o ∈ l -> is_nan (Opportunity.netPct o) = false) ->
  StronglySorted netPctAtLeast l ->
  let k := length (filter (fun o => JS.gt (Opportunity.netPct o) 0 = true) l) in
  filter (fun o => JS.gt (Opportunity.netPct o) 0 = true) l = take k l
  /\ filter (fun o => (Opportunity.netPct o <=? 0)%float = true) l = drop k l.
Proof.
  intros Hn Hs. induction Hs as [|x l Hs IH Hx]; [done|].
  rewrite Forall_forall in Hx.
  assert (Hn' : forall o, o ∈ l -> is_nan (Opportunity.netPct o) = false).
  { intros o Ho. by apply Hn, list_elem_of_further. }
  specialize (IH Hn'). cbv zeta in IH. destruct IH as [IH1 IH2].
  cbv zeta. rewrite !filter_cons.
  destruct (JS.gt (Opportunity.netPct x) 0) eqn:Ex.
  - rewrite decide_True by done.
    rewrite decide_False by (rewrite (gt_zero_not_leb _ Ex); discriminate).
    simpl. by rewrite <- IH1, IH2.
  - rewrite decide_False by discriminate.
    assert (Hle : (Opportunity.netPct x <=? 0)%float = true).
    { apply float_leb_total; [done|apply Hn, list_elem_of_here|exact Ex]. }
    rewrite decide_True by done.
    rewrite filter_none.
    + simpl. split; [done|]. f_equal. apply filter_all. intros o Ho.
      eapply float_leb_trans; [by apply Hx|done].
    + intros o Ho. rewrite (leb_not_gt (Opportunity.netPct o) 0); [discriminate|].
      eapply float_leb_trans; [by apply Hx|done].
Qed.

(** X18: when three and four times the fee are finite, the profitable
    opportunities are the head of the ranking, and the snapshot file keeps a
    prefix of the ranking: the profitable opportunities followed by the next
    50, in ranking order. *)
Theorem snapshot_keeps_head_of_ranking :
  JS.isFinite (3 * FEE_PCT)%float = true ->
  JS.isFinite (4 * FEE_PCT)%float = true ->
  profitable = take (length profitable) allOpps
  /\ opportunities = take (length profitable + 50) allOpps.
Proof.
  intros H3 H4. destruct (allOpps_ranked H3 H4) as [Hn Hs].
  destruct (ranked_split allOpps Hn Hs) as [Hp Hr].
  split; [exact Hp|].
  rewrite <- (take_take_drop allOpps (length profitable) 50).
  unfold Scanner.opportunities, JS.slice0. f_equal; [exact Hp|]. f_equal. exact Hr.
Qed.

End ScannerFacts.

Lemma snapshot_keeps_head_of_ranking_witness :
  Scanner.opportunities exampleNumber "USDT" 0.35%float
    [ ("XIRT", book "990" "10" "1000" "10");
      ("XUSDT", book "1.05" "10" "1.06" "10");
      ("USDTIRT", book "990" "1000" "1000" "1000") ]
  = take (1 + 50)
      (Scanner.allOpps exampleNumber "USDT" 0.35%float
         [ ("XIRT", book "990" "10" "1000" "10");
           ("XUSDT", book "1.05" "10" "1.06" "10");
           ("USDTIRT", book "990" "1000" "1000" "1000") ]).
Proof.
  apply (snapshot_keeps_head_of_ranking exampleNumber "USDT" 0.35%float); reflexivity.
Defined.

(** * Command line options *)

Lemma indexOf_None x l : ES.indexOf x l = None <-> x ∉ l.
Proof.
  induction l as [|y l IH]; simpl.
  - split; [intros _ []%elem_of_nil|done].
  - rewrite not_elem_of_cons. destruct (String.eqb_spec y x) as [->|Hne].
    + split; [done|]. by intros [? _].
    + destruct (ES.indexOf x l); simpl.
      * split; [done|]. intros [_ H]. by apply IH in H.
      * split; [|done]. intros _. split; [done|]. by apply IH.
Qed.

Lemma indexOf_first x pre post :
  x ∉ pre -> ES.indexOf x (pre ++ x :: post) = Some (length pre).
Proof.
  induction pre as [|y pre IH]; simpl; intros Hx.
  - by rewrite String.eqb_refl.
  - apply not_elem_of_cons in Hx as [Hne Hx].
    destruct (String.eqb_spec y x) as [->|_]; [done|]. by rewrite IH.
Qed.

Lemma splice_at {A} (pre rest : list A) n :
  ES.splice (length pre) n (pre ++ rest) = pre ++ drop n rest.
Proof.
  unfold ES.splice. rewrite take_app_length. f_equal.
  by rewrite drop_app_add'.
Qed.

(** X19: [flag] answers whether the option is among the arguments, and
    removes its first occurrence and nothing else. *)
Theorem flag_removes_first_occurrence name args :
  (("--" +:+ name) ∉ args -> CLI.flag name args = (false, args))
  /\ (forall pre post,
        args = pre ++ ("--" +:+ name) :: post -> ("--" +:+ name) ∉ pre ->
        CLI.flag name args = (true, pre ++ post)).
Proof.
  unfold CLI.flag. split.
  - intros H. by rewrite (proj2 (indexOf_None _ _) H).
  - intros pre post -> H. by rewrite indexOf_first, splice_at.
Qed.

Lemma flag_removes_first_occurrence_witness :
  CLI.flag "json" ["--min-net"; "1"; "--json"; "--json"]
  = (true, ["--min-net"; "1"; "--json"]).
Proof.
  apply (proj2 (flag_removes_first_occurrence "json" ["--min-net"; "1"; "--json"; "--json"])
           ["--min-net"; "1"] ["--json"]); [reflexivity|].
  intros H. repeat (apply elem_of_cons in H as [H|H]; [discriminate H|]).
  by apply elem_of_nil in H.
Defined.

(** X20: [opt] returns the argument that follows the first occurrence of the
    option, whatever that argument is, and removes the two; when the option
    is absent, or its first occurrence is the last argument, it returns the
    fallback and leaves the arguments as they are. *)
Theorem opt_takes_following_argument name fallback args :
  (("--" +:+ name) ∉ args -> CLI.opt name fallback args = (fallback, args))
  /\ (forall pre,
        args = pre ++ ["--" +:+ name] -> ("--" +:+ name) ∉ pre ->
        CLI.opt name fallback args = (fallback, args))
  /\ (forall pre val post,
        args = pre ++ ("--" +:+ name) :: val :: post -> ("--" +:+ name) ∉ pre ->
        CLI.opt name fallback args = (val, pre ++ post)).
Proof.
  unfold CLI.opt. split_and!.
  - intros H. by rewrite (proj2 (indexOf_None _ _) H).
  - intros pre -> H. rewrite indexOf_first by done.
    rewrite length_app. simpl.
    by rewrite (proj2 (Nat.leb_le _ _)) by lia.
  - intros pre val post -> H. rewrite indexOf_first by done.
    rewrite length_app. simpl.
    rewrite (proj2 (Nat.leb_gt _ _)) by lia.
    rewrite lookup_app_r by lia.
    replace (length pre + 1 - length pre) with 1 by lia. simpl.
    by rewrite splice_at.
Qed.

Lemma opt_takes_following_argument_witness :
  CLI.opt "file" "docs/data/timeline.jsonl" ["--file"; "--json"] = ("--json", [])
  /\ CLI.opt "min-net" "0" ["--json"; "--min-net"] = ("0", ["--json"; "--min-net"]).
Proof.
  split.
  - apply (proj2 (proj2 (opt_takes_following_argument "file" "docs/data/timeline.jsonl"
                           ["--file"; "--json"])) [] "--json" []); [reflexivity|].
    by intros ?%elem_of_nil.
  - apply (proj1 (proj2 (opt_takes_following_argument "min-net" "0"
                           ["--json"; "--min-net"])) ["--json"]); [reflexivity|].
    intros H. apply elem_of_cons in H as [H|H]; [discriminate H|].
    by apply elem_of_nil in H.
Defined.

(** * The analyzer *)

(** ** Reading the Tehran time of an entry *)

Lemma split_lacks sep s : lacks sep s = true -> ES.split sep s = (s, []).
Proof.
  induction s as [|c s IH]; simpl; [done|].
  intros [Hc Hs]%andb_true_iff. rewrite (IH Hs).
  by destruct (Ascii.eqb c sep).
Qed.

Lemma split_at_first sep a b :
  lacks sep a = true ->
  ES.split sep (a +:+ String sep b) = (a, (ES.split sep b).1 :: (ES.split sep b).2).
Proof.
  induction a as [|c a IH]; simpl.
  - intros _. rewrite Ascii.eqb_refl. by destruct (ES.split sep b).
  - intros [Hc Hs]%andb_true_iff. rewrite (IH Hs).
    by destruct (Ascii.eqb c sep).
Qed.

(** X21: the analyzer reads back what the scanner wrote: from a
    [tehranTime] made of a date without a space, a space and a time it
    recovers the date, and when the time is hours without a colon or space,
    a colon and minutes without a space, the number of the hours; from a
    [tehranTime] without a space there is no hour to read and [tehranHour]
    fails. *)
Theorem tehranTime_read_back Number entry :
  (forall date time,
     TimelineEntry.tehranTime entry = date +:+ " " +:+ time ->
     lacks space date = true ->
     Analyze.tehranDate entry = date
     /\ forall hh mm,
          time = hh +:+ ":" +:+ mm ->
          lacks colon hh = true -> lacks space hh = true -> lacks space mm = true ->
          Analyze.tehranHour Number entry = Some (Number hh))
  /\ (lacks space (TimelineEntry.tehranTime entry) = true ->
      Analyze.tehranHour Number entry = None).
Proof.
  unfold Analyze.tehranDate, Analyze.tehranHour. split.
  - intros date time -> Hdate.
    change (date +:+ " " +:+ time) with (date +:+ String space time).
    rewrite split_at_first by done. split; [done|].
    intros hh mm -> Hc Hs Hm. simpl.
    change (hh +:+ ":" +:+ mm) with (hh +:+ String colon mm).
    assert (Htime : lacks space (hh +:+ String colon mm) = true).
    { clear Hc. induction hh as [|c hh IH]; simpl in *; [done|].
      apply andb_true_iff in Hs as [-> Hs]. by apply IH. }
    rewrite (split_lacks space _ Htime). simpl.
    by rewrite split_at_first.
  - intros H. by rewrite split_lacks.
Qed.

Lemma tehranTime_read_back_witness :
  Analyze.tehranDate
    (TimelineEntry.mk "2026-03-01T10:35:00.000Z" "2026-03-01 14:05" "USDT" 0.35
       3 2 2 0 1 (Some 2.9%float) (Some "X") (Some "triangle") 0.8 290 [])
  = "2026-03-01"
  /\ Analyze.tehranHour exampleNumber
       (TimelineEntry.mk "2026-03-01T10:35:00.000Z" "2026-03-01 14:05" "USDT" 0.35
          3 2 2 0 1 (Some 2.9%float) (Some "X") (Some "triangle") 0.8 290 [])
     = Some (exampleNumber "14").
Proof.
  pose proof (proj1 (tehranTime_read_back exampleNumber
    (TimelineEntry.mk "2026-03-01T10:35:00.000Z" "2026-03-01 14:05" "USDT" 0.35
       3 2 2 0 1 (Some 2.9%float) (Some "X") (Some "triangle") 0.8 290 []))
    "2026-03-01" "14:05" eq_refl eq_refl) as [Hd Hh].
  split; [exact Hd|]. by apply (Hh "14" "05").
Defined.

(** ** Buckets *)

Section OrderedMap.

Context {V : Type}.

Implicit Types (m : list (string * V)) (k : string) (v : V).

Lemma OrderedMap_get_None k m : k ∉ m.*1 -> ES.OrderedMap_get k m = None.
Proof.
  induction m as [|[k' v'] m IH]; csimpl; [done|].
  intros [Hne Hk]%not_elem_of_cons.
  destruct (String.eqb_spec k' k) as [->|_]; [done|]. by apply IH.
Qed.

Lemma OrderedMap_set_new k v m : k ∉ m.*1 -> ES.OrderedMap_set k v m = m ++ [(k, v)].
Proof.
  induction m as [|[k' v'] m IH]; csimpl; [done|].
  intros [Hne Hk]%not_elem_of_cons.
  destruct (String.eqb_spec k' k) as [->|_]; [done|]. by rewrite IH.
Qed.

Lemma OrderedMap_set_keys k v m :
  (ES.OrderedMap_set k v m).*1 = ES.Set_add k m.*1.
Proof.
  unfold ES.Set_add. induction m as [|[k' v'] m IH]; csimpl; [done|].
  destruct (String.eqb_spec k' k) as [->|Hne].
  - rewrite bool_decide_eq_true_2 by apply list_elem_of_here. done.
  - csimpl. rewrite IH. case_bool_decide as Hk.
    + rewrite bool_decide_eq_true_2 by by apply list_elem_of_further. done.
    + rewrite bool_decide_eq_false_2; [done|].
      intros [?|?]%elem_of_cons; [congruence|done].
Qed.

(** A map that holds [f k] under every key [k] of [keys]. *)
Lemma OrderedMap_get_tabulated (f : string -> V) keys k :
  k ∈ keys -> ES.OrderedMap_get k ((fun k => (k, f k)) <$> keys) = Some (f k).
Proof.
  induction keys as [|k' keys IH]; csimpl; [by intros ?%elem_of_nil|].
  intros Hk. destruct (String.eqb_spec k' k) as [->|Hne]; [done|].
  apply IH. apply elem_of_cons in Hk as [?|?]; [congruence|done].
Qed.

Lemma tabulated_ext (f g : string -> V) (keys : list string) :
  (forall k, k ∈ keys -> g k = f k) ->
  (fun k => (k, g k)) <$> keys = (fun k => (k, f k)) <$> keys.
Proof.
  induction keys as [|k keys IH]; intros H; csimpl; [done|].
  rewrite (H k) by apply list_elem_of_here. f_equal.
  apply IH. intros k' Hk'. by apply H, list_elem_of_further.
Qed.

Lemma tabulated_keys (f : string -> V) (keys : list string) :
  ((fun k => (k, f k)) <$> keys).*1 = keys.
Proof. induction keys as [|k keys IH]; csimpl; [done|]. by rewrite IH. Qed.

Lemma OrderedMap_set_tabulated (f g : string -> V) keys k :
  NoDup keys -> k ∈ keys -> (forall k', k' <> k -> g k' = f k') ->
  ES.OrderedMap_set k (g k) ((fun k => (k, f k)) <$> keys) = (fun k => (k, g k)) <$> keys.
Proof.
  intros Hnd Hk Hg. induction keys as [|k' keys IH]; csimpl; [by apply elem_of_nil in Hk|].
  apply NoDup_cons in Hnd as [Hk' Hnd].
  destruct (String.eqb_spec k' k) as [->|Hne].
  - f_equal. symmetry. apply tabulated_ext. intros k' Hin. apply Hg. congruence.
  - rewrite (Hg k') by done. f_equal. apply IH; [done|].
    apply elem_of_cons in Hk as [?|?]; [congruence|done].
Qed.

(** Setting fresh keys one after the other appends them. *)
Lemma fold_OrderedMap_set_fresh {A} (g : A -> V) (l : list (string * A)) : forall m,
  NoDup (m.*1 ++ l.*1) ->
  fold_left (fun result '(key, items) => ES.OrderedMap_set key (g items) result) l m
  = m ++ ((fun '(key, items) => (key, g items)) <$> l).
Proof.
  induction l as [|[k a] l IH]; intros m Hnd; csimpl; [by rewrite app_nil_r|].
  csimpl in Hnd. rewrite OrderedMap_set_new.
  - rewrite IH; [by rewrite <- app_assoc|].
    by rewrite fmap_app, <- app_assoc.
  - apply NoDup_app in Hnd as (_ & Hdisj & _). intros Hk.
    apply (Hdisj k Hk), list_elem_of_here.
Qed.

End OrderedMap.

Lemma elem_of_firstAppearances_from l : forall seen x,
  x ∈ fold_left (fun seen x => ES.Set_add x seen) l seen <-> x ∈ seen \/ x ∈ l.
Proof.
  induction l as [|y l IH]; intros seen x; csimpl.
  - rewrite elem_of_nil. tauto.
  - rewrite IH, elem_of_Set_add, elem_of_cons. tauto.
Qed.

Lemma elem_of_firstAppearances l x : x ∈ firstAppearances l <-> x ∈ l.
Proof.
  unfold firstAppearances. rewrite elem_of_firstAppearances_from, elem_of_nil. tauto.
Qed.

Lemma NoDup_firstAppearances_from l : forall seen,
  NoDup seen -> NoDup (fold_left (fun seen x => ES.Set_add x seen) l seen).
Proof.
  induction l as [|y l IH]; intros seen Hs; csimpl; [done|].
  by apply IH, NoDup_Set_add.
Qed.

Lemma NoDup_firstAppearances l : NoDup (firstAppearances l).
Proof. apply NoDup_firstAppearances_from, NoDup_nil_2. Qed.

Lemma firstAppearances_snoc l x :
  firstAppearances (l ++ [x]) = ES.Set_add x (firstAppearances l).
Proof. unfold firstAppearances. by rewrite fold_left_app. Qed.

Lemma NoDup_fmap_take_perm {A B} (f : A -> B) (l l' : list A) n :
  l' ≡ₚ l -> NoDup (f <$> l) -> NoDup (f <$> take n l').
Proof.
  intros Hp Hnd. rewrite <- Hp in Hnd.
  rewrite <- (take_drop n l'), fmap_app in Hnd.
  by apply NoDup_app in Hnd as [? _].
Qed.

Section Buckets.

Variable MIN_NET : float.
Variable keyFn : TimelineEntry.t -> string.

(** The entries of [entries] filed under [k]. *)
Local Abbreviation under entries k := (filter (fun e => keyFn e = k) entries).

Lemma buckets_tabulated entries :
  Analyze.buckets entries keyFn
  = (fun k => (k, under entries k)) <$> firstAppearances (keyFn <$> entries).
Proof.
  induction entries as [|e l IH] using rev_ind; [done|].
  unfold Analyze.buckets in *. rewrite fold_left_app. csimpl. rewrite IH. clear IH.
  rewrite fmap_app. csimpl. rewrite firstAppearances_snoc.
  pose proof (NoDup_firstAppearances (keyFn <$> l)) as Hnd.
  assert (Hother : forall k, k <> keyFn e -> under (l ++ [e]) k = under l k).
  { intros k Hk. rewrite filter_app, filter_cons, decide_False by done.
    by rewrite filter_nil, app_nil_r. }
  assert (Hown : under (l ++ [e]) (keyFn e) = under l (keyFn e) ++ [e]).
  { by rewrite filter_app, filter_cons, decide_True. }
  unfold ES.Set_add. case_bool_decide as Hk.
  - rewrite OrderedMap_get_tabulated by done. csimpl. rewrite <- Hown.
    exact (OrderedMap_set_tabulated (fun k => under l k) (fun k => under (l ++ [e]) k)
             _ (keyFn e) Hnd Hk Hother).
  - rewrite OrderedMap_get_None by by rewrite tabulated_keys. csimpl.
    rewrite OrderedMap_set_new by by rewrite tabulated_keys.
    rewrite fmap_app. csimpl. f_equal.
    + symmetry. apply tabulated_ext. intros k Hin. apply Hother. congruence.
    + rewrite Hown. do 2 f_equal. rewrite filter_none; [done|].
      intros e' He' Hkey. apply Hk, elem_of_firstAppearances, list_elem_of_fmap.
      by exists e'.
Qed.

Lemma bucketize_tabulated entries :
  Analyze.bucketize MIN_NET entries keyFn
  = (fun k => (k, Analyze.bucketStats MIN_NET (under entries k)))
    <$> firstAppearances (keyFn <$> entries).
Proof.
  unfold Analyze.bucketize. rewrite fold_OrderedMap_set_fresh.
  - rewrite buckets_tabulated. csimpl. by rewrite <- list_fmap_compose.
  - csimpl. rewrite buckets_tabulated, tabulated_keys. apply NoDup_firstAppearances.
Qed.

Lemma count_one_key (keys : list string) k0 :
  NoDup keys -> k0 ∈ keys ->
  sum_list ((fun k => if decide (k0 = k) then 1 else 0) <$> keys) = 1.
Proof.
  induction keys as [|k keys IH]; intros Hnd Hin; [by apply elem_of_nil in Hin|].
  apply NoDup_cons in Hnd as [Hk Hnd]. csimpl.
  destruct (decide (k0 = k)) as [->|Hne].
  - f_equal. clear IH Hin. induction keys as [|k' keys IH]; csimpl; [done|].
    apply not_elem_of_cons in Hk as [Hne Hk].
    rewrite decide_False by done. apply IH; [done|].
    by apply NoDup_cons in Hnd as [_ ?].
  - apply IH; [done|]. apply elem_of_cons in Hin as [?|?]; [done|done].
Qed.

Lemma sum_list_fmap_add {A} (f g : A -> nat) (l : list A) :
  sum_list ((fun x => f x + g x) <$> l) = sum_list (f <$> l) + sum_list (g <$> l).
Proof. induction l as [|x l IH]; csimpl; [done|]. rewrite IH. lia. Qed.

Lemma scans_add_up (keys : list string) entries :
  NoDup keys -> (forall e, e ∈ entries -> keyFn e ∈ keys) ->
  sum_list ((fun k => length (under entries k)) <$> keys) = length entries.
Proof.
  intros Hnd. induction entries as [|e l IH]; intros Hkeys.
  - csimpl. clear. induction keys as [|k keys IH]; csimpl; [done|]. by rewrite IH.
  - transitivity
      (sum_list ((fun k => (if decide (keyFn e = k) then 1 else 0) + length (under l k))
                   <$> keys)).
    { f_equal. clear. induction keys as [|k keys IH]; csimpl; [done|].
      rewrite IH. f_equal. rewrite filter_cons. by destruct (decide (keyFn e = k)). }
    rewrite sum_list_fmap_add.
    rewrite count_one_key by (done || apply Hkeys, list_elem_of_here).
    rewrite IH; [done|]. intros e' He'. by apply Hkeys, list_elem_of_further.
Qed.

(** X22: [bucketize] files every entry under its key, once: the result has
    one bucket for each distinct key, in the order in which the keys first
    appear, holding the statistics of the entries with that key in their
    order; no bucket is empty, and the [scans] of the buckets add up to the
    number of entries. *)
Theorem bucketize_groups_by_key entries :
  Analyze.bucketize MIN_NET entries keyFn
  = (fun k => (k, Analyze.bucketStats MIN_NET (filter (fun e => keyFn e = k) entries)))
    <$> firstAppearances (keyFn <$> entries)
  /\ (forall k stats, (k, stats) ∈ Analyze.bucketize MIN_NET entries keyFn ->
        BucketStats.scans stats = length (filter (fun e => keyFn e = k) entries)
        /\ 1 <= BucketStats.scans stats)
  /\ sum_list
       ((fun bucket => BucketStats.scans bucket.2)
          <$> Analyze.bucketize MIN_NET entries keyFn)
     = length entries.
Proof.
  rewrite bucketize_tabulated. split_and!; [done| |].
  - intros k stats (k' & [= <- ->] & Hk)%list_elem_of_fmap. csimpl. split; [done|].
    apply elem_of_firstAppearances, list_elem_of_fmap in Hk as (e & -> & He).
    assert (Hin : e ∈ under entries (keyFn e)) by by apply list_elem_of_filter.
    destruct (under entries (keyFn e)); [by apply elem_of_nil in Hin|csimpl; lia].
  - rewrite <- list_fmap_compose. csimpl.
    apply scans_add_up; [apply NoDup_firstAppearances|].
    intros e He. apply elem_of_firstAppearances, list_elem_of_fmap. by exists e.
Qed.

(** The opportunities of an entry that count towards the top assets. *)
Local Abbreviation qualified e :=
  (filter (fun o => (MIN_NET <=? CompactOpp.net o)%float = true) (TimelineEntry.top e)).

Lemma count_assets_keys (assets : list string) : forall (counts : list (string * float)),
  (fold_left
     (fun assetCount a =>
        ES.OrderedMap_set a (default 0%float (ES.OrderedMap_get a assetCount) + 1)%float
          assetCount)
     assets counts).*1
  = fold_left (fun seen a => ES.Set_add a seen) assets counts.*1.
Proof.
  induction assets as [|a assets IH]; intros counts; csimpl; [done|].
  by rewrite IH, OrderedMap_set_keys.
Qed.

Lemma fold_left_bind {A B C} (f : C -> B -> C) (g : A -> list B) (l : list A) : forall c,
  fold_left f (l ≫= g) c = fold_left (fun c x => fold_left f (g x) c) l c.
Proof.
  induction l as [|x l IH]; intros c; [done|].
  by rewrite bind_cons, fold_left_app, IH.
Qed.

Lemma assetCount_keys items :
  (Analyze.assetCount MIN_NET items).*1
  = firstAppearances (items ≫= fun e => qualified e ≫= CompactOpp.assets).
Proof.
  unfold Analyze.assetCount, firstAppearances.
  change (@nil string) with ((@nil (string * float)).*1).
  generalize (@nil (string * float)) as counts.
  induction items as [|e items IH]; intros counts; [done|].
  rewrite bind_cons, fold_left_app. csimpl. rewrite IH. f_equal. clear IH.
  generalize (qualified e) as opps. intros opps. revert counts.
  induction opps as [|o opps IH]; intros counts; [done|].
  rewrite bind_cons, fold_left_app. csimpl. by rewrite IH, count_assets_keys.
Qed.

Lemma OrderedMap_get_value {V} k (m : list (string * V)) v :
  ES.OrderedMap_get k m = Some v -> v ∈ m.*2.
Proof.
  induction m as [|[k' v'] m IH]; csimpl; [done|].
  destruct (String.eqb k' k).
  - intros [= ->]. left.
  - intros Hm. right. by apply IH.
Qed.

Lemma OrderedMap_set_values {V} k (v : V) m x :
  x ∈ (ES.OrderedMap_set k v m).*2 -> x = v \/ x ∈ m.*2.
Proof.
  induction m as [|[k' v'] m IH]; csimpl.
  - intros ->%list_elem_of_singleton. by left.
  - destruct (String.eqb k' k); csimpl.
    + intros [->|Hx]%elem_of_cons; [by left|]. right. by right.
    + intros [->|Hx]%elem_of_cons; [right; left|].
      destruct (IH Hx) as [->|Hm]; [by left|]. right. by right.
Qed.

Lemma fold_left_invariant {A B} (P : A -> Prop) (f : A -> B -> A) (l : list B) :
  (forall a b, P a -> P (f a b)) -> forall a, P a -> P (fold_left f l a).
Proof. intros Hf. induction l as [|b l IH]; intros a Ha; [done|]. by apply IH, Hf. Qed.

(** Every count is a number. *)
Lemma assetCount_values_not_nan items x :
  x ∈ (Analyze.assetCount MIN_NET items).*2 -> is_nan x = false.
Proof.
  revert x. unfold Analyze.assetCount.
  apply (fold_left_invariant
           (fun m : list (string * float) => forall x, x ∈ m.*2 -> is_nan x = false));
    [|by intros x ?%elem_of_nil].
  intros m e Hm.
  apply (fold_left_invariant
           (fun m : list (string * float) => forall x, x ∈ m.*2 -> is_nan x = false));
    [|done].
  clear m Hm. intros m o Hm.
  apply (fold_left_invariant
           (fun m : list (string * float) => forall x, x ∈ m.*2 -> is_nan x = false));
    [|done].
  clear m Hm. intros m a Hm x [->|Hx]%OrderedMap_set_values; [|by apply Hm].
  apply FloatSigns.add_not_nan; [|done].
  destruct (ES.OrderedMap_get a m) as [v|] eqn:E; [|done].
  by apply Hm, (OrderedMap_get_value a).
Qed.

(** X23: [topAssets] lists at most five assets, none twice, each with a
    count at least that of every asset listed after it; every asset listed is
    named by an opportunity of the bucket whose [net] is at least [MIN_NET],
    and when no more than five assets are so named all of them are listed. *)
Theorem topAssets_ranked items :
  let topAssets := BucketStats.topAssets (Analyze.bucketStats MIN_NET items) in
  let named a :=
    exists e o, e ∈ items /\ o ∈ TimelineEntry.top e
      /\ (MIN_NET <=? CompactOpp.net o)%float = true /\ a ∈ CompactOpp.assets o in
  length topAssets <= 5
  /\ NoDup topAssets.*1
  /\ StronglySorted (fun a b => (b.2 <=? a.2)%float = true) topAssets
  /\ (forall a, a ∈ topAssets.*1 -> named a)
  /\ (length (Analyze.assetCount MIN_NET items) <= 5 ->
      forall a, named a -> a ∈ topAssets.*1).
Proof.
  intros topAssets named. subst topAssets.
  set (cmp := fun a b : string * float => (b.2 - a.2)%float).
  change (BucketStats.topAssets (Analyze.bucketStats MIN_NET items))
    with (take 5 (JS.Array_sort cmp (Analyze.assetCount MIN_NET items))).
  assert (Hnamed : forall a, a ∈ (Analyze.assetCount MIN_NET items).*1 <-> named a).
  { intros a. rewrite assetCount_keys, elem_of_firstAppearances, list_elem_of_bind.
    split.
    - intros (e & (o & Ha & [Hq Ho]%list_elem_of_filter)%list_elem_of_bind & He).
      by exists e, o.
    - intros (e & o & He & Ho & Hq & Ha). exists e. split; [|done].
      apply list_elem_of_bind. exists o. split; [done|]. by apply list_elem_of_filter. }
  assert (Hsub : take 5 (JS.Array_sort cmp (Analyze.assetCount MIN_NET items))
                 ⊆ JS.Array_sort cmp (Analyze.assetCount MIN_NET items))
    by apply subseteq_take.
  assert (Hnum : forall a,
             a ∈ take 5 (JS.Array_sort cmp (Analyze.assetCount MIN_NET items)) ->
             is_nan a.2 = false).
  { intros a Ha%Hsub. apply (proj1 (elem_of_Array_sort cmp _ _)) in Ha.
    apply (assetCount_values_not_nan items), list_elem_of_fmap. by exists a. }
  split_and!.
  - rewrite length_take. lia.
  - apply (NoDup_fmap_take_perm fst _ _ 5 (Array_sort_perm cmp _)).
    rewrite assetCount_keys. apply NoDup_firstAppearances.
  - apply (@Sorted_StronglySorted _ (fun a b : string * float => (b.2 <=? a.2)%float = true)).
    { intros a b c Hab Hbc. by eapply FloatFacts.float_leb_trans. }
    eapply Sorted_weaken_elem; [|apply Sorted_take, Array_sort_sorted].
    + intros a b Ha Hb Hab. unfold inOrder, cmp in Hab.
      apply FloatFacts.float_leb_total; [by apply Hnum|by apply Hnum|].
      destruct (a.2 <? b.2)%float eqn:E; [|done].
      apply FloatFacts.float_ltb_sub_pos in E. congruence.
    + intros a b. apply FloatFacts.sub_pos_asym.
  - intros a (x & -> & Hx)%list_elem_of_fmap. apply Hnamed.
    apply list_elem_of_fmap. exists x. split; [done|].
    by apply (elem_of_Array_sort cmp), Hsub.
  - intros Hlen a (x & -> & Hx)%Hnamed%list_elem_of_fmap.
    rewrite take_ge by (rewrite Array_sort_length; lia).
    apply list_elem_of_fmap. exists x. split; [done|]. by apply elem_of_Array_sort.
Qed.

End Buckets.

(** ** The maxima of a bucket *)

Section MathMax.

Import FloatFacts.
Local Open Scope float_scope.

Lemma max_from_not_nan l : forall highest,
  is_nan highest = false -> (forall x, x ∈ l -> is_nan x = false) ->
  is_nan (ES.max_from highest l) = false.
Proof.
  induction l as [|n l IH]; intros highest Hh H; simpl; [exact Hh|].
  assert (En : is_nan n = false) by (apply H; left).
  assert (H' : forall x, x ∈ l -> is_nan x = false) by (intros; apply H; by right).
  rewrite En. destruct (_ && _); [auto|]. destruct (highest <? n); auto.
Qed.

Lemma max_from_in l : forall highest,
  is_nan (ES.max_from highest l) = false ->
  ES.max_from highest l = highest \/ ES.max_from highest l ∈ l.
Proof.
  induction l as [|n l IH]; intros highest H; simpl in *; [by left|].
  destruct (is_nan n); [discriminate|].
  destruct (_ && _); [|destruct (highest <? n)].
  - right. destruct (IH _ H) as [->|?]; [left|by right].
  - right. destruct (IH _ H) as [->|?]; [left|by right].
  - destruct (IH _ H) as [E|?]; [by left|right; by right].
Qed.

Lemma max_from_upper l : forall highest,
  is_nan highest = false -> is_nan (ES.max_from highest l) = false ->
  (highest <=? ES.max_from highest l) = true /\
  forall x, x ∈ l -> (x <=? ES.max_from highest l) = true.
Proof.
  induction l as [|n l IH]; intros highest Hh H; simpl in *.
  - split; [|intros x Hx; by apply elem_of_nil in Hx].
    apply float_eqb_leb, float_eqb_refl, Hh.
  - destruct (is_nan n) eqn:En; [discriminate|].
    destruct (Leibniz.eqb n zero && Leibniz.eqb highest neg_zero) eqn:Ez;
      [|destruct (highest <? n) eqn:Elt].
    + apply andb_prop in Ez as [E1 E2].
      apply Leibniz.eqb_spec in E1, E2. subst n highest.
      destruct (IH _ En H) as [H1 H2]. split.
      * eapply float_leb_trans; [|exact H1]. reflexivity.
      * intros x Hx. apply elem_of_cons in Hx as [->|Hx]; auto.
    + destruct (IH _ En H) as [H1 H2]. split.
      * eapply float_leb_trans; [by apply float_ltb_leb|exact H1].
      * intros x Hx. apply elem_of_cons in Hx as [->|Hx]; auto.
    + destruct (IH _ Hh H) as [H1 H2]. split; [exact H1|].
      intros x Hx. apply elem_of_cons in Hx as [->|Hx]; auto.
      eapply float_leb_trans; [|exact H1]. by apply float_leb_total.
Qed.

Lemma float_leb_neg_infinity x : (x <=? neg_infinity) = true -> (neg_infinity =? x) = true.
Proof.
  rewrite FloatAxioms.leb_spec, FloatAxioms.eqb_spec.
  change (Prim2SF neg_infinity) with (S754_infinity true).
  generalize (Prim2SF x); intros s; sf_order.
Qed.

(** [Math.max] of numbers is a number, no argument is above it, and it is
    one of the arguments. *)
Lemma Math_max_greatest l :
  l <> [] -> (forall x, x ∈ l -> is_nan x = false) ->
  (forall x, x ∈ l -> (x <=? ES.Math_max l) = true)
  /\ exists x, x ∈ l /\ (ES.Math_max l =? x) = true.
Proof.
  intros Hl Hn.
  assert (H : is_nan (ES.Math_max l) = false) by by apply max_from_not_nan.
  destruct (max_from_upper l neg_infinity eq_refl H) as [_ Hup].
  split; [exact Hup|].
  destruct (max_from_in l neg_infinity H) as [E|Hin].
  - destruct l as [|x l]; [done|]. exists x. split; [left|].
    pose proof (Hup x ltac:(left)) as Hx.
    unfold ES.Math_max in *. rewrite E in *. by apply float_leb_neg_infinity.
  - exists (ES.Math_max l). split; [exact Hin|]. by apply float_eqb_refl.
Qed.

Variable MIN_NET : float.

(** X28: in the statistics of a bucket whose values are numbers,
    [maxBestNet] is the greatest [bestNet] of its entries, a missing
    [bestNet] counting as 0, and [maxProfitableCount] their greatest
    [profitableCount]: no entry has more, and some entry has exactly that. *)
Theorem bucket_maxima_are_attained items :
  items <> [] ->
  let stats := Analyze.bucketStats MIN_NET items in
  ((forall e, e ∈ items -> is_nan (default 0 (TimelineEntry.bestNet e)) = false) ->
   (forall e, e ∈ items ->
      (default 0 (TimelineEntry.bestNet e) <=? BucketStats.maxBestNet stats) = true)
   /\ exists e, e ∈ items
        /\ (BucketStats.maxBestNet stats =? default 0 (TimelineEntry.bestNet e)) = true)
  /\ ((forall e, e ∈ items -> is_nan (TimelineEntry.profitableCount e) = false) ->
      (forall e, e ∈ items ->
         (TimelineEntry.profitableCount e <=? BucketStats.maxProfitableCount stats) = true)
      /\ exists e, e ∈ items
           /\ (BucketStats.maxProfitableCount stats =? TimelineEntry.profitableCount e)
              = true).
Proof.
  intros Hitems stats.
  assert (Hmax : forall f : TimelineEntry.t -> float,
    (forall e, e ∈ items -> is_nan (f e) = false) ->
    (forall e, e ∈ items -> (f e <=? ES.Math_max (map f items)) = true)
    /\ exists e, e ∈ items /\ (ES.Math_max (map f items) =? f e) = true).
  { intros f Hn.
    destruct (Math_max_greatest (map f items)) as [Hup (x & Hx & Hmax)].
    - by destruct items.
    - intros x (e & -> & He)%list_elem_of_fmap. by apply Hn.
    - split.
      + intros e He. apply Hup, list_elem_of_fmap. by exists e.
      + apply list_elem_of_fmap in Hx as (e & -> & He). by exists e. }
  split; intros Hn; by apply Hmax.
Qed.

End MathMax.

Lemma bucket_maxima_are_attained_witness :
  let e1 := TimelineEntry.mk "2026-03-01T10:35:00.000Z" "2026-03-01 14:05" "USDT" 0.35
              3 2 2 0 1 (Some 2.9%float) (Some "X") (Some "triangle") 0.8 290 [] in
  let e2 := TimelineEntry.mk "2026-03-01T10:36:00.000Z" "2026-03-01 14:06" "USDT" 0.35
              3 0 0 0 0 None None None 0 0 [] in
  (default 0 (TimelineEntry.bestNet e2)
   <=? BucketStats.maxBestNet (Analyze.bucketStats 0 [e1; e2]))%float = true.
Proof.
  intros e1 e2.
  refine (proj1 (proj1 (bucket_maxima_are_attained 0 [e1; e2] _) _) e2 _); [done| |].
  - intros e He. repeat (apply elem_of_cons in He as [->|He]; [reflexivity|]).
    by apply elem_of_nil in He.
  - apply list_elem_of_further, list_elem_of_here.
Defined.

(** * Profit and rate; opportunities reported once *)

Section Profit.

Import FloatFacts FloatSigns.

Lemma sub_not_nan_args x y :
  is_nan (y - x)%float = false -> is_nan x = false /\ is_nan y = false.
Proof.
  rewrite !is_nan_spec, FloatAxioms.sub_spec. unfold SF64sub.
  by destruct (Prim2SF x) as [[]|[]| |[] mx ex], (Prim2SF y) as [[]|[]| |[] my ey].
Qed.

(** A positive difference has the greater number first. *)
Lemma sub_pos_ltb x y : JS.gt (y - x)%float 0 = true -> (x <? y)%float = true.
Proof.
  intros H. destruct (gt_zero_regular _ H) as [Hn _].
  apply sub_not_nan_args in Hn as [Hx Hy].
  destruct (x <? y)%float eqn:E; [done|].
  pose proof (float_leb_total x y Hx Hy E) as Hle.
  destruct (y =? x)%float eqn:Eq.
  - apply float_eqb_sym, sub_eqb_not_pos in Eq. congruence.
  - apply (float_leb_neq_ltb _ _ Hle), float_ltb_sub_pos, sub_pos_asym in Eq. congruence.
Qed.

(** X24: with a fee that is not negative, an opportunity with positive
    [netPct] has a [grossPct] above the fee, hence positive, and a rate
    above 1. *)
Theorem profitable_rate_above_one pairs baseCurrency feeRatePct maxResults o :
  o ∈ findTriangles pairs baseCurrency feeRatePct
  \/ o ∈ findCrossPairs pairs baseCurrency feeRatePct maxResults
  \/ o ∈ findAllOpportunities pairs baseCurrency feeRatePct ->
  (0 <=? Opportunity.feePct o)%float = true ->
  JS.gt (Opportunity.netPct o) 0 = true ->
  (Opportunity.feePct o <? Opportunity.grossPct o)%float = true
  /\ JS.gt (Opportunity.grossPct o) 0 = true
  /\ (1 <? Opportunity.rate o)%float = true.
Proof.
  intros Ho Hfee Hnet.
  assert (He : Opportunity.netPct o = (Opportunity.grossPct o - Opportunity.feePct o)%float
               /\ Opportunity.grossPct o = ((Opportunity.rate o - 1) * 100)%float).
  { apply found_cases in Ho as [(bridge & e & _ & _ & Ho)|(s & b & _ & _ & Ho)].
    - by apply elem_of_triangleEmit in Ho as [(_ & _ & ->)|(_ & _ & ->)].
    - by apply elem_of_crossEmit in Ho as (_ & _ & _ & _ & ->). }
  destruct He as [En Eg]. rewrite En in Hnet. apply sub_pos_ltb in Hnet.
  assert (Hg : JS.gt (Opportunity.grossPct o) 0 = true).
  { unfold JS.gt. by eapply float_leb_ltb_trans. }
  split_and!; [done|done|].
  rewrite Eg in Hg. apply mul_pos_factor in Hg; [|reflexivity].
  by apply sub_pos_ltb.
Qed.

Lemma profitable_rate_above_one_witness :
  let o := cwOpportunity (MarketPair.mk "USDTIRT" "USDT" "IRT" 990 1000 1000 1000)
             "USDT" (3 * 0.35)%float
             (AssetEntry.mk "X" (MarketPair.mk "XIRT" "X" "IRT" 990 10 1000 10)
                (MarketPair.mk "XUSDT" "X" "USDT" 1.05 10 1.06 10)) in
  (1 <? Opportunity.rate o)%float = true.
Proof.
  intros o.
  apply (profitable_rate_above_one (examplePairs 1000 1000) "USDT" 0.35%float 200 o).
  - left. vm_compute. apply list_elem_of_here.
  - reflexivity.
  - reflexivity.
Defined.

End Profit.

(** ** No opportunity is reported twice *)

Lemma NoDup_fmap_eq {A B} (f : A -> B) (l : list A) x y :
  NoDup (f <$> l) -> x ∈ l -> y ∈ l -> f x = f y -> x = y.
Proof.
  induction l as [|z l IH]; csimpl; [by intros _ ?%elem_of_nil|].
  intros [Hz Hnd]%NoDup_cons [->|Hx]%elem_of_cons [->|Hy]%elem_of_cons E; [done| | |by apply IH].
  - exfalso. apply Hz. rewrite E. apply list_elem_of_fmap. by exists y.
  - exfalso. apply Hz. rewrite <- E. apply list_elem_of_fmap. by exists x.
Qed.

Lemma fmap_bind_list {A B C} (f : B -> C) (g : A -> list B) (l : list A) :
  f <$> (l ≫= g) = l ≫= fun x => f <$> g x.
Proof.
  induction l as [|x l IH]; [done|]. by rewrite !bind_cons, fmap_app, IH.
Qed.

(** The key of an opportunity: the assets it names and its direction. *)
Lemma triangleEmit_keys bridge baseCurrency totalFee e :
  (fun o => (Opportunity.assets o, Opportunity.direction o))
    <$> triangleEmit bridge baseCurrency totalFee e
  `sublist_of` [([AssetEntry.asset e], cw); ([AssetEntry.asset e], ccw)].
Proof.
  unfold triangleEmit.
  destruct (JS.isFinite (cwRate bridge e) && JS.gt (cwVol bridge e) 0),
    (JS.isFinite (ccwRate bridge e) && JS.gt (ccwVol bridge e) 0); csimpl.
  - done.
  - by apply sublist_skip, sublist_cons.
  - by apply sublist_cons.
  - by do 2 apply sublist_cons.
Qed.

Lemma crossEmit_keys baseCurrency totalFee seller buyer :
  (fun o => (Opportunity.assets o, Opportunity.direction o))
    <$> crossEmit baseCurrency totalFee seller buyer
  `sublist_of` [([WithRatios.asset seller; WithRatios.asset buyer], cross_direction)].
Proof.
  unfold crossEmit. repeat case_match; csimpl; try done; by apply sublist_cons.
Qed.

Lemma findTriangles_once pairs baseCurrency feeRatePct :
  NoDup (AssetEntry.asset <$> buildAssetEntries pairs baseCurrency) ->
  NoDup ((fun o => (Opportunity.assets o, Opportunity.direction o))
           <$> findTriangles pairs baseCurrency feeRatePct).
Proof.
  intros Hnd. rewrite findTriangles_bind.
  destruct (indexPairs pairs !! indexKey baseCurrency "IRT") as [bridge|];
    [|apply NoDup_nil_2].
  rewrite fmap_bind_list. apply NoDup_bind.
  - intros e1 e2 k He1 He2 Hk1 Hk2.
    apply (NoDup_fmap_eq AssetEntry.asset _ _ _ Hnd He1 He2).
    apply (sublist_subseteq _ _ (triangleEmit_keys _ _ _ _)) in Hk1, Hk2.
    repeat (apply elem_of_cons in Hk1 as [->|Hk1]);
      repeat (apply elem_of_cons in Hk2 as [Hk2|Hk2]);
      try (by apply elem_of_nil in Hk1); try (by apply elem_of_nil in Hk2);
      congruence.
  - intros e _. eapply sublist_NoDup; [|apply triangleEmit_keys].
    apply NoDup_cons. split; [|apply NoDup_singleton].
    intros [=]%list_elem_of_singleton.
  - by apply NoDup_fmap_1 in Hnd.
Qed.

Lemma bySell_assets_NoDup entries :
  NoDup (AssetEntry.asset <$> entries) -> NoDup (WithRatios.asset <$> bySell entries).
Proof.
  intros Hnd. unfold bySell, JS.slice0. cbv zeta.
  eapply NoDup_fmap_take_perm; [apply Array_sort_perm|].
  by rewrite <- list_fmap_compose.
Qed.

Lemma byBuy_assets_NoDup entries :
  NoDup (AssetEntry.asset <$> entries) -> NoDup (WithRatios.asset <$> byBuy entries).
Proof.
  intros Hnd. unfold byBuy, JS.slice0. cbv zeta.
  eapply NoDup_fmap_take_perm; [apply Array_sort_perm|].
  by rewrite <- list_fmap_compose.
Qed.

Lemma findCrossPairs_once pairs baseCurrency feeRatePct maxResults :
  NoDup (AssetEntry.asset <$> buildAssetEntries pairs baseCurrency) ->
  NoDup ((fun o => (Opportunity.assets o, Opportunity.direction o))
           <$> findCrossPairs pairs baseCurrency feeRatePct maxResults).
Proof.
  intros Hnd. rewrite findCrossPairs_bind. cbv zeta. unfold JS.slice0.
  eapply NoDup_fmap_take_perm; [apply Array_sort_perm|].
  pose proof (bySell_assets_NoDup _ Hnd) as Hs.
  pose proof (byBuy_assets_NoDup _ Hnd) as Hb.
  set (key := fun o => (Opportunity.assets o, Opportunity.direction o)).
  assert (Hkey : forall s b k,
    k ∈ key <$> crossEmit baseCurrency (4 * feeRatePct)%float s b ->
    k = ([WithRatios.asset s; WithRatios.asset b], cross_direction)).
  { intros s b k Hk. apply (sublist_subseteq _ _ (crossEmit_keys _ _ _ _)) in Hk.
    by apply list_elem_of_singleton in Hk. }
  rewrite fmap_bind_list. apply NoDup_bind.
  - intros s1 s2 k Hs1 Hs2 Hk1 Hk2.
    apply (NoDup_fmap_eq WithRatios.asset _ _ _ Hs Hs1 Hs2).
    rewrite fmap_bind_list in Hk1, Hk2.
    apply list_elem_of_bind in Hk1 as (b1 & Hk1%Hkey & _).
    apply list_elem_of_bind in Hk2 as (b2 & Hk2%Hkey & _). congruence.
  - intros s _. rewrite fmap_bind_list. apply NoDup_bind.
    + intros b1 b2 k Hb1 Hb2 Hk1%Hkey Hk2%Hkey.
      apply (NoDup_fmap_eq WithRatios.asset _ _ _ Hb Hb1 Hb2). congruence.
    + intros b _. eapply sublist_NoDup; [apply NoDup_singleton|apply crossEmit_keys].
    + by apply NoDup_fmap_1 in Hb.
  - by apply NoDup_fmap_1 in Hs.
Qed.

Lemma opportunities_shape_direction pairs baseCurrency feeRatePct maxResults t c :
  t ∈ findTriangles pairs baseCurrency feeRatePct ->
  c ∈ findCrossPairs pairs baseCurrency feeRatePct maxResults ->
  Opportunity.direction t <> Opportunity.direction c.
Proof.
  intros (bridge & e & _ & _ & Ht)%elem_of_findTriangles
         (s & b & _ & _ & Hc)%elem_of_findCrossPairs.
  apply elem_of_crossEmit in Hc as (_ & _ & _ & _ & ->).
  by apply elem_of_triangleEmit in Ht as [(_ & _ & ->)|(_ & _ & ->)].
Qed.

(** X25: over a snapshot, whose keys are distinct, no opportunity is
    reported twice: in the result of [findAllOpportunities] no two
    opportunities name the same assets in the same direction. *)
Theorem no_opportunity_reported_twice Number data baseCurrency feeRatePct :
  NoDup data.*1 ->
  NoDup ((fun o => (Opportunity.assets o, Opportunity.direction o))
           <$> findAllOpportunities (parseAllPairs Number data) baseCurrency feeRatePct).
Proof.
  intros Hdata.
  assert (Hnd : NoDup (AssetEntry.asset
                         <$> buildAssetEntries (parseAllPairs Number data) baseCurrency)).
  { rewrite buildAssetEntries_omap. apply assetEntries_NoDup.
    - by apply parseAllPairs_NoDup_symbols.
    - intros p. apply parseAllPairs_symbol_split. }
  unfold findAllOpportunities. cbv zeta.
  rewrite Array_sort_perm, fmap_app. apply NoDup_app. split_and!.
  - by apply findTriangles_once.
  - intros k (t & -> & Ht)%list_elem_of_fmap (c & E & Hc)%list_elem_of_fmap.
    apply (opportunities_shape_direction _ _ _ _ _ _ Ht Hc). congruence.
  - by apply findCrossPairs_once.
Qed.

Lemma no_opportunity_reported_twice_witness :
  NoDup ((fun o => (Opportunity.assets o, Opportunity.direction o))
           <$> findAllOpportunities
                 (parseAllPairs exampleNumber
                    [ ("XIRT", book "990" "10" "1000" "10");
                      ("XUSDT", book "1.05" "10" "1.06" "10");
                      ("USDTIRT", book "990" "1000" "1000" "1000") ])
                 "USDT" 0.35%float).
Proof.
  apply no_opportunity_reported_twice. vm_compute.
  repeat (apply NoDup_cons; split;
          [intros H; repeat (apply elem_of_cons in H as [H|H]; [discriminate H|]);
           by apply elem_of_nil in H|]).
  apply NoDup_nil_2.
Defined.

(** * The order of the input *)

Lemma indexPairs_is_Some pairs k :
  is_Some (indexPairs pairs !! k) <->
  exists p, p ∈ pairs /\ indexKey (MarketPair.asset p) (MarketPair.quote p) = k.
Proof.
  split.
  - intros [p Hp]. exists p. by apply indexPairs_lookup_Some.
  - intros (p & Hp & Hk). destruct (indexPairs pairs !! k) eqn:E; [by eexists|].
    exfalso. rewrite indexPairs_lookup_last in E. apply last_None in E.
    assert (Hin : p ∈ filter
      (fun p => indexKey (MarketPair.asset p) (MarketPair.quote p) = k) pairs)
      by by apply list_elem_of_filter.
    rewrite E in Hin. by apply elem_of_nil in Hin.
Qed.

Lemma buildAssetEntries_nonempty pairs baseCurrency :
  buildAssetEntries pairs baseCurrency <> [] <->
  exists p, p ∈ pairs /\ MarketPair.quote p = "IRT"
    /\ MarketPair.asset p <> baseCurrency
    /\ is_Some (indexPairs pairs !! indexKey (MarketPair.asset p) baseCurrency).
Proof.
  rewrite buildAssetEntries_omap.
  generalize (indexPairs pairs) as idx. intros idx. split.
  - intros H. destruct (omap _ pairs) as [|e l] eqn:E; [done|].
    assert (He : e ∈ omap (assetEntryOf idx baseCurrency) pairs)
      by (rewrite E; apply list_elem_of_here).
    apply list_elem_of_omap in He as (p & Hp & He). exists p. split; [done|].
    assert (Hs : is_Some (assetEntryOf idx baseCurrency p)) by by eexists.
    apply assetEntryOf_is_Some in Hs.
    apply andb_true_iff in Hs as [[Hq Ha]%andb_true_iff Hi].
    apply String.eqb_eq in Hq. apply negb_true_iff, String.eqb_neq in Ha.
    by apply bool_decide_eq_true in Hi.
  - intros (p & Hp & Hq & Ha & Hi) E.
    assert (Hs : is_Some (assetEntryOf idx baseCurrency p)).
    { apply assetEntryOf_is_Some. rewrite !andb_true_iff. split_and!.
      - by apply String.eqb_eq.
      - by apply negb_true_iff, String.eqb_neq.
      - by apply bool_decide_eq_true. }
    destruct Hs as [e He].
    assert (Hin : e ∈ omap (assetEntryOf idx baseCurrency) pairs)
      by (apply list_elem_of_omap; by exists p).
    rewrite E in Hin. by apply elem_of_nil in Hin.
Qed.

Lemma elem_of_getAvailableBases_perm pairs pairs' q :
  pairs ≡ₚ pairs' -> q ∈ getAvailableBases pairs -> q ∈ getAvailableBases pairs'.
Proof.
  intros Hp. rewrite !elem_of_getAvailableBases, !buildAssetEntries_nonempty,
    !indexPairs_is_Some.
  intros ((p & Hin & Hq) & Hirt & (br & Hbr & Hk) & (x & Hx & Hxq & Hxa & Hxi)).
  apply indexPairs_is_Some in Hxi as (bp & Hbp & Hbk).
  assert (Hsub : forall p, p ∈ pairs -> p ∈ pairs') by (intros p' Hp'; by rewrite <- Hp).
  split_and!; [|done| |].
  - exists p. split; [by apply Hsub|done].
  - exists br. split; [by apply Hsub|done].
  - exists x. split_and!; [by apply Hsub|done..|].
    apply indexPairs_is_Some. exists bp. split; [by apply Hsub|done].
Qed.

Lemma strictly_sorted_unique (l1 l2 : list string) :
  StronglySorted stringLt l1 -> StronglySorted stringLt l2 -> l1 ≡ₚ l2 -> l1 = l2.
Proof.
  intros H1. revert l2. induction H1 as [|x l1 H1 IH Hx]; intros l2 H2 Hp.
  - by apply Permutation_nil_l in Hp.
  - destruct H2 as [|y l2 H2 Hy]; [by apply Permutation_nil_r in Hp|].
    rewrite Forall_forall in Hx, Hy.
    assert (x = y) as <-.
    { assert (Hxin : x ∈ y :: l2) by (rewrite <- Hp; apply list_elem_of_here).
      assert (Hyin : y ∈ x :: l1) by (rewrite Hp; apply list_elem_of_here).
      apply elem_of_cons in Hxin as [?|Hxin]; [done|].
      apply elem_of_cons in Hyin as [?|Hyin]; [done|].
      apply Hy in Hxin. apply Hx in Hyin. unfold stringLt in *.
      rewrite String.compare_antisym, Hxin in Hyin. discriminate. }
    f_equal. apply IH; [done|]. by apply Permutation_cons_inv in Hp.
Qed.

(** X26: [getAvailableBases] does not depend on the order of the pairs: two
    lists that hold the same pairs give the same bases, in the same order. *)
Theorem getAvailableBases_order_independent pairs pairs' :
  pairs ≡ₚ pairs' -> getAvailableBases pairs = getAvailableBases pairs'.
Proof.
  intros Hp.
  apply strictly_sorted_unique.
  - apply (@Sorted_StronglySorted _ stringLt);
      [intros a b c; apply string_compare_lt_trans|].
    apply Sorted_NoDup_strict; [apply NoDup_getAvailableBases|].
    rewrite getAvailableBases_unsorted. apply Array_sort_sorted, SortCompare_asym.
  - apply (@Sorted_StronglySorted _ stringLt);
      [intros a b c; apply string_compare_lt_trans|].
    apply Sorted_NoDup_strict; [apply NoDup_getAvailableBases|].
    rewrite getAvailableBases_unsorted. apply Array_sort_sorted, SortCompare_asym.
  - apply NoDup_Permutation; [apply NoDup_getAvailableBases..|].
    intros q. split; by apply elem_of_getAvailableBases_perm.
Qed.

Lemma getAvailableBases_order_independent_witness :
  getAvailableBases (examplePairs 1000 1000)
  = getAvailableBases (reverse (examplePairs 1000 1000)).
Proof.
  apply getAvailableBases_order_independent. symmetry. apply reverse_Permutation.
Defined.

Lemma filter_at_most_one {A B} `{EqDecision B} (f : A -> B) (l : list A) k :
  NoDup (f <$> l) -> length (filter (fun a => f a = k) l) <= 1.
Proof.
  induction l as [|a l IH]; csimpl; [lia|].
  intros [Ha Hnd]%NoDup_cons. rewrite filter_cons.
  destruct (decide (f a = k)) as [<-|_]; [|by apply IH].
  rewrite filter_none; [simpl; lia|].
  intros b Hb Hfb. apply Ha, list_elem_of_fmap. by exists b.
Qed.

Lemma indexPairs_perm pairs pairs' :
  NoDup ((fun p => indexKey (MarketPair.asset p) (MarketPair.quote p)) <$> pairs) ->
  pairs ≡ₚ pairs' -> indexPairs pairs = indexPairs pairs'.
Proof.
  intros Hnd Hp. apply map_eq. intros k. rewrite !indexPairs_lookup_last.
  set (P := fun p => indexKey (MarketPair.asset p) (MarketPair.quote p) = k).
  assert (Hf : filter P pairs ≡ₚ filter P pairs') by by rewrite Hp.
  pose proof (filter_at_most_one _ pairs k Hnd) as Hlen.
  change (length (filter P pairs) <= 1) in Hlen.
  pose proof (Permutation_length Hf) as Heq.
  destruct (filter P pairs) as [|x [|x' l]], (filter P pairs') as [|y [|y' l']];
    simpl in Hlen, Heq; try lia; try done.
  by apply Permutation_singleton_l in Hf as [= ->].
Qed.

Lemma parsed_index_keys_NoDup Number data :
  NoDup data.*1 ->
  NoDup ((fun p => indexKey (MarketPair.asset p) (MarketPair.quote p))
           <$> parseAllPairs Number data).
Proof.
  intros Hnd. apply parseAllPairs_NoDup_symbols with (Number := Number) in Hnd.
  apply NoDup_fmap_2_strong; [|by apply NoDup_fmap_1 in Hnd].
  intros p p' Hp Hp' Hk.
  apply (NoDup_fmap_eq MarketPair.symbol _ _ _ Hnd Hp Hp').
  rewrite (parseAllPairs_symbol_split _ _ _ Hp), (parseAllPairs_symbol_split _ _ _ Hp').
  apply indexKey_inj in Hk as [-> ->]; [done| |].
  - by destruct (parseAllPairs_quote _ _ _ Hp) as [->| ->].
  - by destruct (parseAllPairs_quote _ _ _ Hp') as [->| ->].
Qed.

(** X27: the triangles found do not depend on the order of the entries of
    the snapshot: two snapshots with the same entries, whose keys are
    distinct, give the same pairs and the same triangles, up to their order. *)
Theorem findTriangles_order_independent Number data data' baseCurrency feeRatePct :
  NoDup data.*1 -> data ≡ₚ data' ->
  parseAllPairs Number data ≡ₚ parseAllPairs Number data'
  /\ findTriangles (parseAllPairs Number data) baseCurrency feeRatePct
     ≡ₚ findTriangles (parseAllPairs Number data') baseCurrency feeRatePct.
Proof.
  intros Hnd Hp.
  assert (Hpairs : parseAllPairs Number data ≡ₚ parseAllPairs Number data').
  { rewrite !parseAllPairs_omap. by rewrite Hp. }
  split; [done|].
  pose proof (indexPairs_perm _ _ (parsed_index_keys_NoDup Number data Hnd) Hpairs) as Hidx.
  rewrite !findTriangles_bind, !buildAssetEntries_omap, <- Hidx.
  generalize (indexPairs (parseAllPairs Number data)) as idx. intros idx.
  destruct (idx !! indexKey baseCurrency "IRT"); [|done].
  by rewrite Hpairs.
Qed.

Lemma findTriangles_order_independent_witness :
  findTriangles (parseAllPairs exampleNumber
                   [ ("XIRT", book "990" "10" "1000" "10");
                     ("XUSDT", book "1.05" "10" "1.06" "10");
                     ("USDTIRT", book "990" "1000" "1000" "1000") ]) "USDT" 0.35%float
  ≡ₚ findTriangles (parseAllPairs exampleNumber
                      [ ("USDTIRT", book "990" "1000" "1000" "1000");
                        ("XUSDT", book "1.05" "10" "1.06" "10");
                        ("XIRT", book "990" "10" "1000" "10") ]) "USDT" 0.35%float.
Proof.
  apply (findTriangles_order_independent exampleNumber
           [ ("XIRT", book "990" "10" "1000" "10");
             ("XUSDT", book "1.05" "10" "1.06" "10");
             ("USDTIRT", book "990" "1000" "1000" "1000") ]).
  - vm_compute.
    repeat (apply NoDup_cons; split;
            [intros H; repeat (apply elem_of_cons in H as [H|H]; [discriminate H|]);
             by apply elem_of_nil in H|]).
    apply NoDup_nil_2.
  - apply (reverse_Permutation
             [ ("USDTIRT", book "990" "1000" "1000" "1000");
               ("XUSDT", book "1.05" "10" "1.06" "10");
               ("XIRT", book "990" "10" "1000" "10") ]).
Defined.

(** * A sound index, and a ranking that keeps the order of its parts *)

(** X29: when no ticker holds a [:], the index finds the pairs it is asked
    for: the bridge pair [findTriangles] looks up is a pair of the input
    with the bridge as asset, quoted in IRT, and every entry of
    [buildAssetEntries] joins two pairs of the input with the same asset, one
    quoted in IRT and one quoted in the bridge. *)
Theorem index_sound_without_colons pairs baseCurrency :
  (forall p, p ∈ pairs -> colonFree (MarketPair.quote p) = true) ->
  colonFree baseCurrency = true ->
  (forall bridge,
     indexPairs pairs !! indexKey baseCurrency "IRT" = Some bridge ->
     bridge ∈ pairs /\ MarketPair.asset bridge = baseCurrency
     /\ MarketPair.quote bridge = "IRT")
  /\ (forall e, e ∈ buildAssetEntries pairs baseCurrency ->
        AssetEntry.irt e ∈ pairs /\ AssetEntry.base e ∈ pairs
        /\ AssetEntry.asset e <> baseCurrency
        /\ MarketPair.asset (AssetEntry.irt e) = AssetEntry.asset e
        /\ MarketPair.quote (AssetEntry.irt e) = "IRT"
        /\ MarketPair.asset (AssetEntry.base e) = AssetEntry.asset e
        /\ MarketPair.quote (AssetEntry.base e) = baseCurrency).
Proof.
  intros Hquotes Hbase. split.
  - intros bridge [Hin Hk]%indexPairs_lookup_Some.
    apply indexKey_inj in Hk as [? ?]; [done|by apply Hquotes|done].
  - intros e (Hirt & Hbp & Ha & Hq & Hne & Hk)%elem_of_buildAssetEntries.
    apply indexKey_inj in Hk as [? ?]; [done|by apply Hquotes|done].
Qed.

Lemma index_sound_without_colons_witness :
  MarketPair.asset (MarketPair.mk "USDTIRT" "USDT" "IRT" 990 1000 1000 1000) = "USDT".
Proof.
  refine (proj1 (proj2 (proj1 (index_sound_without_colons (examplePairs 1000 1000) "USDT"
                                 _ eq_refl) _ _))).
  - intros p Hp. repeat (apply elem_of_cons in Hp as [->|Hp]; [reflexivity|]).
    by apply elem_of_nil in Hp.
  - reflexivity.
Defined.

(** ** Sorting a ranking again *)

Section Resort.

Import FloatFacts FloatSigns.

(** The comparator of the rankings moves [a] behind [b] exactly when the
    [netPct] of [a] is the smaller one. *)
Lemma byNetPctDesc_gt a b :
  JS.gt (byNetPctDesc a b) 0 = (Opportunity.netPct a <? Opportunity.netPct b)%float.
Proof.
  unfold byNetPctDesc.
  destruct (Opportunity.netPct a <? Opportunity.netPct b)%float eqn:E.
  - by apply float_ltb_sub_pos.
  - destruct (JS.gt _ 0) eqn:G; [|done]. apply sub_pos_ltb in G. congruence.
Qed.

Lemma sort_insert_head x l :
  Forall (netPctAtLeast x) l -> JS.sort_insert byNetPctDesc x l = x :: l.
Proof.
  destruct l as [|y l]; [done|]. intros [Hy _]%Forall_cons. simpl.
  rewrite byNetPctDesc_gt. apply leb_not_gt in Hy. unfold JS.gt in Hy.
  by rewrite Hy.
Qed.

(** A ranking that is in order is left as it is. *)
Lemma Array_sort_ranked l :
  StronglySorted netPctAtLeast l -> JS.Array_sort byNetPctDesc l = l.
Proof.
  induction 1 as [|x l Hl IH Hx]; [done|]. simpl. rewrite IH. by apply sort_insert_head.
Qed.

Lemma sort_insert_filter_ranked (P : Opportunity.t -> Prop)
    `{!forall o, Decision (P o)} x l :
  is_nan (Opportunity.netPct x) = false ->
  (forall z, z ∈ l -> is_nan (Opportunity.netPct z) = false) ->
  StronglySorted netPctAtLeast l ->
  filter P (JS.sort_insert byNetPctDesc x l)
  = if decide (P x) then JS.sort_insert byNetPctDesc x (filter P l) else filter P l.
Proof.
  intros Hx Hn Hs. induction Hs as [|y l Hl IH Hy]; simpl.
  - rewrite filter_cons, filter_nil. by destruct (decide (P x)).
  - assert (Hn' : forall z, z ∈ l -> is_nan (Opportunity.netPct z) = false).
    { intros z Hz. by apply Hn, list_elem_of_further. }
    specialize (IH Hn'). rewrite byNetPctDesc_gt.
    destruct (Opportunity.netPct x <? Opportunity.netPct y)%float eqn:E.
    + rewrite !filter_cons, IH.
      destruct (decide (P y)), (decide (P x)); simpl; try done.
      by rewrite byNetPctDesc_gt, E.
    + rewrite (filter_cons _ x).
      destruct (decide (P x)); [|done].
      rewrite sort_insert_head; [done|].
      rewrite Forall_forall in Hy |- *.
      intros z [_ Hz]%list_elem_of_filter.
      unfold netPctAtLeast. apply float_leb_total; [done|by apply Hn|].
      apply elem_of_cons in Hz as [->|Hz]; [done|].
      destruct (Opportunity.netPct x <? Opportunity.netPct z)%float eqn:Ez; [|done].
      rewrite (float_ltb_leb_trans _ _ _ Ez (Hy z Hz)) in E. discriminate.
Qed.

(** On rankings of numbers, sorting and filtering commute. *)
Lemma Array_sort_filter_ranked (P : Opportunity.t -> Prop)
    `{!forall o, Decision (P o)} l :
  (forall z, z ∈ l -> is_nan (Opportunity.netPct z) = false) ->
  filter P (JS.Array_sort byNetPctDesc l) = JS.Array_sort byNetPctDesc (filter P l).
Proof.
  induction l as [|x l IH]; intros Hn; [done|].
  assert (Hn' : forall z, z ∈ l -> is_nan (Opportunity.netPct z) = false).
  { intros z Hz. by apply Hn, list_elem_of_further. }
  simpl. rewrite sort_insert_filter_ranked.
  - rewrite filter_cons, (IH Hn'). by destruct (decide (P x)).
  - apply Hn, list_elem_of_here.
  - intros z Hz%elem_of_Array_sort. by apply Hn'.
  - apply descending_numbers_throughout.
    + intros z Hz%elem_of_Array_sort. by apply Hn'.
    + apply Array_sort_byNetPctDesc_descending.
Qed.

(** X30: when three and four times the fee are finite, the combined
    ranking keeps each strategy in its own order: the cross-pairs of
    [findAllOpportunities] are the result of [findCrossPairs], in the same
    order, and its triangles are the triangles of [findTriangles] ranked by
    [netPct]. *)
Theorem combined_ranking_keeps_each_order pairs baseCurrency feeRatePct :
  JS.isFinite (3 * feeRatePct)%float = true ->
  JS.isFinite (4 * feeRatePct)%float = true ->
  filter (fun o => Opportunity.type o = cross)
    (findAllOpportunities pairs baseCurrency feeRatePct)
  = findCrossPairs pairs baseCurrency feeRatePct defaultMaxResults
  /\ filter (fun o => Opportunity.type o = triangle)
       (findAllOpportunities pairs baseCurrency feeRatePct)
     = JS.Array_sort byNetPctDesc (findTriangles pairs baseCurrency feeRatePct).
Proof.
  intros H3 H4.
  assert (Hn : forall z,
    z ∈ findTriangles pairs baseCurrency feeRatePct
        ++ findCrossPairs pairs baseCurrency feeRatePct defaultMaxResults ->
    is_nan (Opportunity.netPct z) = false).
  { intros z [Hz|Hz]%elem_of_app.
    - by eapply triangle_netPct_not_nan.
    - by eapply cross_netPct_not_nan. }
  unfold findAllOpportunities. cbv zeta.
  rewrite !Array_sort_filter_ranked, !filter_app by done. split.
  - rewrite filter_none, (filter_all _ (findCrossPairs _ _ _ _)).
    + simpl. apply Array_sort_ranked.
      apply descending_numbers_throughout.
      * intros o Ho. by eapply cross_netPct_not_nan.
      * unfold findCrossPairs. cbv zeta. apply Sorted_take.
        apply Array_sort_byNetPctDesc_descending.
    + apply findCrossPairs_type.
    + intros o Ho%findTriangles_type. congruence.
  - rewrite filter_all, filter_none.
    + by rewrite app_nil_r.
    + intros o Ho%findCrossPairs_type. congruence.
    + apply findTriangles_type.
Qed.

End Resort.

Lemma combined_ranking_keeps_each_order_witness :
  filter (fun o => Opportunity.type o = cross)
    (findAllOpportunities pairsWithoutBridge "USDT" 0.35%float)
  = findCrossPairs pairsWithoutBridge "USDT" 0.35%float defaultMaxResults.
Proof.
  apply (combined_ranking_keeps_each_order pairsWithoutBridge "USDT" 0.35%float);
    reflexivity.
Defined.
